(** * Folderly backend (src/backend/main.mo): a shallow embedding

    The Motoko actor keeps, per principal, three collections (folders,
    files, tags) and three id counters.  This development embeds the
    helper functions and the exported update and query methods of
    [main.mo] and proves properties of name resolution, of the folder
    hierarchy, of the cascades and of search.

    Modelling conventions.
    - [Text] is [string], read as a sequence of code points below 256
      (the Latin-1 range of Unicode).  On that range [Text.toLower] works
      character by character: the capital letters are A..Z, the accented
      capitals from A grave to O diaeresis and from O stroke to Thorn
      (codes 65..90, 192..214 and 216..222), and each has its small letter
      32 places up; every other character is left as it is.
    - [Nat] is [nat], [Int] is [Z], [Nat64] is [N].
    - [Map.Map<Nat, V>] of mo:core is an ordered map: it is a [gmap nat V]
      whose [values] are listed by increasing key.
    - [Runtime.trap] is the [Trap] outcome of the monad [M]; the state
      reached when the trap happens is kept, so that what was written
      before a trap can be observed.
    - [Time.now ()] is an argument [now] of the methods that read it.
    - The profile methods touch nothing that the properties below speak
      about and are left out. *)

From Stdlib Require Import String Ascii DecimalString DecimalNat.
From stdpp Require Import gmap strings list fin_maps sorting.

Local Open Scope string_scope.
Local Open Scope nat_scope.

(** ** Text *)

Abbreviation Text := string (only parsing).
Abbreviation Char := ascii (only parsing).

(** [Text.toLower], one character at a time: the capital letters below
    256 are at the codes 65..90, 192..214 and 216..222 (215 is the
    multiplication sign), their small letters 32 places up. *)
Definition charToLower (c : Char) : Char :=
  let n := nat_of_ascii c in
  if (65 <=? n)%nat && (n <=? 90)%nat
     || (192 <=? n)%nat && (n <=? 214)%nat
     || (216 <=? n)%nat && (n <=? 222)%nat
  then ascii_of_nat (n + 32) else c.

Fixpoint toLower (t : Text) : Text :=
  match t with
  | EmptyString => EmptyString
  | String c r => String (charToLower c) (toLower r)
  end.

(** [t.chars().toArray()] and the array accesses [chars[i]].  Every access
    in the source is guarded so that the index is in range; [charAt]
    returns the zero character elsewhere. *)
Definition toArray (t : Text) : list Char := list_ascii_of_string t.

Definition charAt (chars : list Char) (i : nat) : Char :=
  nth i chars zero.

Fixpoint isPrefix (p t : Text) : bool :=
  match p, t with
  | EmptyString, _ => true
  | String a p', String b t' => if Ascii.eqb a b then isPrefix p' t' else false
  | String _ _, EmptyString => false
  end.

(** [t.contains(#text p)]: [p] occurs in [t] as a contiguous block. *)
Fixpoint contains (t p : Text) : bool :=
  if isPrefix p t then true
  else match t with
       | EmptyString => false
       | String _ t' => contains t' p
       end.

Definition textContainsIgnoreCase (haystack needle : Text) : bool :=
  contains (toLower haystack) (toLower needle).

Definition namesEqual (a b : Text) : bool :=
  String.eqb (toLower a) (toLower b).

(** [Nat.toText]: the decimal numeral without sign or separators. *)
Definition natToText (n : nat) : Text :=
  NilEmpty.string_of_uint (Nat.to_uint n).

(** The loop of [textFromRange]: [n] is [endExclusive - i]; the second
    loop condition [i < chars.size()] is the [Some] case of the lookup. *)
Fixpoint textFromRange_loop (chars : list Char) (i n : nat) (result : Text) : Text :=
  match n with
  | O => result
  | S n' =>
      match chars !! i with
      | Some c => textFromRange_loop chars (S i) n' (result ++ String c EmptyString)
      | None => result
      end
  end.

Definition textFromRange (chars : list Char) (start endExclusive : nat) : Text :=
  textFromRange_loop chars start (endExclusive - start) "".

Fixpoint findOpenParen (chars : list Char) (pos : nat) : option nat :=
  match pos with
  | O => None
  | S p => if Ascii.eqb (charAt chars pos) "(" then Some pos
           else findOpenParen chars p
  end.

Definition isDigit (c : Char) : bool :=
  (48 <=? nat_of_ascii c)%nat && (nat_of_ascii c <=? 57)%nat.

(** The digit loop of [parseNameSuffix]: [n] is [numEnd - j]; [None] is the
    early [return (name, 0)] on a character that is not a digit. *)
Fixpoint parseDigits (chars : list Char) (j n num : nat) : option nat :=
  match n with
  | O => Some num
  | S n' =>
      let c := charAt chars j in
      if isDigit c
      then parseDigits chars (S j) n' (num * 10 + (nat_of_ascii c - 48))
      else None
  end.

Definition parseNameSuffix (name : Text) : Text * nat :=
  let chars := toArray name in
  let len := length chars in
  if (len <? 5)%nat || negb (Ascii.eqb (charAt chars (len - 1)) ")") then (name, 0)
  else
    match findOpenParen chars (len - 2) with
    | None => (name, 0)
    | Some pStart =>
        if (pStart =? 0)%nat || negb (Ascii.eqb (charAt chars (pStart - 1)) " ")
        then (name, 0)
        else
          let numStart := pStart + 1 in
          let numEnd := len - 1 in
          if (numEnd <=? numStart)%nat then (name, 0)
          else
            match parseDigits chars numStart (numEnd - numStart) 0 with
            | None => (name, 0)
            | Some num => (textFromRange chars 0 (pStart - 1), num)
            end
    end.

(** The loop of [parseFileNameSuffix] that finds the last dot. *)
Fixpoint findLastDot (chars : list Char) (i : nat) (lastDot : option nat) : option nat :=
  match chars with
  | [] => lastDot
  | c :: r => findLastDot r (S i) (if Ascii.eqb c "." then Some i else lastDot)
  end.

Definition parseFileNameSuffix (name : Text) : Text * Text * nat :=
  let chars := toArray name in
  let len := length chars in
  match findLastDot chars 0 None with
  | None => let '(baseName, suffix) := parseNameSuffix name in (baseName, "", suffix)
  | Some dotPos =>
      if (dotPos =? 0)%nat
      then let '(baseName, suffix) := parseNameSuffix name in (baseName, "", suffix)
      else
        let baseWithSuffix := textFromRange chars 0 dotPos in
        let ext := textFromRange chars (dotPos + 1) len in
        let '(baseName, suffix) := parseNameSuffix baseWithSuffix in
        (baseName, ext, suffix)
  end.

(** ** Data model *)

Abbreviation FileId := nat (only parsing).
Abbreviation FolderId := nat (only parsing).
Abbreviation TagId := nat (only parsing).
Abbreviation Int := Z (only parsing).
Abbreviation Nat64 := N (only parsing).

(** [Storage.ExternalBlob] is an opaque handle of the blob store; the
    backend only stores and returns it. *)
Definition ExternalBlob := list Byte.byte.

Module Tag.
Record t := mk { id : TagId; name : Text; color : Text }.
End Tag.

Module FileMetadata.
Record t := mk {
  id : FileId;
  name : Text;
  description : Text;
  tagIds : list TagId;
  folderId : option FolderId;
  size : Nat64;
  uploadDate : Int;
  modifiedDate : Int;
  fileType : Text;
  blob : ExternalBlob
}.
End FileMetadata.

Module Folder.
Record t := mk {
  id : FolderId;
  name : Text;
  parentId : option FolderId;
  createdDate : Int;
  modifiedDate : Int
}.
End Folder.

Inductive Principal := Anonymous | User (n : nat).

Definition isAnonymous (p : Principal) : bool :=
  match p with Anonymous => true | User _ => false end.

#[global] Instance Principal_eq_dec : EqDecision Principal.
Proof. solve_decision. Defined.

#[global] Instance Principal_countable : Countable Principal.
Proof.
  refine (inj_countable' (λ p, match p with Anonymous => None | User n => Some n end)
                         (λ o, match o with None => Anonymous | Some n => User n end) _).
  intros []; reflexivity.
Defined.

(** ** Ordered maps

    A [Map.Map<Nat, V>] iterates by increasing key. *)

Definition keyLe {V} (a b : nat * V) : Prop := (a.1 ≤ b.1)%nat.

#[global] Instance keyLe_dec {V} (a b : nat * V) : Decision (keyLe a b).
Proof. unfold keyLe. apply _. Defined.

Definition entries {V} (m : gmap nat V) : list (nat * V) :=
  merge_sort keyLe (map_to_list m).

Definition values {V} (m : gmap nat V) : list V := (entries m).*2.
Definition keys {V} (m : gmap nat V) : list nat := (entries m).*1.

Definition containsKey {V} (m : gmap nat V) (k : nat) : bool :=
  bool_decide (is_Some (m !! k)).

(** ** State

    The actor's stable variables (the profile map, which no folder, file or
    tag method reads, is left out). *)

Record State := mkState {
  userFiles : gmap Principal (gmap nat FileMetadata.t);
  userFolders : gmap Principal (gmap nat Folder.t);
  userTags : gmap Principal (gmap nat Tag.t);
  userNextFileId : gmap Principal nat;
  userNextFolderId : gmap Principal nat;
  userNextTagId : gmap Principal nat
}.

Definition initState : State := mkState ∅ ∅ ∅ ∅ ∅ ∅.

(** What a principal sees of each stable variable: a missing entry is the
    empty collection, respectively the counter value 1. *)
Definition files_of (s : State) (u : Principal) : gmap nat FileMetadata.t :=
  default ∅ (userFiles s !! u).
Definition folders_of (s : State) (u : Principal) : gmap nat Folder.t :=
  default ∅ (userFolders s !! u).
Definition tags_of (s : State) (u : Principal) : gmap nat Tag.t :=
  default ∅ (userTags s !! u).
Definition nextFileId_of (s : State) (u : Principal) : nat :=
  default 1 (userNextFileId s !! u).
Definition nextFolderId_of (s : State) (u : Principal) : nat :=
  default 1 (userNextFolderId s !! u).
Definition nextTagId_of (s : State) (u : Principal) : nat :=
  default 1 (userNextTagId s !! u).

Definition setFiles (u : Principal) (m : gmap nat FileMetadata.t) (s : State) : State :=
  mkState (<[u := m]> (userFiles s)) (userFolders s) (userTags s)
          (userNextFileId s) (userNextFolderId s) (userNextTagId s).
Definition setFolders (u : Principal) (m : gmap nat Folder.t) (s : State) : State :=
  mkState (userFiles s) (<[u := m]> (userFolders s)) (userTags s)
          (userNextFileId s) (userNextFolderId s) (userNextTagId s).
Definition setTags (u : Principal) (m : gmap nat Tag.t) (s : State) : State :=
  mkState (userFiles s) (userFolders s) (<[u := m]> (userTags s))
          (userNextFileId s) (userNextFolderId s) (userNextTagId s).
Definition setNextFileId (u : Principal) (n : nat) (s : State) : State :=
  mkState (userFiles s) (userFolders s) (userTags s)
          (<[u := n]> (userNextFileId s)) (userNextFolderId s) (userNextTagId s).
Definition setNextFolderId (u : Principal) (n : nat) (s : State) : State :=
  mkState (userFiles s) (userFolders s) (userTags s)
          (userNextFileId s) (<[u := n]> (userNextFolderId s)) (userNextTagId s).
Definition setNextTagId (u : Principal) (n : nat) (s : State) : State :=
  mkState (userFiles s) (userFolders s) (userTags s)
          (userNextFileId s) (userNextFolderId s) (<[u := n]> (userNextTagId s)).

(** ** The monad of actor methods: state and traps *)

Inductive Res (A : Type) := Ok (a : A) | Trap (msg : Text).
Arguments Ok {A} a.
Arguments Trap {A} msg.

#[global] Instance Res_fmap : FMap Res :=
  λ A B f r, match r with Ok a => Ok (f a) | Trap msg => Trap msg end.

Definition M (A : Type) : Type := State → Res A * State.

Definition ret {A} (a : A) : M A := λ s, (Ok a, s).
Definition trap {A} (msg : Text) : M A := λ s, (Trap msg, s).
Definition bind {A B} (m : M A) (k : A → M B) : M B :=
  λ s, match m s with
       | (Ok a, s1) => k a s1
       | (Trap msg, s1) => (Trap msg, s1)
       end.

Notation "'let*' x ':=' m 'in' k" := (bind m (λ x, k))
  (at level 10, x name, m at level 100, k at level 200, only parsing).
Notation "'do*' m 'in' k" := (bind m (λ _, k))
  (at level 10, m at level 100, k at level 200, only parsing).

Definition when (b : bool) (m : M unit) : M unit := if b then m else ret tt.

Fixpoint forEach {A} (xs : list A) (body : A → M unit) : M unit :=
  match xs with
  | [] => ret tt
  | x :: r => do* body x in forEach r body
  end.

Definition liftRes {A} (r : Res A) : M A := λ s, (r, s).

(** ** Helpers of the actor *)

Definition requireAuth (caller : Principal) : M unit :=
  if isAnonymous caller then trap "Not authenticated" else ret tt.

(** [getUserFiles], [getUserFolders], [getUserTags]: the principal's
    collection, created empty (and stored) on first access. *)
Definition getUserFiles (user : Principal) : M (gmap nat FileMetadata.t) :=
  λ s, match userFiles s !! user with
       | Some m => (Ok m, s)
       | None => (Ok ∅, setFiles user ∅ s)
       end.

Definition getUserFolders (user : Principal) : M (gmap nat Folder.t) :=
  λ s, match userFolders s !! user with
       | Some m => (Ok m, s)
       | None => (Ok ∅, setFolders user ∅ s)
       end.

Definition getUserTags (user : Principal) : M (gmap nat Tag.t) :=
  λ s, match userTags s !! user with
       | Some m => (Ok m, s)
       | None => (Ok ∅, setTags user ∅ s)
       end.

(** The collections returned by the three functions above are mutable
    objects shared with the stable variable: [m.add (k, v)] and
    [m.remove k] on such a handle write through to the principal's entry. *)
Definition filesAdd (user : Principal) (k : FileId) (v : FileMetadata.t) : M unit :=
  λ s, (Ok tt, setFiles user (<[k := v]> (files_of s user)) s).
Definition filesRemove (user : Principal) (k : FileId) : M unit :=
  λ s, (Ok tt, setFiles user (delete k (files_of s user)) s).
Definition foldersAdd (user : Principal) (k : FolderId) (v : Folder.t) : M unit :=
  λ s, (Ok tt, setFolders user (<[k := v]> (folders_of s user)) s).
Definition foldersRemove (user : Principal) (k : FolderId) : M unit :=
  λ s, (Ok tt, setFolders user (delete k (folders_of s user)) s).
Definition tagsAdd (user : Principal) (k : TagId) (v : Tag.t) : M unit :=
  λ s, (Ok tt, setTags user (<[k := v]> (tags_of s user)) s).
Definition tagsRemove (user : Principal) (k : TagId) : M unit :=
  λ s, (Ok tt, setTags user (delete k (tags_of s user)) s).

Definition genFileId (user : Principal) : M nat :=
  λ s, let id := match userNextFileId s !! user with Some id => id | None => 1 end in
       (Ok id, setNextFileId user (id + 1) s).

Definition genFolderId (user : Principal) : M nat :=
  λ s, let id := match userNextFolderId s !! user with Some id => id | None => 1 end in
       (Ok id, setNextFolderId user (id + 1) s).

Definition genTagId (user : Principal) : M nat :=
  λ s, let id := match userNextTagId s !! user with Some id => id | None => 1 end in
       (Ok id, setNextTagId user (id + 1) s).

Definition shouldExclude (excludeId : option nat) (id : nat) : bool :=
  match excludeId with
  | None => false
  | Some eid => bool_decide (id = eid)
  end.

Definition optEq (a b : option nat) : bool := bool_decide (a = b).

(** The second loop of [getUniqueFolderName], one sibling at a time. *)
Definition folderSuffixStep (parentId : option FolderId) (excludeId : option FolderId)
    (baseName : Text) (maxSuffix : nat) (folder : Folder.t) : nat :=
  if negb (shouldExclude excludeId (Folder.id folder))
     && optEq (Folder.parentId folder) parentId
  then
    let '(existingBase, existingSuffix) := parseNameSuffix (Folder.name folder) in
    let maxSuffix1 :=
      if namesEqual existingBase baseName && (maxSuffix <=? existingSuffix)%nat
      then existingSuffix + 1 else maxSuffix in
    if namesEqual (Folder.name folder) baseName && (maxSuffix1 =? 0)%nat
    then 1 else maxSuffix1
  else maxSuffix.

Definition folderSiblingNames (parentId : option FolderId) (excludeId : option FolderId)
    (folders : gmap nat Folder.t) : gset Text :=
  foldl (λ existingNames folder,
           if negb (shouldExclude excludeId (Folder.id folder))
              && optEq (Folder.parentId folder) parentId
           then {[ toLower (Folder.name folder) ]} ∪ existingNames
           else existingNames)
        ∅ (values folders).

(** The body of [getUniqueFolderName] once [folders] is bound. *)
Definition uniqueFolderNameIn (folders : gmap nat Folder.t) (parentId : option FolderId)
    (desiredName : Text) (excludeId : option FolderId) : Text :=
  let existingNames := folderSiblingNames parentId excludeId folders in
  if negb (bool_decide (toLower desiredName ∈ existingNames)) then desiredName
  else
    let '(baseName, _) := parseNameSuffix desiredName in
    let maxSuffix :=
      foldl (folderSuffixStep parentId excludeId baseName) 0 (values folders) in
    baseName ++ " (" ++ natToText maxSuffix ++ ")".

Definition getUniqueFolderName (user : Principal) (parentId : option FolderId)
    (desiredName : Text) (excludeId : option FolderId) : M Text :=
  let* folders := getUserFolders user in
  ret (uniqueFolderNameIn folders parentId desiredName excludeId).

Definition fileSuffixStep (folderId : option FolderId) (excludeId : option FileId)
    (baseName ext : Text) (maxSuffix : nat) (file : FileMetadata.t) : nat :=
  if negb (shouldExclude excludeId (FileMetadata.id file))
     && optEq (FileMetadata.folderId file) folderId
  then
    let '(existingBase, existingExt, existingSuffix) :=
      parseFileNameSuffix (FileMetadata.name file) in
    let maxSuffix1 :=
      if namesEqual existingBase baseName && namesEqual existingExt ext
         && (maxSuffix <=? existingSuffix)%nat
      then existingSuffix + 1 else maxSuffix in
    let fullBase := if String.eqb ext "" then baseName else baseName ++ "." ++ ext in
    if namesEqual (FileMetadata.name file) fullBase && (maxSuffix1 =? 0)%nat
    then 1 else maxSuffix1
  else maxSuffix.

Definition fileSiblingNames (folderId : option FolderId) (excludeId : option FileId)
    (files : gmap nat FileMetadata.t) : gset Text :=
  foldl (λ existingNames file,
           if negb (shouldExclude excludeId (FileMetadata.id file))
              && optEq (FileMetadata.folderId file) folderId
           then {[ toLower (FileMetadata.name file) ]} ∪ existingNames
           else existingNames)
        ∅ (values files).

(** The body of [getUniqueFileName] once [files] is bound. *)
Definition uniqueFileNameIn (files : gmap nat FileMetadata.t) (folderId : option FolderId)
    (desiredName : Text) (excludeId : option FileId) : Text :=
  let existingNames := fileSiblingNames folderId excludeId files in
  if negb (bool_decide (toLower desiredName ∈ existingNames)) then desiredName
  else
    let '(baseName, ext, _) := parseFileNameSuffix desiredName in
    let maxSuffix :=
      foldl (fileSuffixStep folderId excludeId baseName ext) 0 (values files) in
    if String.eqb ext ""
    then baseName ++ " (" ++ natToText maxSuffix ++ ")"
    else baseName ++ " (" ++ natToText maxSuffix ++ ")." ++ ext.

Definition getUniqueFileName (user : Principal) (folderId : option FolderId)
    (desiredName : Text) (excludeId : option FileId) : M Text :=
  let* files := getUserFiles user in
  ret (uniqueFileNameIn files folderId desiredName excludeId).

Definition folderExists (user : Principal) (folderId : FolderId) : M bool :=
  let* folders := getUserFolders user in
  ret (containsKey folders folderId).

Definition assertFolderExists (user : Principal) (folderId : option FolderId) : M unit :=
  match folderId with
  | None => ret tt
  | Some id =>
      let* ex := folderExists user id in
      if negb ex then trap ("Folder not found: " ++ natToText id) else ret tt
  end.

Fixpoint assertTagsExist_loop (userTagMap : gmap nat Tag.t) (tagIds : list TagId) : M unit :=
  match tagIds with
  | [] => ret tt
  | tagId :: r =>
      if negb (containsKey userTagMap tagId)
      then trap ("Tag not found: " ++ natToText tagId)
      else assertTagsExist_loop userTagMap r
  end.

Definition assertTagsExist (user : Principal) (tagIds : list TagId) : M unit :=
  let* userTagMap := getUserTags user in
  assertTagsExist_loop userTagMap tagIds.

Definition maxFolderDepth : nat := 100.

Definition deepMsg : Text :=
  "Folder hierarchy too deep or circular reference detected".

(** [checkAncestor] recurses with [depth + 1] and traps once
    [depth >= maxFolderDepth]; [checkAncestor_from] is that recursion
    written on the remaining budget [maxFolderDepth - depth]
    (see [checkAncestor_unfold]). *)
Fixpoint checkAncestor_from (budget : nat) (folders : gmap nat Folder.t)
    (ancestorId : FolderId) (currentId : option FolderId) : Res bool :=
  match budget with
  | O => Trap deepMsg
  | S budget' =>
      match currentId with
      | None => Ok false
      | Some id =>
          if bool_decide (id = ancestorId) then Ok true
          else match folders !! id with
               | None => Ok false
               | Some folder =>
                   checkAncestor_from budget' folders ancestorId (Folder.parentId folder)
               end
      end
  end.

Definition checkAncestor (folders : gmap nat Folder.t) (ancestorId : FolderId)
    (currentId : option FolderId) (depth : nat) : Res bool :=
  checkAncestor_from (maxFolderDepth - depth) folders ancestorId currentId.

Definition isAncestor (user : Principal) (ancestorId descendantId : FolderId) : M bool :=
  let* folders := getUserFolders user in
  liftRes (checkAncestor folders ancestorId (Some descendantId) 0).

(** ** Folder operations *)

Definition createFolder (caller : Principal) (name : Text) (parentId : option FolderId)
    (now : Int) : M Folder.t :=
  do* requireAuth caller in
  do* assertFolderExists caller parentId in
  do* when (String.eqb name "") (trap "Folder name cannot be empty") in
  let* uniqueName := getUniqueFolderName caller parentId name None in
  let* folders := getUserFolders caller in
  let* folderId := genFolderId caller in
  let folder := Folder.mk folderId uniqueName parentId now now in
  do* foldersAdd caller folderId folder in
  ret folder.

Definition renameFolder (caller : Principal) (id : FolderId) (newName : Text)
    (now : Int) : M Folder.t :=
  do* requireAuth caller in
  do* when (String.eqb newName "") (trap "Folder name cannot be empty") in
  let* folders := getUserFolders caller in
  match folders !! id with
  | None => trap "Folder not found"
  | Some folder =>
      let* uniqueName := getUniqueFolderName caller (Folder.parentId folder) newName (Some id) in
      let updated := Folder.mk (Folder.id folder) uniqueName (Folder.parentId folder)
                               (Folder.createdDate folder) now in
      do* foldersRemove caller id in
      do* foldersAdd caller id updated in
      ret updated
  end.

Definition moveFolder (caller : Principal) (id : FolderId) (newParentId : option FolderId)
    (now : Int) : M Folder.t :=
  do* requireAuth caller in
  do* assertFolderExists caller newParentId in
  do* match newParentId with
      | None => ret tt
      | Some parentId =>
          do* when (bool_decide (id = parentId)) (trap "Cannot move folder into itself") in
          let* anc := isAncestor caller id parentId in
          when anc (trap "Cannot move folder into its own descendant")
      end in
  let* folders := getUserFolders caller in
  match folders !! id with
  | None => trap "Folder not found"
  | Some folder =>
      let* uniqueName := getUniqueFolderName caller newParentId (Folder.name folder) (Some id) in
      let updated := Folder.mk (Folder.id folder) uniqueName newParentId
                               (Folder.createdDate folder) now in
      do* foldersRemove caller id in
      do* foldersAdd caller id updated in
      ret updated
  end.

(** The id sets [folderIdsToDelete] and [folderIdSet] are maps to unit. *)
Abbreviation IdSet := (gmap nat unit) (only parsing).

(** One execution of the body of [while (foundNew)]: [pass] runs the inner
    [for] loop from [foundNew = false].  [whileFoundNew] repeats it while a
    pass reports a new id; [None] means that the passes allowed by [fuel]
    were all productive. *)
Fixpoint whileFoundNew (fuel : nat) (pass : IdSet → IdSet * bool) (ids : IdSet)
    : option IdSet :=
  match fuel with
  | O => None
  | S fuel' =>
      let '(ids', foundNew) := pass ids in
      if foundNew then whileFoundNew fuel' pass ids' else Some ids'
  end.

Definition deleteScanStep (acc : IdSet * bool) (folder : Folder.t) : IdSet * bool :=
  let '(folderIdsToDelete, foundNew) := acc in
  match Folder.parentId folder with
  | Some parentId =>
      if containsKey folderIdsToDelete parentId
         && negb (containsKey folderIdsToDelete (Folder.id folder))
      then (<[Folder.id folder := tt]> folderIdsToDelete, true)
      else (folderIdsToDelete, foundNew)
  | None => (folderIdsToDelete, foundNew)
  end.

Definition deleteScanPass (folders : gmap nat Folder.t) (ids : IdSet) : IdSet * bool :=
  foldl deleteScanStep (ids, false) (values folders).

Definition inDeleteSet (folderIdsToDelete : IdSet) (f : FileMetadata.t) : bool :=
  match FileMetadata.folderId f with
  | Some fid => containsKey folderIdsToDelete fid
  | None => false
  end.

(** The [while] loop of [deleteFolder] ends after at most one pass per
    folder plus one (see [whileFoundNew_ends]); that many passes are
    allowed here. *)
Definition deleteFolder (caller : Principal) (id : FolderId) : M unit :=
  do* requireAuth caller in
  let* folders := getUserFolders caller in
  let* files := getUserFiles caller in
  do* when (negb (containsKey folders id)) (trap "Folder not found") in
  match whileFoundNew (S (length (values folders))) (deleteScanPass folders) {[ id := tt ]} with
  | None => trap "while loop still running"
  | Some folderIdsToDelete =>
      let fileIdsToDelete :=
        map FileMetadata.id (filter (λ f, inDeleteSet folderIdsToDelete f = true) (values files)) in
      do* forEach fileIdsToDelete (λ fileId, filesRemove caller fileId) in
      forEach (keys folderIdsToDelete) (λ folderId, foldersRemove caller folderId)
  end.

Definition getAllFolders (caller : Principal) : M (list Folder.t) :=
  do* requireAuth caller in
  let* folders := getUserFolders caller in
  ret (values folders).

(** ** File operations *)

Definition uploadFile (caller : Principal) (name description : Text) (tagIds : list TagId)
    (folderId : option FolderId) (size : Nat64) (fileType : Text) (blob : ExternalBlob)
    (now : Int) : M FileMetadata.t :=
  do* requireAuth caller in
  do* assertFolderExists caller folderId in
  do* assertTagsExist caller tagIds in
  do* when (String.eqb name "") (trap "File name cannot be empty") in
  let* uniqueName := getUniqueFileName caller folderId name None in
  let* files := getUserFiles caller in
  let* fileId := genFileId caller in
  let metadata := FileMetadata.mk fileId uniqueName description tagIds folderId size
                                  now now fileType blob in
  do* filesAdd caller fileId metadata in
  ret metadata.

Definition updateFile (caller : Principal) (id : FileId) (name description : Text)
    (tagIds : list TagId) (now : Int) : M FileMetadata.t :=
  do* requireAuth caller in
  do* assertTagsExist caller tagIds in
  do* when (String.eqb name "") (trap "File name cannot be empty") in
  let* files := getUserFiles caller in
  match files !! id with
  | None => trap "File not found"
  | Some metadata =>
      let* uniqueName := getUniqueFileName caller (FileMetadata.folderId metadata) name (Some id) in
      let updated :=
        FileMetadata.mk (FileMetadata.id metadata) uniqueName description tagIds
          (FileMetadata.folderId metadata) (FileMetadata.size metadata)
          (FileMetadata.uploadDate metadata) now
          (FileMetadata.fileType metadata) (FileMetadata.blob metadata) in
      do* filesRemove caller id in
      do* filesAdd caller id updated in
      ret updated
  end.

Definition moveFile (caller : Principal) (id : FileId) (newFolderId : option FolderId)
    (now : Int) : M FileMetadata.t :=
  do* requireAuth caller in
  do* assertFolderExists caller newFolderId in
  let* files := getUserFiles caller in
  match files !! id with
  | None => trap "File not found"
  | Some metadata =>
      let* uniqueName := getUniqueFileName caller newFolderId (FileMetadata.name metadata) (Some id) in
      let updated :=
        FileMetadata.mk (FileMetadata.id metadata) uniqueName
          (FileMetadata.description metadata) (FileMetadata.tagIds metadata)
          newFolderId (FileMetadata.size metadata)
          (FileMetadata.uploadDate metadata) now
          (FileMetadata.fileType metadata) (FileMetadata.blob metadata) in
      do* filesRemove caller id in
      do* filesAdd caller id updated in
      ret updated
  end.

Definition deleteFile (caller : Principal) (id : FileId) : M unit :=
  do* requireAuth caller in
  let* files := getUserFiles caller in
  do* when (negb (containsKey files id)) (trap "File not found") in
  filesRemove caller id.

Definition getAllFiles (caller : Principal) : M (list FileMetadata.t) :=
  do* requireAuth caller in
  let* files := getUserFiles caller in
  ret (values files).

(** ** Search and tags *)

Definition matchesSearch (tags : gmap nat Tag.t) (searchTerm : Text) (hasSearch : bool)
    (f : FileMetadata.t) : bool :=
  if negb hasSearch then true
  else
    textContainsIgnoreCase (FileMetadata.name f) searchTerm
    || textContainsIgnoreCase (FileMetadata.description f) searchTerm
    || existsb (λ tagId,
                  match tags !! tagId with
                  | None => false
                  | Some tag => textContainsIgnoreCase (Tag.name tag) searchTerm
                  end)
               (FileMetadata.tagIds f).

Definition matchesTags (filterTagIds : list TagId) (hasTags : bool)
    (f : FileMetadata.t) : bool :=
  if negb hasTags then true
  else
    existsb (λ filterTagId,
               existsb (λ fileTagId, bool_decide (fileTagId = filterTagId))
                       (FileMetadata.tagIds f))
            filterTagIds.

Definition searchFilesWithTags (caller : Principal) (searchTerm : Text)
    (filterTagIds : list TagId) : M (list FileMetadata.t) :=
  do* requireAuth caller in
  let* files := getUserFiles caller in
  let* tags := getUserTags caller in
  let hasSearch := negb (String.eqb searchTerm "") in
  let hasTags := (0 <? length filterTagIds)%nat in
  if negb hasSearch && negb hasTags then ret (values files)
  else
    ret (List.filter
           (λ f, matchesSearch tags searchTerm hasSearch f
                 && matchesTags filterTagIds hasTags f)
           (values files)).

Definition getAllTags (caller : Principal) : M (list Tag.t) :=
  do* requireAuth caller in
  let* tags := getUserTags caller in
  ret (values tags).

Definition getTag (caller : Principal) (id : TagId) : M Tag.t :=
  do* requireAuth caller in
  let* tags := getUserTags caller in
  match tags !! id with
  | None => trap "Tag not found"
  | Some tag => ret tag
  end.

Definition createTag (caller : Principal) (name color : Text) : M Tag.t :=
  do* requireAuth caller in
  do* when (String.eqb name "") (trap "Tag name cannot be empty") in
  let* tags := getUserTags caller in
  let* tagId := genTagId caller in
  let tag := Tag.mk tagId name color in
  do* tagsAdd caller tagId tag in
  ret tag.

Definition updateTag (caller : Principal) (id : TagId) (name color : Text) : M Tag.t :=
  do* requireAuth caller in
  do* when (String.eqb name "") (trap "Tag name cannot be empty") in
  let* tags := getUserTags caller in
  match tags !! id with
  | None => trap "Tag not found"
  | Some _ =>
      let updated := Tag.mk id name color in
      do* tagsRemove caller id in
      do* tagsAdd caller id updated in
      ret updated
  end.

Definition hasTagId (id : TagId) (file : FileMetadata.t) : bool :=
  existsb (λ tid, bool_decide (tid = id)) (FileMetadata.tagIds file).

Definition withoutTag (id : TagId) (file : FileMetadata.t) : FileMetadata.t :=
  let newTagIds := List.filter (λ tid, negb (bool_decide (tid = id))) (FileMetadata.tagIds file) in
  FileMetadata.mk (FileMetadata.id file) (FileMetadata.name file)
    (FileMetadata.description file) newTagIds (FileMetadata.folderId file)
    (FileMetadata.size file) (FileMetadata.uploadDate file)
    (FileMetadata.modifiedDate file) (FileMetadata.fileType file)
    (FileMetadata.blob file).

(** The [for] loop of [deleteTag] runs over the files present when the
    loop starts; its body replaces the entry of the file it visits. *)
Definition deleteTag (caller : Principal) (id : TagId) : M unit :=
  do* requireAuth caller in
  let* tags := getUserTags caller in
  let* files := getUserFiles caller in
  do* when (negb (containsKey tags id)) (trap "Tag not found") in
  do* forEach (values files) (λ file,
        if hasTagId id file then
          let updated := withoutTag id file in
          do* filesRemove caller (FileMetadata.id file) in
          filesAdd caller (FileMetadata.id file) updated
        else ret tt) in
  tagsRemove caller id.

(** ** Bulk operations *)

Definition collectScanStep (includeRoot : bool) (acc : IdSet * bool) (folder : Folder.t)
    : IdSet * bool :=
  let '(folderIdSet, foundNew) := acc in
  match Folder.parentId folder with
  | Some parentId =>
      if containsKey folderIdSet parentId
         && negb (containsKey folderIdSet (Folder.id folder))
      then (<[Folder.id folder := tt]> folderIdSet, true)
      else (folderIdSet, foundNew)
  | None =>
      if includeRoot && negb (containsKey folderIdSet (Folder.id folder))
      then (<[Folder.id folder := tt]> folderIdSet, true)
      else (folderIdSet, foundNew)
  end.

Definition collectScanPass (includeRoot : bool) (folders : gmap nat Folder.t)
    (ids : IdSet) : IdSet * bool :=
  foldl (collectScanStep includeRoot) (ids, false) (values folders).

Definition inFolderSet (includeRoot : bool) (folderIdSet : IdSet) (f : FileMetadata.t) : bool :=
  match FileMetadata.folderId f with
  | None => includeRoot
  | Some id => containsKey folderIdSet id
  end.

Definition getAllFilesInFolder (caller : Principal) (folderId : option FolderId)
    : M (list FileMetadata.t) :=
  do* requireAuth caller in
  let* folders := getUserFolders caller in
  let* files := getUserFiles caller in
  let '(folderIdSet0, includeRoot) :=
    match folderId with
    | None => ((∅ : IdSet), true)
    | Some id => ({[ id := tt ]}, false)
    end in
  match whileFoundNew (S (length (values folders))) (collectScanPass includeRoot folders)
                      folderIdSet0 with
  | None => trap "while loop still running"
  | Some folderIdSet =>
      ret (List.filter (inFolderSet includeRoot folderIdSet) (values files))
  end.

(** ** Calls and reachable states *)

Inductive Call :=
| CreateFolder (name : Text) (parentId : option FolderId)
| RenameFolder (id : FolderId) (newName : Text)
| MoveFolder (id : FolderId) (newParentId : option FolderId)
| DeleteFolder (id : FolderId)
| UploadFile (name description : Text) (tagIds : list TagId) (folderId : option FolderId)
             (size : Nat64) (fileType : Text) (blob : ExternalBlob)
| UpdateFile (id : FileId) (name description : Text) (tagIds : list TagId)
| MoveFile (id : FileId) (newFolderId : option FolderId)
| DeleteFile (id : FileId)
| CreateTag (name color : Text)
| UpdateTag (id : TagId) (name color : Text)
| DeleteTag (id : TagId).

Definition discard {A} (m : M A) : M unit := let* _ := m in ret tt.

(** An update call of [caller] at time [now]. *)
Definition exec (caller : Principal) (now : Int) (c : Call) : M unit :=
  match c with
  | CreateFolder name parentId => discard (createFolder caller name parentId now)
  | RenameFolder id newName => discard (renameFolder caller id newName now)
  | MoveFolder id newParentId => discard (moveFolder caller id newParentId now)
  | DeleteFolder id => deleteFolder caller id
  | UploadFile name description tagIds folderId size fileType blob =>
      discard (uploadFile caller name description tagIds folderId size fileType blob now)
  | UpdateFile id name description tagIds =>
      discard (updateFile caller id name description tagIds now)
  | MoveFile id newFolderId => discard (moveFile caller id newFolderId now)
  | DeleteFile id => deleteFile caller id
  | CreateTag name color => discard (createTag caller name color)
  | UpdateTag id name color => discard (updateTag caller id name color)
  | DeleteTag id => deleteTag caller id
  end.

(** States the actor can be in: the initial state and, from a reachable
    state, the state left by any update call, whether it returned or
    trapped. *)
Inductive reachable : State → Prop :=
| reachable_init : reachable initState
| reachable_step s caller now c :
    reachable s → reachable (exec caller now c s).2.

(** Running a list of calls of one caller, ignoring results. *)
Definition runCalls (caller : Principal) (now : Int) (cs : list Call) (s : State) : State :=
  foldl (λ s c, (exec caller now c s).2) s cs.

(** ** Notions used in the statements *)

(** What one principal sees of the state. *)
Record View := mkView {
  vFiles : gmap nat FileMetadata.t;
  vFolders : gmap nat Folder.t;
  vTags : gmap nat Tag.t;
  vNextFileId : nat;
  vNextFolderId : nat;
  vNextTagId : nat
}.

Definition view (s : State) (u : Principal) : View :=
  mkView (files_of s u) (folders_of s u) (tags_of s u)
         (nextFileId_of s u) (nextFolderId_of s u) (nextTagId_of s u).

(** Two states agree, for every principal, on the three collections and
    the three counters. *)
Definition sameViews (s s' : State) : Prop := ∀ u, view s' u = view s u.

(** Running calls of one caller as long as each of them returns. *)
Fixpoint commitCalls (caller : Principal) (now : Int) (cs : list Call) (s : State)
    : option State :=
  match cs with
  | [] => Some s
  | c :: r =>
      match exec caller now c s with
      | (Ok _, s') => commitCalls caller now r s'
      | (Trap _, _) => None
      end
  end.

(** A computation that leaves every collection and counter as it found
    them, whatever its outcome. *)
Definition pureM {A} (m : M A) : Prop := ∀ s, sameViews s (m s).2.

(** A computation that cannot trap. *)
Definition neverTraps {A} (m : M A) : Prop := ∀ s msg, (m s).1 ≠ Trap msg.

(** A computation that, when it traps, has changed no collection and no
    counter. *)
Definition trapSafe {A} (m : M A) : Prop :=
  ∀ s msg, (m s).1 = Trap msg → sameViews s (m s).2.

(** Name uniqueness within a container: two distinct live folders with the
    same [parentId], respectively two distinct live files with the same
    [folderId], never have names that are equal up to case. *)
Definition uniqueFolderNames (folders : gmap nat Folder.t) : Prop :=
  ∀ i j f g, folders !! i = Some f → folders !! j = Some g → i ≠ j →
    Folder.parentId f = Folder.parentId g →
    namesEqual (Folder.name f) (Folder.name g) = false.

Definition uniqueFileNames (files : gmap nat FileMetadata.t) : Prop :=
  ∀ i j f g, files !! i = Some f → files !! j = Some g → i ≠ j →
    FileMetadata.folderId f = FileMetadata.folderId g →
    namesEqual (FileMetadata.name f) (FileMetadata.name g) = false.

(** [chainLength folders cur n]: following [parentId] from [cur] visits
    exactly [n] folders and then reaches the root ([None]). *)
Inductive chainLength (folders : gmap nat Folder.t) : option FolderId → nat → Prop :=
| chain_root : chainLength folders None 0
| chain_step id f n :
    folders !! id = Some f →
    chainLength folders (Folder.parentId f) n →
    chainLength folders (Some id) (S n).

(** The same walk as a function, giving up after [budget] steps. *)
Fixpoint chainLength_from (budget : nat) (folders : gmap nat Folder.t)
    (cur : option FolderId) : option nat :=
  match budget with
  | O => None
  | S budget' =>
      match cur with
      | None => Some 0
      | Some id =>
          match folders !! id with
          | None => None
          | Some f => S <$> chainLength_from budget' folders (Folder.parentId f)
          end
      end
  end.

(** The depth limit as an invariant: no ancestor chain, counted from a
    folder up to its root-level ancestor, is longer than [maxFolderDepth]. *)
Definition depthBounded (folders : gmap nat Folder.t) : Prop :=
  ∀ id n, chainLength folders (Some id) n → n ≤ maxFolderDepth.

(** [ancestorOf folders a d]: folder [a] is a proper ancestor of the live
    folder [d] (equivalently, [d] is a descendant of [a]). *)
Inductive ancestorOf (folders : gmap nat Folder.t) (a : FolderId) : FolderId → Prop :=
| ancestor_parent d f :
    folders !! d = Some f → Folder.parentId f = Some a → ancestorOf folders a d
| ancestor_step d f p :
    folders !! d = Some f → Folder.parentId f = Some p →
    ancestorOf folders a p → ancestorOf folders a d.

(** [n] calls creating a folder named "d" inside the folder created by the
    previous one, the first at the root; [k] is the id of the last folder
    created so far (ids start at 1). *)
Fixpoint nestedCreates (n k : nat) : list Call :=
  match n with
  | O => []
  | S n' =>
      CreateFolder "d" (match k with O => None | _ => Some k end) :: nestedCreates n' (S k)
  end.

(** Comparison ignoring case, in the words of the specification and
    without [Text.toLower]: two characters are the same letter when they
    are equal or when one is a capital letter and the other its small
    letter; two texts are equal ignoring case when they have the same
    length and the same letter at every position. *)
Definition isCapital (c : Char) : bool :=
  let n := nat_of_ascii c in
  (65 <=? n) && (n <=? 90) || (192 <=? n) && (n <=? 214) || (216 <=? n) && (n <=? 222).

Definition smallOf (capital small : Char) : bool :=
  isCapital capital && (nat_of_ascii small =? nat_of_ascii capital + 32).

Definition sameLetter (c d : Char) : bool :=
  Ascii.eqb c d || smallOf c d || smallOf d c.

Fixpoint equalIgnoringCase (a b : Text) : bool :=
  match a, b with
  | EmptyString, EmptyString => true
  | String c a', String d b' => sameLetter c d && equalIgnoringCase a' b'
  | _, _ => false
  end.

(** The search criterion in the words of the specification: some
    contiguous block of [text] equals [term] ignoring case. *)
Definition substringIgnoringCase (term text : Text) : Prop :=
  ∃ pre mid post, text = pre ++ mid ++ post ∧ equalIgnoringCase mid term = true.

Definition searchCriterion (tags : gmap nat Tag.t) (term : Text) (tagFilterIds : list TagId)
    (f : FileMetadata.t) : Prop :=
  (term = ""
   ∨ substringIgnoringCase term (FileMetadata.name f)
   ∨ substringIgnoringCase term (FileMetadata.description f)
   ∨ ∃ tagId tag, tagId ∈ FileMetadata.tagIds f ∧ tags !! tagId = Some tag
                  ∧ substringIgnoringCase term (Tag.name tag))
  ∧ (tagFilterIds = []
     ∨ ∃ tagId, tagId ∈ tagFilterIds ∧ tagId ∈ FileMetadata.tagIds f).

(** A small tenant used to instantiate the theorems: two tags, folders
    "docs" (1), "docs/sub" (2) and "other" (3), and three files. *)
Definition demoCalls : list Call :=
  [CreateTag "reports" "red"; CreateTag "misc" "blue";
   CreateFolder "docs" None; CreateFolder "sub" (Some 1); CreateFolder "other" None;
   UploadFile "Quarterly Report.pdf" "q3" [] (Some 1) 10%N "application/pdf" [];
   UploadFile "notes.txt" "" [1] (Some 2) 5%N "text/plain" [];
   UploadFile "root.txt" "" [1; 2] None 1%N "text/plain" []].

Definition demoState : State := runCalls (User 1) 0%Z demoCalls initState.

(** A chain of 100 nested folders (ids 1 to 100, folder 100 the deepest)
    and one more root folder "g" (id 101). *)
Definition deepChainState : State :=
  runCalls (User 1) 0%Z (nestedCreates 100 0 ++ [CreateFolder "g" None])%list initState.

(** The ids collected by the two [while (foundNew)] loops, described
    without the loop: the seed ids, the root-level folders when
    [includeRoot] holds, and every live folder whose parent is collected. *)
Inductive inClosure (folders : gmap nat Folder.t) (includeRoot : bool) (seed : IdSet)
    : FolderId → Prop :=
| closure_seed x : x ∈ dom seed → inClosure folders includeRoot seed x
| closure_root x f :
    includeRoot = true → folders !! x = Some f → Folder.parentId f = None →
    inClosure folders includeRoot seed x
| closure_child x f p :
    folders !! x = Some f → Folder.parentId f = Some p →
    inClosure folders includeRoot seed p →
    inClosure folders includeRoot seed x.

(** A folder on which the body of the inner [for] loop adds an id. *)
Definition fires (includeRoot : bool) (ids : IdSet) (folder : Folder.t) : Prop :=
  (Folder.id folder ∉ dom ids)
  ∧ match Folder.parentId folder with
    | Some p => p ∈ dom ids
    | None => includeRoot = true
    end.

(** Folders not collected yet: the quantity that a productive pass makes
    smaller. *)
Definition uncollected (folders : gmap nat Folder.t) (ids : IdSet) : nat :=
  length (filter (λ f, Folder.id f ∉ dom ids) (values folders)).

(** Well-formed view of one principal: records are stored under their own
    id, ids are below the counter, every folder has an ancestor chain that
    ends at the root, and every file is at the root or in a live folder. *)
Record wfView (w : View) : Prop := mkWf {
  wf_folder_ids : ∀ k f, vFolders w !! k = Some f →
                         Folder.id f = k ∧ k < vNextFolderId w;
  wf_file_ids : ∀ k f, vFiles w !! k = Some f →
                       FileMetadata.id f = k ∧ k < vNextFileId w;
  wf_rooted : ∀ k f, vFolders w !! k = Some f →
                     ∃ n, chainLength (vFolders w) (Some k) n;
  wf_file_folder : ∀ k f d, vFiles w !! k = Some f → FileMetadata.folderId f = Some d →
                            is_Some (vFolders w !! d)
}.

(** Removing a list of keys, one [remove] after the other. *)
Definition removeAll {V} (ks : list nat) (m : gmap nat V) : gmap nat V :=
  foldl (λ acc k, delete k acc) m ks.

(** [x] is in the subtree of [F]: it is [F] or a descendant of [F]. *)
Definition inSubtree (folders : gmap nat Folder.t) (F x : FolderId) : Prop :=
  x = F ∨ ancestorOf folders F x.

(** A file located in the subtree of [F]. *)
Definition fileInSubtree (folders : gmap nat Folder.t) (F : FolderId)
    (file : FileMetadata.t) : Prop :=
  ∃ d, FileMetadata.folderId file = Some d ∧ inSubtree folders F d.

(** The effect on the file collection of one iteration of the [for] loop
    of [deleteTag]. *)
Definition deleteTagStep (id : TagId) (files : gmap nat FileMetadata.t)
    (file : FileMetadata.t) : gmap nat FileMetadata.t :=
  if hasTagId id file
  then <[FileMetadata.id file := withoutTag id file]> (delete (FileMetadata.id file) files)
  else files.

(** The digit loop of [parseNameSuffix] on the digits alone. *)
Fixpoint digitsFold (ds : list Char) (num : nat) : option nat :=
  match ds with
  | [] => Some num
  | c :: r =>
      if isDigit c then digitsFold r (num * 10 + (nat_of_ascii c - 48)) else None
  end.

(** The test made by both loops of [getUniqueFileName] on each file. *)
Definition isFileSibling (folderId : option FolderId) (excludeId : option FileId)
    (file : FileMetadata.t) : bool :=
  negb (shouldExclude excludeId (FileMetadata.id file))
  && optEq (FileMetadata.folderId file) folderId.

(** Two names collide when they are equal ignoring case. *)
Definition collides (a b : Text) : Prop := equalIgnoringCase a b = true.

(** [desiredName] collides with a sibling: a stored file located in
    [folderId], other than the file [excludeId] (the file being renamed or
    moved, if any), has a colliding name. *)
Definition fileCollision (files : gmap nat FileMetadata.t) (folderId : option FolderId)
    (excludeId : option FileId) (desiredName : Text) : Prop :=
  ∃ k file, files !! k = Some file
            ∧ FileMetadata.folderId file = folderId
            ∧ excludeId ≠ Some (FileMetadata.id file)
            ∧ collides (FileMetadata.name file) desiredName.

(** [n] is the suffix of a sibling (as above) whose name parses to the base
    [baseName] and the extension [ext], both up to case. *)
Definition siblingSuffix (files : gmap nat FileMetadata.t) (folderId : option FolderId)
    (excludeId : option FileId) (baseName ext : Text) (n : nat) : Prop :=
  ∃ k file, files !! k = Some file
            ∧ FileMetadata.folderId file = folderId
            ∧ excludeId ≠ Some (FileMetadata.id file)
            ∧ equalIgnoringCase (parseFileNameSuffix (FileMetadata.name file)).1.1 baseName = true
            ∧ equalIgnoringCase (parseFileNameSuffix (FileMetadata.name file)).1.2 ext = true
            ∧ (parseFileNameSuffix (FileMetadata.name file)).2 = n.

(** ** Folder contents and folder path *)

Module FolderContents.
Record t := mk { folders : list Folder.t; files : list FileMetadata.t }.
End FolderContents.

Definition getFolderContents (caller : Principal) (folderId : option FolderId)
    : M FolderContents.t :=
  do* requireAuth caller in
  let* folders := getUserFolders caller in
  let* files := getUserFiles caller in
  let subfolders := List.filter (λ f, optEq (Folder.parentId f) folderId) (values folders) in
  let folderFiles :=
    List.filter (λ f, optEq (FileMetadata.folderId f) folderId) (values files) in
  ret (FolderContents.mk subfolders folderFiles).

(** [buildFolderPath] fills [pathMap] in place, recursing with [index + 1]
    and trapping once [index >= maxFolderDepth]; [buildFolderPath_from] is
    that recursion on the remaining budget [maxFolderDepth - index] and
    returns the filled map (see [buildFolderPath_unfold]). *)
Fixpoint buildFolderPath_from (budget : nat) (folders : gmap nat Folder.t)
    (pathMap : gmap nat Folder.t) (currentId : option FolderId) (index : nat)
    : Res (gmap nat Folder.t) :=
  match budget with
  | O => Trap deepMsg
  | S budget' =>
      match currentId with
      | None => Ok pathMap
      | Some id =>
          match folders !! id with
          | None => Ok pathMap
          | Some folder =>
              buildFolderPath_from budget' folders (<[index := folder]> pathMap)
                                   (Folder.parentId folder) (index + 1)
          end
      end
  end.

Definition buildFolderPath (folders : gmap nat Folder.t) (pathMap : gmap nat Folder.t)
    (currentId : option FolderId) (index : nat) : Res (gmap nat Folder.t) :=
  buildFolderPath_from (maxFolderDepth - index) folders pathMap currentId index.

Definition getFolderPath (caller : Principal) (folderId : FolderId) : M (list Folder.t) :=
  do* requireAuth caller in
  let* folders := getUserFolders caller in
  let* pathMap := liftRes (buildFolderPath folders ∅ (Some folderId) 0) in
  ret (values pathMap).

(** [folderPath folders cur l]: [l] lists the folders met when following
    [parentId] from [cur] up to the root, the starting folder first. *)
Inductive folderPath (folders : gmap nat Folder.t)
    : option FolderId → list Folder.t → Prop :=
| folderPath_root : folderPath folders None []
| folderPath_step id f l :
    folders !! id = Some f →
    folderPath folders (Folder.parentId f) l →
    folderPath folders (Some id) (f :: l).

(** Tags of one principal are stored under their own id, below the
    counter, and every tag id carried by a file is a live tag. *)
Record wfTags (w : View) : Prop := mkWfTags {
  wf_tag_ids : ∀ k t, vTags w !! k = Some t → Tag.id t = k ∧ k < vNextTagId w;
  wf_file_tags : ∀ k f t, vFiles w !! k = Some f → t ∈ FileMetadata.tagIds f →
                          is_Some (vTags w !! t)
}.

(** A folder that is its own proper ancestor. *)
Definition hasCycle (folders : gmap nat Folder.t) : Prop :=
  ∃ x, ancestorOf folders x x.

(** A sibling folder taken into account by [getUniqueFolderName]. *)
Definition isFolderSibling (parentId : option FolderId) (excludeId : option FolderId)
    (folder : Folder.t) : bool :=
  negb (shouldExclude excludeId (Folder.id folder))
  && optEq (Folder.parentId folder) parentId.

(** The three id counters of a principal, as a triple. *)
Definition counters (s : State) (u : Principal) : nat * nat * nat :=
  (nextFileId_of s u, nextFolderId_of s u, nextTagId_of s u).

(** A computation under which no counter of any principal goes down. *)
Definition countersGrow {A} (m : M A) : Prop :=
  ∀ s u, nextFileId_of s u ≤ nextFileId_of (m s).2 u
         ∧ nextFolderId_of s u ≤ nextFolderId_of (m s).2 u
         ∧ nextTagId_of s u ≤ nextTagId_of (m s).2 u.

(** The query methods, as calls. *)
Inductive Query :=
| GetAllFolders
| GetFolderContents (folderId : option FolderId)
| GetFolderPath (folderId : FolderId)
| GetAllFiles
| SearchFilesWithTags (searchTerm : Text) (filterTagIds : list TagId)
| GetAllTags
| GetTag (id : TagId)
| GetAllFilesInFolder (folderId : option FolderId).

Definition query (caller : Principal) (q : Query) : M unit :=
  match q with
  | GetAllFolders => discard (getAllFolders caller)
  | GetFolderContents folderId => discard (getFolderContents caller folderId)
  | GetFolderPath folderId => discard (getFolderPath caller folderId)
  | GetAllFiles => discard (getAllFiles caller)
  | SearchFilesWithTags searchTerm filterTagIds =>
      discard (searchFilesWithTags caller searchTerm filterTagIds)
  | GetAllTags => discard (getAllTags caller)
  | GetTag id => discard (getTag caller id)
  | GetAllFilesInFolder folderId => discard (getAllFilesInFolder caller folderId)
  end.

(** Running update calls of any callers, one after the other, keeping the
    state each one leaves. *)
Definition runAll (cs : list (Principal * Int * Call)) (s : State) : State :=
  foldl (λ s '(caller, now, c), (exec caller now c s).2) s cs.

(** Three albums used to instantiate the statements on renaming: folder
    "album" (1) holding "photo.jpg" (1) and "scan.jpg"; the same with a
    second upload of "photo.jpg", stored as "photo (1).jpg" (2); and the
    first with "photo (5).jpg" (2) uploaded as well. *)
Definition photoAlbum : State :=
  runCalls (User 1) 0%Z
    [CreateFolder "album" None;
     UploadFile "photo.jpg" "" [] (Some 1) 0%N "image/jpeg" [];
     UploadFile "scan.jpg" "" [] (Some 1) 0%N "image/jpeg" []]
    initState.

Definition photoAlbumTwo : State :=
  runCalls (User 1) 0%Z
    [CreateFolder "album" None;
     UploadFile "photo.jpg" "" [] (Some 1) 0%N "image/jpeg" [];
     UploadFile "photo.jpg" "" [] (Some 1) 0%N "image/jpeg" [];
     UploadFile "scan.jpg" "" [] (Some 1) 0%N "image/jpeg" []]
    initState.

Definition photoAlbumFive : State :=
  runCalls (User 1) 0%Z
    [CreateFolder "album" None;
     UploadFile "photo.jpg" "" [] (Some 1) 0%N "image/jpeg" [];
     UploadFile "photo (5).jpg" "" [] (Some 1) 0%N "image/jpeg" [];
     UploadFile "scan.jpg" "" [] (Some 1) 0%N "image/jpeg" []]
    initState.


(** [desiredName] collides with a sibling folder: a stored folder with the
    parent [parentId], other than the folder [excludeId] (the folder being
    renamed or moved, if any), has a colliding name. *)
Definition folderCollision (folders : gmap nat Folder.t) (parentId : option FolderId)
    (excludeId : option FolderId) (desiredName : Text) : Prop :=
  ∃ k folder, folders !! k = Some folder
              ∧ Folder.parentId folder = parentId
              ∧ excludeId ≠ Some (Folder.id folder)
              ∧ collides (Folder.name folder) desiredName.

(** The folder name that a call asks [getUniqueFolderName] to resolve has
    a parsed base that is not empty: the name given to [createFolder] or
    [renameFolder], the current name of the folder for [moveFolder].  (The
    parsed base is empty for the names made of a space and a number in
    parentheses only.) *)
Definition requestsPlainName (folders : gmap nat Folder.t) (c : Call) : Prop :=
  match c with
  | CreateFolder name _ => (parseNameSuffix name).1 ≠ ""
  | RenameFolder _ newName => (parseNameSuffix newName).1 ≠ ""
  | MoveFolder id _ =>
      ∀ f, folders !! id = Some f → (parseNameSuffix (Folder.name f)).1 ≠ ""
  | _ => True
  end.


(** Every folder, file and tag of one principal has a name that is not
    the empty text. *)
Record namedView (w : View) : Prop := mkNamed {
  named_folders : ∀ k f, vFolders w !! k = Some f → Folder.name f ≠ "";
  named_files : ∀ k f, vFiles w !! k = Some f → FileMetadata.name f ≠ "";
  named_tags : ∀ k t, vTags w !! k = Some t → Tag.name t ≠ ""
}.


(** * Properties *)

(** ** Sanity checks of the text functions *)

Example parse_name_suffix : parseNameSuffix "name (2)" = ("name", 2).
Proof. reflexivity. Qed.

Example parse_file_suffix : parseFileNameSuffix "photo (1).jpg" = ("photo", "jpg", 1).
Proof. reflexivity. Qed.

Example parse_empty_base : parseNameSuffix " (00)" = ("", 0).
Proof. reflexivity. Qed.

Example parse_dot_first : parseFileNameSuffix ".gitignore" = (".gitignore", "", 0).
Proof. reflexivity. Qed.

Example parse_dot_in_base : parseFileNameSuffix "a.b (1)" = ("a", "b (1)", 0).
Proof. reflexivity. Qed.

Example lower_mixed : toLower "Quarterly Report.PDF" = "quarterly report.pdf".
Proof. reflexivity. Qed.

(** Accented capitals are lower-cased too (192 and 201 are A grave and
    E acute); the multiplication sign (215) is not a letter. *)
Example lower_accented :
  toLower (String (ascii_of_nat 192) (String (ascii_of_nat 201) (String (ascii_of_nat 215) "")))
  = String (ascii_of_nat 224) (String (ascii_of_nat 233) (String (ascii_of_nat 215) "")).
Proof. reflexivity. Qed.

Example names_equal_accented :
  namesEqual (String (ascii_of_nat 192) ".txt") (String (ascii_of_nat 224) ".txt") = true.
Proof. reflexivity. Qed.

Example nat_to_text : natToText 120 = "120".
Proof. reflexivity. Qed.

(** ** Ordered maps *)

Lemma elem_of_entries {V} (m : gmap nat V) k x :
  (k, x) ∈ entries m ↔ m !! k = Some x.
Proof.
  unfold entries. rewrite merge_sort_Permutation. apply elem_of_map_to_list.
Qed.

Lemma elem_of_values {V} (m : gmap nat V) x :
  x ∈ values m ↔ ∃ k, m !! k = Some x.
Proof.
  unfold values. rewrite list_elem_of_fmap. split.
  - intros [[k y] [-> Hin]]. exists k. by apply elem_of_entries.
  - intros [k Hk]. exists (k, x). split; [done|]. by apply elem_of_entries.
Qed.

Lemma elem_of_keys {V} (m : gmap nat V) k :
  k ∈ keys m ↔ is_Some (m !! k).
Proof.
  unfold keys. rewrite list_elem_of_fmap. split.
  - intros [[k' y] [-> Hin]]. exists y. by apply elem_of_entries.
  - intros [x Hx]. exists (k, x). split; [done|]. by apply elem_of_entries.
Qed.

Lemma keys_sorted {V} (m : gmap nat V) : Sorted le (keys m).
Proof.
  unfold keys, entries.
  assert (Sorted keyLe (merge_sort keyLe (map_to_list m))) as Hs.
  { apply Sorted_merge_sort. intros a b. unfold keyLe. lia. }
  induction Hs as [|a l Hs IH Hhd]; [constructor|].
  rewrite fmap_cons. constructor; [done|].
  destruct Hhd as [|b l Hab]; constructor. exact Hab.
Qed.

Lemma values_empty {V} : values (∅ : gmap nat V) = [].
Proof. reflexivity. Qed.

Lemma containsKey_true {V} (m : gmap nat V) k :
  containsKey m k = true ↔ is_Some (m !! k).
Proof. unfold containsKey. apply bool_decide_eq_true. Qed.

Lemma containsKey_false {V} (m : gmap nat V) k :
  containsKey m k = false ↔ m !! k = None.
Proof.
  unfold containsKey. rewrite bool_decide_eq_false, eq_None_not_Some. done.
Qed.

(** ** Views of the state *)

Ltac view_unfold :=
  unfold files_of, folders_of, tags_of, nextFileId_of, nextFolderId_of, nextTagId_of,
    setFiles, setFolders, setTags, setNextFileId, setNextFolderId, setNextTagId; simpl.

Ltac view_same := intros; view_unfold; by rewrite lookup_insert_eq.
Ltac view_other := intros; view_unfold; by rewrite lookup_insert_ne.
Ltac view_frame := intros; view_unfold; done.

Lemma files_of_setFiles u m s : files_of (setFiles u m s) u = m.
Proof. view_same. Qed.
Lemma files_of_setFiles_ne u v m s : u ≠ v → files_of (setFiles u m s) v = files_of s v.
Proof. view_other. Qed.
Lemma folders_of_setFolders u m s : folders_of (setFolders u m s) u = m.
Proof. view_same. Qed.
Lemma folders_of_setFolders_ne u v m s :
  u ≠ v → folders_of (setFolders u m s) v = folders_of s v.
Proof. view_other. Qed.
Lemma tags_of_setTags u m s : tags_of (setTags u m s) u = m.
Proof. view_same. Qed.
Lemma tags_of_setTags_ne u v m s : u ≠ v → tags_of (setTags u m s) v = tags_of s v.
Proof. view_other. Qed.
Lemma nextFileId_of_set u n s : nextFileId_of (setNextFileId u n s) u = n.
Proof. view_same. Qed.
Lemma nextFileId_of_set_ne u v n s :
  u ≠ v → nextFileId_of (setNextFileId u n s) v = nextFileId_of s v.
Proof. view_other. Qed.
Lemma nextFolderId_of_set u n s : nextFolderId_of (setNextFolderId u n s) u = n.
Proof. view_same. Qed.
Lemma nextFolderId_of_set_ne u v n s :
  u ≠ v → nextFolderId_of (setNextFolderId u n s) v = nextFolderId_of s v.
Proof. view_other. Qed.
Lemma nextTagId_of_set u n s : nextTagId_of (setNextTagId u n s) u = n.
Proof. view_same. Qed.
Lemma nextTagId_of_set_ne u v n s :
  u ≠ v → nextTagId_of (setNextTagId u n s) v = nextTagId_of s v.
Proof. view_other. Qed.

Lemma files_of_setFolders u v m s : files_of (setFolders u m s) v = files_of s v.
Proof. view_frame. Qed.
Lemma files_of_setTags u v m s : files_of (setTags u m s) v = files_of s v.
Proof. view_frame. Qed.
Lemma files_of_setNextFileId u v n s : files_of (setNextFileId u n s) v = files_of s v.
Proof. view_frame. Qed.
Lemma files_of_setNextFolderId u v n s : files_of (setNextFolderId u n s) v = files_of s v.
Proof. view_frame. Qed.
Lemma files_of_setNextTagId u v n s : files_of (setNextTagId u n s) v = files_of s v.
Proof. view_frame. Qed.
Lemma folders_of_setFiles u v m s : folders_of (setFiles u m s) v = folders_of s v.
Proof. view_frame. Qed.
Lemma folders_of_setTags u v m s : folders_of (setTags u m s) v = folders_of s v.
Proof. view_frame. Qed.
Lemma folders_of_setNextFileId u v n s : folders_of (setNextFileId u n s) v = folders_of s v.
Proof. view_frame. Qed.
Lemma folders_of_setNextFolderId u v n s : folders_of (setNextFolderId u n s) v = folders_of s v.
Proof. view_frame. Qed.
Lemma folders_of_setNextTagId u v n s : folders_of (setNextTagId u n s) v = folders_of s v.
Proof. view_frame. Qed.
Lemma tags_of_setFiles u v m s : tags_of (setFiles u m s) v = tags_of s v.
Proof. view_frame. Qed.
Lemma tags_of_setFolders u v m s : tags_of (setFolders u m s) v = tags_of s v.
Proof. view_frame. Qed.
Lemma tags_of_setNextFileId u v n s : tags_of (setNextFileId u n s) v = tags_of s v.
Proof. view_frame. Qed.
Lemma tags_of_setNextFolderId u v n s : tags_of (setNextFolderId u n s) v = tags_of s v.
Proof. view_frame. Qed.
Lemma tags_of_setNextTagId u v n s : tags_of (setNextTagId u n s) v = tags_of s v.
Proof. view_frame. Qed.
Lemma nextFileId_of_setFiles u v m s : nextFileId_of (setFiles u m s) v = nextFileId_of s v.
Proof. view_frame. Qed.
Lemma nextFileId_of_setFolders u v m s : nextFileId_of (setFolders u m s) v = nextFileId_of s v.
Proof. view_frame. Qed.
Lemma nextFileId_of_setTags u v m s : nextFileId_of (setTags u m s) v = nextFileId_of s v.
Proof. view_frame. Qed.
Lemma nextFileId_of_setNextFolderId u v n s : nextFileId_of (setNextFolderId u n s) v = nextFileId_of s v.
Proof. view_frame. Qed.
Lemma nextFileId_of_setNextTagId u v n s : nextFileId_of (setNextTagId u n s) v = nextFileId_of s v.
Proof. view_frame. Qed.
Lemma nextFolderId_of_setFiles u v m s : nextFolderId_of (setFiles u m s) v = nextFolderId_of s v.
Proof. view_frame. Qed.
Lemma nextFolderId_of_setFolders u v m s : nextFolderId_of (setFolders u m s) v = nextFolderId_of s v.
Proof. view_frame. Qed.
Lemma nextFolderId_of_setTags u v m s : nextFolderId_of (setTags u m s) v = nextFolderId_of s v.
Proof. view_frame. Qed.
Lemma nextFolderId_of_setNextFileId u v n s : nextFolderId_of (setNextFileId u n s) v = nextFolderId_of s v.
Proof. view_frame. Qed.
Lemma nextFolderId_of_setNextTagId u v n s : nextFolderId_of (setNextTagId u n s) v = nextFolderId_of s v.
Proof. view_frame. Qed.
Lemma nextTagId_of_setFiles u v m s : nextTagId_of (setFiles u m s) v = nextTagId_of s v.
Proof. view_frame. Qed.
Lemma nextTagId_of_setFolders u v m s : nextTagId_of (setFolders u m s) v = nextTagId_of s v.
Proof. view_frame. Qed.
Lemma nextTagId_of_setTags u v m s : nextTagId_of (setTags u m s) v = nextTagId_of s v.
Proof. view_frame. Qed.
Lemma nextTagId_of_setNextFileId u v n s : nextTagId_of (setNextFileId u n s) v = nextTagId_of s v.
Proof. view_frame. Qed.
Lemma nextTagId_of_setNextFolderId u v n s : nextTagId_of (setNextFolderId u n s) v = nextTagId_of s v.
Proof. view_frame. Qed.

Create Rewrite HintDb views.
#[global] Hint Rewrite files_of_setFiles folders_of_setFolders tags_of_setTags
  nextFileId_of_set nextFolderId_of_set nextTagId_of_set : views.
#[global] Hint Rewrite files_of_setFiles_ne folders_of_setFolders_ne tags_of_setTags_ne
  nextFileId_of_set_ne nextFolderId_of_set_ne nextTagId_of_set_ne using done : views.
#[global] Hint Rewrite files_of_setFolders files_of_setTags files_of_setNextFileId files_of_setNextFolderId files_of_setNextTagId folders_of_setFiles folders_of_setTags folders_of_setNextFileId folders_of_setNextFolderId folders_of_setNextTagId tags_of_setFiles tags_of_setFolders tags_of_setNextFileId tags_of_setNextFolderId tags_of_setNextTagId nextFileId_of_setFiles nextFileId_of_setFolders nextFileId_of_setTags nextFileId_of_setNextFolderId nextFileId_of_setNextTagId nextFolderId_of_setFiles nextFolderId_of_setFolders nextFolderId_of_setTags nextFolderId_of_setNextFileId nextFolderId_of_setNextTagId nextTagId_of_setFiles nextTagId_of_setFolders nextTagId_of_setTags nextTagId_of_setNextFileId nextTagId_of_setNextFolderId : views.

(** ** Validation before any write *)

Lemma sameViews_refl s : sameViews s s.
Proof. intros u. done. Qed.

Lemma sameViews_trans s1 s2 s3 : sameViews s1 s2 → sameViews s2 s3 → sameViews s1 s3.
Proof. intros H1 H2 u. by rewrite H2, H1. Qed.

Lemma run_getUserFolders u s :
  getUserFolders u s = (Ok (folders_of s u), setFolders u (folders_of s u) s).
Proof.
  unfold getUserFolders, folders_of. destruct (userFolders s !! u) as [m|] eqn:E; simpl; [|done].
  f_equal. destruct s; unfold setFolders; simpl in *. f_equal. by rewrite insert_id.
Qed.

Lemma run_getUserFiles u s :
  getUserFiles u s = (Ok (files_of s u), setFiles u (files_of s u) s).
Proof.
  unfold getUserFiles, files_of. destruct (userFiles s !! u) as [m|] eqn:E; simpl; [|done].
  f_equal. destruct s; unfold setFiles; simpl in *. f_equal. by rewrite insert_id.
Qed.

Lemma run_getUserTags u s :
  getUserTags u s = (Ok (tags_of s u), setTags u (tags_of s u) s).
Proof.
  unfold getUserTags, tags_of. destruct (userTags s !! u) as [m|] eqn:E; simpl; [|done].
  f_equal. destruct s; unfold setTags; simpl in *. f_equal. by rewrite insert_id.
Qed.

Lemma run_genFolderId u s :
  genFolderId u s = (Ok (nextFolderId_of s u), setNextFolderId u (nextFolderId_of s u + 1) s).
Proof. unfold genFolderId, nextFolderId_of. by destruct (userNextFolderId s !! u). Qed.

Lemma run_genFileId u s :
  genFileId u s = (Ok (nextFileId_of s u), setNextFileId u (nextFileId_of s u + 1) s).
Proof. unfold genFileId, nextFileId_of. by destruct (userNextFileId s !! u). Qed.

Lemma run_genTagId u s :
  genTagId u s = (Ok (nextTagId_of s u), setNextTagId u (nextTagId_of s u + 1) s).
Proof. unfold genTagId, nextTagId_of. by destruct (userNextTagId s !! u). Qed.

Ltac same_views_touch :=
  let v := fresh "v" in
  intros v;
  match goal with
  | |- context [setFolders ?u _ _] => destruct (decide (u = v)) as [<-|]
  | |- context [setFiles ?u _ _] => destruct (decide (u = v)) as [<-|]
  | |- context [setTags ?u _ _] => destruct (decide (u = v)) as [<-|]
  end; unfold view; autorewrite with views; done.

Lemma sameViews_touchFolders u s : sameViews s (setFolders u (folders_of s u) s).
Proof. same_views_touch. Qed.
Lemma sameViews_touchFiles u s : sameViews s (setFiles u (files_of s u) s).
Proof. same_views_touch. Qed.
Lemma sameViews_touchTags u s : sameViews s (setTags u (tags_of s u) s).
Proof. same_views_touch. Qed.

Lemma pureM_ret {A} (a : A) : pureM (ret a).
Proof. intros s. apply sameViews_refl. Qed.

Lemma pureM_trap {A} msg : pureM (@trap A msg).
Proof. intros s. apply sameViews_refl. Qed.

Lemma pureM_liftRes {A} (r : Res A) : pureM (liftRes r).
Proof. intros s. apply sameViews_refl. Qed.

Lemma pureM_bind {A B} (m : M A) (k : A → M B) :
  pureM m → (∀ a, pureM (k a)) → pureM (bind m k).
Proof.
  intros Hm Hk s. unfold bind. specialize (Hm s).
  destruct (m s) as [[a|msg] s1]; simpl in *; [|done].
  eapply sameViews_trans; [done|]. apply Hk.
Qed.

Lemma pureM_getUserFolders u : pureM (getUserFolders u).
Proof. intros s. rewrite run_getUserFolders. apply sameViews_touchFolders. Qed.
Lemma pureM_getUserFiles u : pureM (getUserFiles u).
Proof. intros s. rewrite run_getUserFiles. apply sameViews_touchFiles. Qed.
Lemma pureM_getUserTags u : pureM (getUserTags u).
Proof. intros s. rewrite run_getUserTags. apply sameViews_touchTags. Qed.

Lemma pureM_requireAuth c : pureM (requireAuth c).
Proof. unfold requireAuth. destruct (isAnonymous c); [apply pureM_trap | apply pureM_ret]. Qed.

Lemma pureM_when b (m : M unit) : pureM m → pureM (when b m).
Proof. intros Hm. unfold when. destruct b; [done | apply pureM_ret]. Qed.

Create HintDb pure discriminated.
#[global] Hint Resolve pureM_ret pureM_trap pureM_liftRes pureM_getUserFolders
  pureM_getUserFiles pureM_getUserTags pureM_requireAuth pureM_when : pure.

Ltac pure_step :=
  first [ solve [eauto with pure]
        | match goal with |- pureM (bind _ _) => apply pureM_bind; [|intros ?] end
        | match goal with |- pureM (if ?b then _ else _) => destruct b end
        | match goal with |- pureM (match ?x with _ => _ end) => destruct x end ].

Lemma pureM_assertFolderExists u folderId : pureM (assertFolderExists u folderId).
Proof. unfold assertFolderExists, folderExists. repeat pure_step. Qed.

Lemma pureM_assertTagsExist u tagIds : pureM (assertTagsExist u tagIds).
Proof.
  unfold assertTagsExist. apply pureM_bind; [eauto with pure|]. intros m.
  induction tagIds as [|t r IH]; simpl; repeat pure_step.
Qed.

Lemma pureM_getUniqueFolderName u parentId desiredName excludeId :
  pureM (getUniqueFolderName u parentId desiredName excludeId).
Proof. unfold getUniqueFolderName. repeat pure_step. Qed.

Lemma pureM_getUniqueFileName u folderId desiredName excludeId :
  pureM (getUniqueFileName u folderId desiredName excludeId).
Proof. unfold getUniqueFileName. repeat pure_step. Qed.

Lemma pureM_isAncestor u a d : pureM (isAncestor u a d).
Proof. unfold isAncestor. repeat pure_step. Qed.

#[global] Hint Resolve pureM_assertFolderExists pureM_assertTagsExist
  pureM_getUniqueFolderName pureM_getUniqueFileName pureM_isAncestor : pure.

Lemma trapSafe_pure {A} (m : M A) : pureM m → trapSafe m.
Proof. intros Hm s msg _. apply Hm. Qed.

Lemma trapSafe_neverTraps {A} (m : M A) : neverTraps m → trapSafe m.
Proof. intros Hm s msg Ht. by apply Hm in Ht. Qed.

Lemma trapSafe_bind {A B} (m : M A) (k : A → M B) :
  pureM m → (∀ a, trapSafe (k a)) → trapSafe (bind m k).
Proof.
  intros Hm Hk s msg. unfold bind. specialize (Hm s).
  destruct (m s) as [[a|msg'] s1]; simpl in *; [|done].
  intros Ht. eapply sameViews_trans; [done|]. by eapply Hk.
Qed.

Lemma neverTraps_ret {A} (a : A) : neverTraps (ret a).
Proof. intros s msg. done. Qed.

Lemma neverTraps_bind {A B} (m : M A) (k : A → M B) :
  neverTraps m → (∀ a, neverTraps (k a)) → neverTraps (bind m k).
Proof.
  intros Hm Hk s msg. unfold bind. specialize (Hm s).
  destruct (m s) as [[a|msg'] s1]; simpl in *; [apply Hk | by destruct (Hm msg')].
Qed.

Lemma neverTraps_forEach {A} (xs : list A) (body : A → M unit) :
  (∀ x, neverTraps (body x)) → neverTraps (forEach xs body).
Proof.
  intros Hb. induction xs as [|x r IH]; simpl; [apply neverTraps_ret|].
  apply neverTraps_bind; [apply Hb | done].
Qed.

Lemma neverTraps_writes u :
  (∀ k v, neverTraps (filesAdd u k v)) ∧ (∀ k, neverTraps (filesRemove u k))
  ∧ (∀ k v, neverTraps (foldersAdd u k v)) ∧ (∀ k, neverTraps (foldersRemove u k))
  ∧ (∀ k v, neverTraps (tagsAdd u k v)) ∧ (∀ k, neverTraps (tagsRemove u k))
  ∧ neverTraps (genFileId u) ∧ neverTraps (genFolderId u) ∧ neverTraps (genTagId u).
Proof. repeat split; intros; intros s msg; done. Qed.

Ltac never_step :=
  first [ apply neverTraps_ret
        | match goal with |- neverTraps (bind _ _) => apply neverTraps_bind; [|intros ?] end
        | apply neverTraps_forEach; intros ?
        | apply (neverTraps_writes _)
        | match goal with |- neverTraps (if ?b then _ else _) => destruct b end ].

Ltac safe_step :=
  first [ match goal with
          | |- trapSafe (bind _ _) => apply trapSafe_bind; [solve [repeat pure_step]|intros ?]
          end
        | match goal with |- trapSafe (match ?x with _ => _ end) => destruct x end
        | solve [apply trapSafe_pure; repeat pure_step]
        | solve [apply trapSafe_neverTraps; repeat never_step] ].

Lemma trapSafe_discard {A} (m : M A) : trapSafe m → trapSafe (discard m).
Proof.
  intros Hm s msg. unfold discard, bind. specialize (Hm s).
  destruct (m s) as [[a|msg'] s1]; simpl in *; [done|]. intros [= ->]. by eapply Hm.
Qed.

Lemma trapSafe_createFolder c name parentId now :
  trapSafe (createFolder c name parentId now).
Proof. unfold createFolder. repeat safe_step. Qed.

Lemma trapSafe_renameFolder c id newName now : trapSafe (renameFolder c id newName now).
Proof. unfold renameFolder. repeat safe_step. Qed.

Lemma trapSafe_moveFolder c id newParentId now : trapSafe (moveFolder c id newParentId now).
Proof. unfold moveFolder. repeat safe_step. Qed.

Lemma trapSafe_deleteFolder c id : trapSafe (deleteFolder c id).
Proof. unfold deleteFolder. repeat safe_step. Qed.

Lemma trapSafe_uploadFile c name description tagIds folderId size fileType blob now :
  trapSafe (uploadFile c name description tagIds folderId size fileType blob now).
Proof. unfold uploadFile. repeat safe_step. Qed.

Lemma trapSafe_updateFile c id name description tagIds now :
  trapSafe (updateFile c id name description tagIds now).
Proof. unfold updateFile. repeat safe_step. Qed.

Lemma trapSafe_moveFile c id newFolderId now : trapSafe (moveFile c id newFolderId now).
Proof. unfold moveFile. repeat safe_step. Qed.

Lemma trapSafe_deleteFile c id : trapSafe (deleteFile c id).
Proof. unfold deleteFile. repeat safe_step. Qed.

Lemma trapSafe_createTag c name color : trapSafe (createTag c name color).
Proof. unfold createTag. repeat safe_step. Qed.

Lemma trapSafe_updateTag c id name color : trapSafe (updateTag c id name color).
Proof. unfold updateTag. repeat safe_step. Qed.

Lemma trapSafe_deleteTag c id : trapSafe (deleteTag c id).
Proof. unfold deleteTag. repeat safe_step. Qed.

Lemma trapSafe_exec caller now c : trapSafe (exec caller now c).
Proof.
  destruct c; simpl;
    try apply trapSafe_discard;
    auto using trapSafe_createFolder, trapSafe_renameFolder, trapSafe_moveFolder,
      trapSafe_deleteFolder, trapSafe_uploadFile, trapSafe_updateFile, trapSafe_moveFile,
      trapSafe_deleteFile, trapSafe_createTag, trapSafe_updateTag, trapSafe_deleteTag.
Qed.

(** C6. An update call that traps leaves, for every principal, the folder,
    file and tag collections and the three id counters as they were before
    the call.  (The only thing a trapping call may have stored is an empty
    collection for a principal that had none, which [view] reads as the same
    empty collection.) *)
Theorem failed_mutation_writes_nothing caller now c s msg :
  (exec caller now c s).1 = Trap msg →
  sameViews s (exec caller now c s).2.
Proof. apply trapSafe_exec. Qed.

Lemma failed_mutation_writes_nothing_witness :
  (exec (User 1) 0%Z (MoveFolder 3 (Some 3)) initState).1 = Trap "Folder not found: 3"
  ∧ sameViews initState (exec (User 1) 0%Z (MoveFolder 3 (Some 3)) initState).2.
Proof.
  split; [reflexivity|].
  apply (failed_mutation_writes_nothing (User 1) 0%Z (MoveFolder 3 (Some 3)) initState
           "Folder not found: 3").
  reflexivity.
Defined.

(** ** Name resolution on concrete folders *)

Lemma chainLength_from_sound budget folders cur n :
  chainLength_from budget folders cur = Some n → chainLength folders cur n.
Proof.
  revert cur n. induction budget as [|b IH]; intros cur n; simpl; [done|].
  destruct cur as [id|]; [|intros [= <-]; constructor].
  destruct (folders !! id) as [f|] eqn:Hf; [|done].
  destruct (chainLength_from b folders (Folder.parentId f)) as [k|] eqn:Hk; [|done].
  intros [= <-]. econstructor; eauto.
Qed.

Lemma chainLength_functional folders cur n1 n2 :
  chainLength folders cur n1 → chainLength folders cur n2 → n1 = n2.
Proof.
  intros H1. revert n2. induction H1 as [|id f n Hf _ IH]; intros n2 H2.
  - by inversion H2.
  - inversion H2 as [|id' f' n' Hf' Hc]; subst. rewrite Hf in Hf'. injection Hf' as <-.
    f_equal. by apply IH.
Qed.

Lemma reachable_commitCalls caller now cs s s' :
  reachable s → commitCalls caller now cs s = Some s' → reachable s'.
Proof.
  revert s. induction cs as [|c r IH]; intros s Hs; simpl.
  - by intros [= <-].
  - destruct (exec caller now c s) as [[[]|msg] s1] eqn:E; [|done].
    apply IH. replace s1 with (exec caller now c s).2 by (by rewrite E).
    by constructor.
Qed.

(** Creating "Report" twice in the same folder gives "Report" and then
    "Report (1)". *)
Example create_report_twice :
  ∃ s, commitCalls (User 1) 0%Z [CreateFolder "Report" None; CreateFolder "Report" None]
         initState = Some s
       ∧ Folder.name <$> values (folders_of s (User 1)) = ["Report"; "Report (1)"]
       ∧ uniqueFolderNames (folders_of s (User 1)).
Proof.
  eexists. split; [vm_compute; reflexivity|]. split; [vm_compute; reflexivity|].
  intros i j f g Hi Hj Hne Hp.
  assert (Hk : ∀ k h, folders_of
     (mkState ∅ {[User 1 := {[1 := Folder.mk 1 "Report" None 0%Z 0%Z;
                              2 := Folder.mk 2 "Report (1)" None 0%Z 0%Z]}]} ∅ ∅
              {[User 1 := 3]} ∅) (User 1) !! k = Some h →
     (k = 1 ∧ Folder.name h = "Report") ∨ (k = 2 ∧ Folder.name h = "Report (1)")).
  { intros k h. unfold folders_of; simpl. rewrite lookup_singleton_eq; simpl.
    rewrite lookup_insert. case_decide; [intros [= <-]; by left|].
    rewrite lookup_singleton. case_decide; [intros [= <-]; by right|done]. }
  apply Hk in Hi as [[-> ->]|[-> ->]]; apply Hk in Hj as [[-> ->]|[-> ->]]; done.
Qed.

(** C1. Name resolution does not always give a name that is free in the
    container.  Three root folders created as " (00)", " (1)", " (00)":
    the third request collides with the first, its parsed base is empty
    with suffix 0, the scan finds suffix 0 only (the live " (1)" has four
    characters and parses as a plain name), so the generated name is
    " (1)" again.  Three root files uploaded as "a.b.": the second becomes
    "a.b (1)", whose last dot splits it into base "a" and extension
    "b (1)", so the scan for the third request misses it and generates
    "a.b (1)" again. *)
Theorem name_resolution_duplicates :
  (∃ s, commitCalls (User 1) 0%Z
          [CreateFolder " (00)" None; CreateFolder " (1)" None; CreateFolder " (00)" None]
          initState = Some s
        ∧ Folder.name <$> values (folders_of s (User 1)) = [" (00)"; " (1)"; " (1)"]
        ∧ ¬ uniqueFolderNames (folders_of s (User 1)))
  ∧ (∃ s, commitCalls (User 1) 0%Z
          [UploadFile "a.b." "" [] None 0%N "" [];
           UploadFile "a.b." "" [] None 0%N "" [];
           UploadFile "a.b." "" [] None 0%N "" []]
          initState = Some s
        ∧ FileMetadata.name <$> values (files_of s (User 1)) = ["a.b."; "a.b (1)"; "a.b (1)"]
        ∧ ¬ uniqueFileNames (files_of s (User 1))).
Proof.
  split.
  - eexists. split; [vm_compute; reflexivity|]. split; [vm_compute; reflexivity|].
    intros Hu.
    specialize (Hu 2 3 (Folder.mk 2 " (1)" None 0%Z 0%Z) (Folder.mk 3 " (1)" None 0%Z 0%Z)).
    by discriminate Hu.
  - eexists. split; [vm_compute; reflexivity|]. split; [vm_compute; reflexivity|].
    intros Hu.
    specialize (Hu 2 3 (FileMetadata.mk 2 "a.b (1)" "" [] None 0%N 0%Z 0%Z "" [])
                       (FileMetadata.mk 3 "a.b (1)" "" [] None 0%N 0%Z 0%Z "" [])).
    by discriminate Hu.
Qed.

(** Two renames evaluated on folders built by calls: in a folder that
    holds "photo.jpg", renaming another file to "photo.jpg" gives
    "photo (1).jpg"; with "photo.jpg" and "photo (1).jpg" both held by other
    files, renaming a third file to "photo (1).jpg" gives "photo (2).jpg". *)
Example rename_photo_in_album :
  (∃ s, commitCalls (User 1) 0%Z
          [CreateFolder "album" None;
           UploadFile "photo.jpg" "" [] (Some 1) 0%N "image/jpeg" [];
           UploadFile "scan.jpg" "" [] (Some 1) 0%N "image/jpeg" []]
          initState = Some s
        ∧ FileMetadata.name <$> (updateFile (User 1) 2 "photo.jpg" "" [] 1%Z s).1
          = Ok "photo (1).jpg")
  ∧ (∃ s, commitCalls (User 1) 0%Z
          [CreateFolder "album" None;
           UploadFile "photo.jpg" "" [] (Some 1) 0%N "image/jpeg" [];
           UploadFile "photo.jpg" "" [] (Some 1) 0%N "image/jpeg" [];
           UploadFile "scan.jpg" "" [] (Some 1) 0%N "image/jpeg" []]
          initState = Some s
        ∧ FileMetadata.name <$> values (files_of s (User 1))
          = ["photo.jpg"; "photo (1).jpg"; "scan.jpg"]
        ∧ FileMetadata.name <$> (updateFile (User 1) 3 "photo (1).jpg" "" [] 1%Z s).1
          = Ok "photo (2).jpg").
Proof.
  split.
  - eexists. split; [vm_compute; reflexivity|]. vm_compute. reflexivity.
  - eexists. split; [vm_compute; reflexivity|]. split; vm_compute; reflexivity.
Qed.

(** ** The depth limit *)

(** C2. [createFolder] checks that the parent exists and nothing else: 101
    calls, each creating a folder inside the one created before, all
    return, and the last folder has an ancestor chain of 101 folders. *)
Theorem createFolder_exceeds_depth_limit :
  ∃ s, commitCalls (User 1) 0%Z (nestedCreates 101 0) initState = Some s
       ∧ chainLength (folders_of s (User 1)) (Some 101) 101
       ∧ ¬ depthBounded (folders_of s (User 1)).
Proof.
  eexists. split; [vm_compute; reflexivity|].
  assert (Hc : ∀ m, chainLength_from 102 m (Some 101) = Some 101 →
                    chainLength m (Some 101) 101 ∧ ¬ depthBounded m).
  { intros m Hm. apply chainLength_from_sound in Hm. split; [done|].
    intros Hb. apply Hb in Hm. unfold maxFolderDepth in Hm. lia. }
  apply Hc. vm_compute. reflexivity.
Qed.

(** ** Search *)

Lemma append_cons c (a b : Text) : String c a ++ b = String c (a ++ b).
Proof. reflexivity. Qed.

Lemma append_nil (b : Text) : "" ++ b = b.
Proof. reflexivity. Qed.

Lemma isPrefix_spec p t : isPrefix p t = true ↔ ∃ post, t = p ++ post.
Proof.
  revert t. induction p as [|a p IH]; intros t; simpl.
  - split; [intros _; by exists t | done].
  - destruct t as [|b t].
    + split; [done | intros [post [=]]].
    + destruct (Ascii.eqb_spec a b) as [->|Hne].
      * rewrite IH. split; intros [post Hp]; exists post; rewrite ?append_cons in *; congruence.
      * split; [done | intros [post Hp]; rewrite append_cons in Hp; congruence].
Qed.

Lemma contains_spec t p : contains t p = true ↔ ∃ pre post, t = pre ++ p ++ post.
Proof.
  induction t as [|c t IH].
  - simpl. destruct (isPrefix p "") eqn:Hp.
    + apply isPrefix_spec in Hp as [post Hp]. split; [|done]. intros _. by exists "", post.
    + split; [done|]. intros (pre & post & Heq).
      destruct pre; simpl in Heq; [|done].
      assert (isPrefix p "" = true) by (apply isPrefix_spec; eauto). congruence.
  - simpl. destruct (isPrefix p (String c t)) eqn:Hp.
    + apply isPrefix_spec in Hp as [post Hp]. split; [|done]. intros _. by exists "", post.
    + rewrite IH. split.
      * intros (pre & post & ->). by exists (String c pre), post.
      * intros (pre & post & Heq). destruct pre as [|c' pre]; simpl in Heq.
        -- assert (isPrefix p (String c t) = true) by (apply isPrefix_spec; eauto). congruence.
        -- injection Heq as -> ->. eauto.
Qed.

(** *** Lower-casing and equality ignoring case *)

Lemma ascii_enumerated (P : ascii → bool) :
  forallb P (map ascii_of_nat (seq 0 256)) = true → ∀ c, P c = true.
Proof.
  intros Hall c. rewrite forallb_forall in Hall. apply Hall.
  rewrite <- (ascii_nat_embedding c). apply in_map, in_seq.
  pose proof (nat_ascii_bounded c). lia.
Qed.

(** [Text.toLower] identifies exactly the characters that are the same
    letter. *)
Lemma sameLetter_spec c d :
  sameLetter c d = true ↔ charToLower c = charToLower d.
Proof.
  assert (Bool.eqb (sameLetter c d) (Ascii.eqb (charToLower c) (charToLower d)) = true) as H.
  { revert d. apply ascii_enumerated. revert c. apply ascii_enumerated.
    vm_compute. reflexivity. }
  apply Bool.eqb_prop in H. rewrite H. apply Ascii.eqb_eq.
Qed.

Lemma equalIgnoringCase_spec a b :
  equalIgnoringCase a b = true ↔ toLower a = toLower b.
Proof.
  revert b. induction a as [|c a IH]; intros [|d b]; simpl; try done.
  rewrite andb_true_iff, sameLetter_spec, IH. split; [intros [-> ->]; done|].
  intros [= -> ->]. done.
Qed.

Lemma equalIgnoringCase_refl a : equalIgnoringCase a a = true.
Proof. by apply equalIgnoringCase_spec. Qed.

Lemma namesEqual_spec a b : namesEqual a b = true ↔ equalIgnoringCase a b = true.
Proof. unfold namesEqual. by rewrite String.eqb_eq, equalIgnoringCase_spec. Qed.

Lemma toLower_app a b : toLower (a ++ b) = toLower a ++ toLower b.
Proof. induction a as [|c a IH]; [done|]. rewrite !append_cons. simpl. by rewrite IH. Qed.

Lemma toLower_app_inv t a b :
  toLower t = a ++ b → ∃ t1 t2, t = t1 ++ t2 ∧ toLower t1 = a ∧ toLower t2 = b.
Proof.
  revert t. induction a as [|c a IH]; intros t.
  - rewrite append_nil. intros H. by exists "", t.
  - rewrite append_cons. destruct t as [|d t]; [done|]. simpl. intros [= Hc Ht].
    destruct (IH t Ht) as (t1 & t2 & -> & H1 & H2).
    exists (String d t1), t2. simpl. by rewrite Hc, H1.
Qed.

Lemma textContainsIgnoreCase_spec text term :
  textContainsIgnoreCase text term = true ↔ substringIgnoringCase term text.
Proof.
  unfold textContainsIgnoreCase, substringIgnoringCase. rewrite contains_spec. split.
  - intros (pre' & post' & H).
    apply toLower_app_inv in H as (pre & rest & -> & _ & H).
    apply toLower_app_inv in H as (mid & post & -> & H & _).
    exists pre, mid, post. split; [done|]. by apply equalIgnoringCase_spec.
  - intros (pre & mid & post & -> & H%equalIgnoringCase_spec).
    exists (toLower pre), (toLower post). by rewrite !toLower_app, H.
Qed.

Lemma existsb_elem_of {A} (p : A → bool) (l : list A) :
  existsb p l = true ↔ ∃ x, x ∈ l ∧ p x = true.
Proof.
  rewrite existsb_exists. split; intros (x & Hx & Hp); exists x; split; try done;
    by apply list_elem_of_In.
Qed.

Lemma elem_of_List_filter {A} (p : A → bool) (l : list A) x :
  x ∈ List.filter p l ↔ x ∈ l ∧ p x = true.
Proof. rewrite !list_elem_of_In. apply filter_In. Qed.

Lemma sublist_List_filter {A} (p : A → bool) (l : list A) : sublist (List.filter p l) l.
Proof.
  induction l as [|x l IH]; simpl; [constructor|].
  destruct (p x); by constructor.
Qed.

Lemma matchesSearch_spec tags term f :
  matchesSearch tags term (negb (String.eqb term "")) f = true ↔
  term = ""
  ∨ substringIgnoringCase term (FileMetadata.name f)
  ∨ substringIgnoringCase term (FileMetadata.description f)
  ∨ ∃ tagId tag, tagId ∈ FileMetadata.tagIds f ∧ tags !! tagId = Some tag
                 ∧ substringIgnoringCase term (Tag.name tag).
Proof.
  unfold matchesSearch. destruct (String.eqb_spec term "") as [->|Hne]; simpl.
  - split; [by left | done].
  - rewrite !orb_true_iff, !textContainsIgnoreCase_spec, existsb_elem_of.
    split.
    + intros [[?|?]|(tid & Hin & Hm)]; [by right; left | by right; right; left |].
      destruct (tags !! tid) as [tag|] eqn:Ht; [|done].
      right; right; right. exists tid, tag. by rewrite <- textContainsIgnoreCase_spec.
    + intros [?|[?|[?|(tid & tag & Hin & Ht & Hm)]]]; [done | by left; left | by left; right |].
      right. exists tid. rewrite Ht. by rewrite textContainsIgnoreCase_spec.
Qed.

Lemma matchesTags_spec filterTagIds f :
  matchesTags filterTagIds (0 <? length filterTagIds) f = true ↔
  filterTagIds = [] ∨ ∃ tagId, tagId ∈ filterTagIds ∧ tagId ∈ FileMetadata.tagIds f.
Proof.
  unfold matchesTags. destruct filterTagIds as [|t r]; simpl length.
  - simpl. split; [by left | done].
  - replace (0 <? S (length r)) with true by done. simpl negb. cbv iota.
    rewrite existsb_elem_of. split.
    + intros (x & Hx & Hex). right. exists x. split; [done|].
      apply existsb_elem_of in Hex as (y & Hy & Heq). by apply bool_decide_eq_true in Heq as ->.
    + intros [?|(x & Hx & Hin)]; [done|]. exists x. split; [done|].
      apply existsb_elem_of. exists x. split; [done|]. by apply bool_decide_eq_true.
Qed.

Lemma run_requireAuth c s : isAnonymous c = false → requireAuth c s = (Ok tt, s).
Proof. intros H. unfold requireAuth. by rewrite H. Qed.

(** C9. For an authenticated caller, [searchFilesWithTags] returns: every
    file of the caller, in key order, when the term and the tag filter are
    both empty; and in every case exactly the caller's files that meet the
    criterion (term empty, or term a case-insensitive substring of the
    name, of the description or of the name of an existing tag of the
    file) and (filter empty, or the file carries at least one of the
    requested tag ids), in the order of the collection. *)
Theorem searchFilesWithTags_spec caller term tagFilterIds s :
  isAnonymous caller = false →
  ∃ result,
    (searchFilesWithTags caller term tagFilterIds s).1 = Ok result
    ∧ (term = "" → tagFilterIds = [] → result = values (files_of s caller))
    ∧ sublist result (values (files_of s caller))
    ∧ ∀ f, f ∈ result ↔
           f ∈ values (files_of s caller)
           ∧ searchCriterion (tags_of s caller) term tagFilterIds f.
Proof.
  intros Hauth. unfold searchFilesWithTags, bind.
  rewrite run_requireAuth by done. rewrite run_getUserFiles. rewrite run_getUserTags.
  autorewrite with views. unfold searchCriterion.
  destruct (negb (negb (String.eqb term "")) && negb (0 <? length tagFilterIds)) eqn:Hboth.
  - apply andb_true_iff in Hboth as [Ht Hf].
    apply negb_true_iff, negb_false_iff in Ht. apply String.eqb_eq in Ht as ->.
    destruct tagFilterIds; [|done].
    eexists. split; [reflexivity|]. split; [done|]. split; [done|].
    intros f. split; [|tauto]. intros Hin. split; [done|]. split; by left.
  - eexists. split; [reflexivity|]. split.
    { intros -> ->. done. }
    split; [apply sublist_List_filter|].
    intros f. rewrite elem_of_List_filter, andb_true_iff.
    by rewrite matchesSearch_spec, matchesTags_spec.
Qed.

Lemma searchFilesWithTags_spec_witness :
  isAnonymous (User 1) = false
  ∧ ∃ result,
      (searchFilesWithTags (User 1) "report" [] demoState).1 = Ok result
      ∧ ("report" = "" → ([] : list TagId) = [] → result = values (files_of demoState (User 1)))
      ∧ sublist result (values (files_of demoState (User 1)))
      ∧ ∀ f, f ∈ result ↔
             f ∈ values (files_of demoState (User 1))
             ∧ searchCriterion (tags_of demoState (User 1)) "report" [] f.
Proof.
  split; [reflexivity|].
  apply (searchFilesWithTags_spec (User 1) "report" [] demoState). reflexivity.
Defined.

(** ** Running the helpers *)

Lemma run_assertFolderExists_None u s : assertFolderExists u None s = (Ok tt, s).
Proof. reflexivity. Qed.

Lemma run_assertFolderExists_Some u p s :
  assertFolderExists u (Some p) s =
  (if containsKey (folders_of s u) p then Ok tt
   else Trap ("Folder not found: " ++ natToText p),
   setFolders u (folders_of s u) s).
Proof.
  unfold assertFolderExists, folderExists, bind. rewrite run_getUserFolders. simpl.
  by destruct (containsKey (folders_of s u) p).
Qed.

Lemma run_getUniqueFolderName u parentId desiredName excludeId s :
  getUniqueFolderName u parentId desiredName excludeId s =
  (Ok (uniqueFolderNameIn (folders_of s u) parentId desiredName excludeId),
   setFolders u (folders_of s u) s).
Proof. unfold getUniqueFolderName, bind. by rewrite run_getUserFolders. Qed.

Lemma run_getUniqueFileName u folderId desiredName excludeId s :
  getUniqueFileName u folderId desiredName excludeId s =
  (Ok (uniqueFileNameIn (files_of s u) folderId desiredName excludeId),
   setFiles u (files_of s u) s).
Proof. unfold getUniqueFileName, bind. by rewrite run_getUserFiles. Qed.

Lemma run_isAncestor u a d s :
  isAncestor u a d s =
  (checkAncestor (folders_of s u) a (Some d) 0, setFolders u (folders_of s u) s).
Proof. unfold isAncestor, bind. by rewrite run_getUserFolders. Qed.

Lemma run_assertTagsExist u tagIds s :
  assertTagsExist u tagIds s =
  ((assertTagsExist_loop (tags_of s u) tagIds s).1, setTags u (tags_of s u) s).
Proof.
  unfold assertTagsExist, bind. rewrite run_getUserTags.
  generalize (setTags u (tags_of s u) s) as s1. intros s1.
  induction tagIds as [|t r IH]; simpl; [done|].
  destruct (containsKey (tags_of s u) t); simpl; [done|done].
Qed.

Ltac mrun :=
  repeat first
    [ rewrite run_requireAuth by done
    | rewrite run_getUserFolders | rewrite run_getUserFiles | rewrite run_getUserTags
    | rewrite run_genFolderId | rewrite run_genFileId | rewrite run_genTagId
    | rewrite run_assertFolderExists_None | rewrite run_assertFolderExists_Some
    | rewrite run_getUniqueFolderName | rewrite run_getUniqueFileName
    | rewrite run_isAncestor | rewrite run_assertTagsExist
    | progress unfold foldersAdd, foldersRemove, filesAdd, filesRemove, tagsAdd, tagsRemove
    | progress autorewrite with views
    | progress cbn [fst snd when ret trap liftRes] ].

Ltac auth_case c Hok :=
  let Hauth := fresh "Hauth" in
  destruct (isAnonymous c) eqn:Hauth;
  [unfold requireAuth in Hok; by rewrite Hauth in Hok|].

(** ** Ancestor walks *)

(** The recursion of the source: trap at [depth >= maxFolderDepth], else one
    step up with [depth + 1]. *)
Lemma checkAncestor_unfold folders ancestorId currentId depth :
  checkAncestor folders ancestorId currentId depth =
  if maxFolderDepth <=? depth then Trap deepMsg
  else match currentId with
       | None => Ok false
       | Some id =>
           if bool_decide (id = ancestorId) then Ok true
           else match folders !! id with
                | None => Ok false
                | Some folder =>
                    checkAncestor folders ancestorId (Folder.parentId folder) (depth + 1)
                end
       end.
Proof.
  unfold checkAncestor. destruct (Nat.leb_spec maxFolderDepth depth) as [Hle|Hlt].
  - by replace (maxFolderDepth - depth) with 0 by lia.
  - replace (maxFolderDepth - depth) with (S (maxFolderDepth - (depth + 1))) by lia.
    done.
Qed.

Lemma checkAncestor_from_ancestor folders a d budget :
  ancestorOf folders a d →
  checkAncestor_from budget folders a (Some d) = Ok true
  ∨ checkAncestor_from budget folders a (Some d) = Trap deepMsg.
Proof.
  intros Hanc. revert budget.
  induction Hanc as [d f Hf Hp | d f p Hf Hp _ IH]; intros [|b]; simpl; try by right.
  - case_bool_decide; [by left|]. rewrite Hf, Hp.
    destruct b as [|b]; simpl; [by right|]. rewrite bool_decide_eq_true_2 by done. by left.
  - case_bool_decide; [by left|]. rewrite Hf, Hp. apply IH.
Qed.

Lemma checkAncestor_from_clear folders a cur n budget :
  chainLength folders cur n →
  (∀ id, cur = Some id → id ≠ a ∧ ¬ ancestorOf folders a id) →
  checkAncestor_from budget folders a cur
  = if decide (n < budget) then Ok false else Trap deepMsg.
Proof.
  intros Hc. revert budget. induction Hc as [|id f n Hf Hc IH]; intros budget Hav.
  - by destruct budget.
  - destruct budget as [|b]; cbn [checkAncestor_from]; [by rewrite decide_False by lia|].
    destruct (Hav id eq_refl) as [Hne Hna].
    rewrite bool_decide_eq_false_2 by done. rewrite Hf, IH.
    + destruct (decide (n < b)); [by rewrite decide_True by lia | by rewrite decide_False by lia].
    + intros p Hp. split.
      * intros ->. apply Hna. by eapply ancestor_parent.
      * intros Hanc. apply Hna. by eapply ancestor_step.
Qed.

(** ** Moving a folder *)

Lemma moveFolder_inv c id P now s g :
  (moveFolder c id P now s).1 = Ok g →
  let m := folders_of s c in
  ∃ f, m !! id = Some f
    ∧ g = Folder.mk (Folder.id f) (uniqueFolderNameIn m P (Folder.name f) (Some id)) P
                    (Folder.createdDate f) now
    ∧ match P with
      | None => True
      | Some p => is_Some (m !! p) ∧ id ≠ p ∧ checkAncestor m id (Some p) 0 = Ok false
      end
    ∧ view (moveFolder c id P now s).2 c
      = mkView (files_of s c) (<[id := g]> m) (tags_of s c)
               (nextFileId_of s c) (nextFolderId_of s c) (nextTagId_of s c).
Proof.
  intros Hok m. unfold moveFolder, bind in *. auth_case c Hok.
  revert Hok. mrun.
  destruct P as [p|].
  - mrun. destruct (containsKey (folders_of s c) p) eqn:Hp; [|done]. mrun.
    unfold bind. case_bool_decide; [done|]. mrun.
    destruct (checkAncestor (folders_of s c) id (Some p) 0) as [[|]|] eqn:Hanc; try done.
    mrun. destruct (folders_of s c !! id) as [f|] eqn:Hf; [|done]. mrun.
    intros [= <-]. exists f. split; [done|]. split; [done|].
    split; [by rewrite <- containsKey_true|]. unfold view. mrun. by rewrite insert_delete_eq.
  - mrun. destruct (folders_of s c !! id) as [f|] eqn:Hf; [|done]. mrun.
    intros [= <-]. exists f. split; [done|]. split; [done|]. split; [done|].
    unfold view. mrun. by rewrite insert_delete_eq.
Qed.

Lemma moveFolder_self c id now s :
  ∃ msg, (moveFolder c id (Some id) now s).1 = Trap msg.
Proof.
  unfold moveFolder, bind. unfold requireAuth. destruct (isAnonymous c); [by eexists|].
  mrun. destruct (containsKey (folders_of s c) id); [|by eexists]. mrun.
  unfold bind. rewrite bool_decide_eq_true_2 by done. by eexists.
Qed.

Lemma moveFolder_into_descendant c id p now s :
  ancestorOf (folders_of s c) id p →
  ∃ msg, (moveFolder c id (Some p) now s).1 = Trap msg.
Proof.
  intros Hanc. unfold moveFolder, bind. unfold requireAuth.
  destruct (isAnonymous c); [by eexists|].
  mrun. destruct (containsKey (folders_of s c) p); [|by eexists]. mrun.
  unfold bind. case_bool_decide; [by eexists|]. mrun.
  destruct (checkAncestor_from_ancestor _ _ _ maxFolderDepth Hanc) as [H1|H1];
    unfold checkAncestor; replace (maxFolderDepth - 0) with maxFolderDepth by done;
    rewrite H1; by eexists.
Qed.

Lemma moveFolder_to_root c id f now s :
  isAnonymous c = false → folders_of s c !! id = Some f →
  ∃ g, (moveFolder c id None now s).1 = Ok g
       ∧ Folder.parentId g = None
       ∧ folders_of (moveFolder c id None now s).2 c !! id = Some g.
Proof.
  intros Hauth Hf. unfold moveFolder, bind. mrun. rewrite Hf. mrun.
  eexists. split; [done|]. split; [done|]. by rewrite lookup_insert_eq.
Qed.

Lemma moveFolder_elsewhere c id f p n now s :
  isAnonymous c = false → folders_of s c !! id = Some f →
  is_Some (folders_of s c !! p) → p ≠ id → ¬ ancestorOf (folders_of s c) id p →
  chainLength (folders_of s c) (Some p) n →
  if decide (n < maxFolderDepth)
  then ∃ g, (moveFolder c id (Some p) now s).1 = Ok g
            ∧ Folder.parentId g = Some p
            ∧ folders_of (moveFolder c id (Some p) now s).2 c !! id = Some g
  else (moveFolder c id (Some p) now s).1 = Trap deepMsg.
Proof.
  intros Hauth Hf Hp Hne Hna Hc. unfold moveFolder, bind. mrun.
  apply containsKey_true in Hp. rewrite Hp. mrun.
  unfold bind. rewrite bool_decide_eq_false_2 by done. mrun.
  unfold checkAncestor. replace (maxFolderDepth - 0) with maxFolderDepth by done.
  rewrite (checkAncestor_from_clear _ _ _ n _ Hc).
  2:{ intros ? [= <-]. done. }
  destruct (decide (n < maxFolderDepth)); [|done]. mrun. rewrite Hf. mrun.
  eexists. split; [done|]. split; [done|]. by rewrite lookup_insert_eq.
Qed.

(** C3 (amended). For a live folder [F] of an authenticated caller:
    [moveFolder (F, ?F)] traps; [moveFolder (F, ?P)] traps whenever [P] is a
    descendant of [F]; [moveFolder (F, null)] returns; and for any other
    live folder [P] (not [F], not a descendant of [F]) whose ancestor
    chain, [P] included, counts [n] folders, [moveFolder (F, ?P)] returns
    when [n < 100] and traps with the depth message when [n >= 100]. *)
Theorem moveFolder_outcomes caller F f now s :
  isAnonymous caller = false →
  folders_of s caller !! F = Some f →
  (∃ msg, (moveFolder caller F (Some F) now s).1 = Trap msg)
  ∧ (∀ P, ancestorOf (folders_of s caller) F P →
          ∃ msg, (moveFolder caller F (Some P) now s).1 = Trap msg)
  ∧ (∃ g, (moveFolder caller F None now s).1 = Ok g
          ∧ Folder.parentId g = None
          ∧ folders_of (moveFolder caller F None now s).2 caller !! F = Some g)
  ∧ (∀ P n, is_Some (folders_of s caller !! P) → P ≠ F →
            ¬ ancestorOf (folders_of s caller) F P →
            chainLength (folders_of s caller) (Some P) n →
            if decide (n < maxFolderDepth)
            then ∃ g, (moveFolder caller F (Some P) now s).1 = Ok g
                      ∧ Folder.parentId g = Some P
                      ∧ folders_of (moveFolder caller F (Some P) now s).2 caller !! F = Some g
            else (moveFolder caller F (Some P) now s).1 = Trap deepMsg).
Proof.
  intros Hauth Hf. split; [apply moveFolder_self|].
  split; [intros P; apply moveFolder_into_descendant|].
  split; [by eapply moveFolder_to_root|].
  intros P n. by eapply moveFolder_elsewhere.
Qed.

Lemma reachable_runCalls caller now cs s :
  reachable s → reachable (runCalls caller now cs s).
Proof.
  revert s. induction cs as [|c r IH]; intros s Hs; [done|].
  apply IH. by constructor.
Qed.

Lemma ancestorOf_not_clear folders a d budget :
  checkAncestor_from budget folders a (Some d) = Ok false → ¬ ancestorOf folders a d.
Proof.
  intros Hf Hanc.
  destruct (checkAncestor_from_ancestor _ _ _ budget Hanc) as [H|H]; congruence.
Qed.

Lemma moveFolder_outcomes_witness :
  isAnonymous (User 1) = false
  ∧ folders_of demoState (User 1) !! 1 = Some (Folder.mk 1 "docs" None 0%Z 0%Z)
  ∧ (∃ msg, (moveFolder (User 1) 1 (Some 1) 5%Z demoState).1 = Trap msg)
  ∧ (∀ P, ancestorOf (folders_of demoState (User 1)) 1 P →
          ∃ msg, (moveFolder (User 1) 1 (Some P) 5%Z demoState).1 = Trap msg)
  ∧ (∃ g, (moveFolder (User 1) 1 None 5%Z demoState).1 = Ok g
          ∧ Folder.parentId g = None
          ∧ folders_of (moveFolder (User 1) 1 None 5%Z demoState).2 (User 1) !! 1 = Some g)
  ∧ (∀ P n, is_Some (folders_of demoState (User 1) !! P) → P ≠ 1 →
            ¬ ancestorOf (folders_of demoState (User 1)) 1 P →
            chainLength (folders_of demoState (User 1)) (Some P) n →
            if decide (n < maxFolderDepth)
            then ∃ g, (moveFolder (User 1) 1 (Some P) 5%Z demoState).1 = Ok g
                      ∧ Folder.parentId g = Some P
                      ∧ folders_of (moveFolder (User 1) 1 (Some P) 5%Z demoState).2 (User 1) !! 1
                        = Some g
            else (moveFolder (User 1) 1 (Some P) 5%Z demoState).1 = Trap deepMsg).
Proof.
  split; [reflexivity|]. split; [vm_compute; reflexivity|].
  apply (moveFolder_outcomes (User 1) 1 (Folder.mk 1 "docs" None 0%Z 0%Z) 5%Z demoState).
  - reflexivity.
  - vm_compute; reflexivity.
Defined.

(** C3 as stated fails: in a state built by 101 [createFolder] calls,
    folder 100 is live, is not folder 101 and is not a descendant of
    folder 101 (a root folder without children), yet
    [moveFolder (101, ?100)] traps, because the walk from folder 100 to the
    root is 100 folders long. *)
Lemma moveFolder_refuses_deep_parent :
  reachable deepChainState
  ∧ is_Some (folders_of deepChainState (User 1) !! 101)
  ∧ is_Some (folders_of deepChainState (User 1) !! 100)
  ∧ 100 ≠ 101
  ∧ ¬ ancestorOf (folders_of deepChainState (User 1)) 101 100
  ∧ (moveFolder (User 1) 101 (Some 100) 0%Z deepChainState).1 = Trap deepMsg.
Proof.
  split; [apply reachable_runCalls; constructor|].
  split; [vm_compute; eauto|]. split; [vm_compute; eauto|]. split; [done|].
  split; [apply (ancestorOf_not_clear _ _ _ 200); vm_compute; reflexivity|].
  vm_compute; reflexivity.
Qed.

(** ** The subtree loops *)

Lemma containsKey_dom (ids : IdSet) k : containsKey ids k = true ↔ k ∈ dom ids.
Proof. by rewrite containsKey_true, elem_of_dom. Qed.

Lemma containsKey_not_dom (ids : IdSet) k : containsKey ids k = false ↔ k ∉ dom ids.
Proof. rewrite <- containsKey_dom. by destruct (containsKey ids k). Qed.

Lemma deleteScanStep_collect acc folder :
  deleteScanStep acc folder = collectScanStep false acc folder.
Proof. destruct acc as [ids b]. unfold deleteScanStep, collectScanStep. by destruct (Folder.parentId folder). Qed.

Lemma deleteScanPass_collect folders ids :
  deleteScanPass folders ids = collectScanPass false folders ids.
Proof.
  unfold deleteScanPass, collectScanPass. generalize (ids, false) as acc.
  induction (values folders) as [|f l IH]; intros acc; simpl; [done|].
  by rewrite deleteScanStep_collect, IH.
Qed.

Lemma collectScanStep_cases includeRoot (ids : gmap nat unit) b f :
  (fires includeRoot ids f
   ∧ collectScanStep includeRoot (ids, b) f = (<[Folder.id f := tt]> ids, true))
  ∨ (¬ fires includeRoot ids f ∧ collectScanStep includeRoot (ids, b) f = (ids, b)).
Proof.
  unfold collectScanStep, fires.
  destruct (containsKey ids (Folder.id f)) eqn:Hid.
  - right. apply containsKey_dom in Hid. split; [tauto|].
    destruct (Folder.parentId f); by rewrite ?andb_false_r.
  - apply containsKey_not_dom in Hid. destruct (Folder.parentId f) as [p|].
    + destruct (containsKey ids p) eqn:Hp; simpl.
      * left. by apply containsKey_dom in Hp.
      * right. apply containsKey_not_dom in Hp. tauto.
    + destruct includeRoot; simpl; [by left | right]. split; [|done]. by intros [_ ?].
Qed.

Lemma collectScanPass_spec includeRoot (C : FolderId → Prop) l (ids : gmap nat unit) b ids' b' :
  foldl (collectScanStep includeRoot) (ids, b) l = (ids', b') →
  dom ids ⊆ dom ids'
  ∧ (b = true → b' = true)
  ∧ (b' = false → ids' = ids ∧ ∀ f, f ∈ l → ¬ fires includeRoot ids f)
  ∧ (b = false → b' = true → ∃ f, f ∈ l ∧ (Folder.id f ∉ dom ids) ∧ Folder.id f ∈ dom ids')
  ∧ ((∀ x, x ∈ dom ids → C x) →
     (∀ f ids0, f ∈ l → (∀ x, x ∈ dom ids0 → C x) → fires includeRoot ids0 f →
                C (Folder.id f)) →
     ∀ x, x ∈ dom ids' → C x).
Proof.
  revert ids b. induction l as [|f l IH]; intros ids b; cbn [foldl].
  - intros [= <- <-]. repeat split; try done.
    + intros f Hf. by apply elem_of_nil in Hf.
    + congruence.
  - destruct (collectScanStep_cases includeRoot ids b f) as [[Hfire ->]|[Hnf ->]]; intros Hfold.
    + apply IH in Hfold as (Hsub & Hb & _ & _ & Hc).
      rewrite dom_insert_L in Hsub.
      split; [set_solver|]. split; [auto|].
      split; [intros Hb'; rewrite Hb in Hb'; done|].
      split.
      * intros _ _. exists f. split; [by left|]. split; [apply Hfire | set_solver].
      * intros HC Hstep. apply Hc.
        -- intros x. rewrite dom_insert_L, elem_of_union, elem_of_singleton.
           intros [->|?]; [|by apply HC]. eapply Hstep; [by left | done | done].
        -- intros g ids0 Hg. apply Hstep. by right.
    + apply IH in Hfold as (Hsub & Hb & Hfalse & Htrue & Hc).
      split; [done|]. split; [done|].
      split.
      * intros Hb'. destruct (Hfalse Hb') as [-> Hl]. split; [done|].
        intros g [->|Hg]%elem_of_cons; [done | by apply Hl].
      * split.
        -- intros Hb0 Hb'. destruct (Htrue Hb0 Hb') as (g & Hg & ?). exists g. split; [by right|done].
        -- intros HC Hstep. apply Hc; [done|]. intros g ids0 Hg. apply Hstep. by right.
Qed.

Lemma filter_length_le {A} (P Q : A → Prop) `{∀ x, Decision (P x)} `{∀ x, Decision (Q x)}
    (l : list A) :
  (∀ x, x ∈ l → P x → Q x) → length (filter P l) ≤ length (filter Q l).
Proof.
  induction l as [|a l IH]; intros Himp; [done|].
  rewrite !filter_cons.
  assert (length (filter P l) ≤ length (filter Q l)) as Hl.
  { apply IH. intros x Hx. apply Himp. by right. }
  destruct (decide (P a)) as [Hp|Hp].
  - rewrite decide_True by (apply Himp; [by left|done]). simpl. lia.
  - destruct (decide (Q a)); simpl; lia.
Qed.

Lemma filter_length_lt {A} (P Q : A → Prop) `{∀ x, Decision (P x)} `{∀ x, Decision (Q x)}
    (l : list A) a :
  (∀ x, x ∈ l → P x → Q x) → a ∈ l → Q a → ¬ P a →
  length (filter P l) < length (filter Q l).
Proof.
  induction l as [|b l IH]; intros Himp Ha Hq Hnp; [by apply elem_of_nil in Ha|].
  rewrite !filter_cons.
  assert (length (filter P l) ≤ length (filter Q l)) as Hl.
  { apply filter_length_le. intros x Hx. apply Himp. by right. }
  apply elem_of_cons in Ha as [<-|Ha].
  - rewrite decide_False by done. rewrite decide_True by done. simpl. lia.
  - assert (length (filter P l) < length (filter Q l)) as Hlt.
    { apply IH; try done. intros x Hx. apply Himp. by right. }
    destruct (decide (P b)) as [Hp|Hp].
    + rewrite decide_True by (apply Himp; [by left|done]). simpl. lia.
    + destruct (decide (Q b)); simpl; lia.
Qed.

Lemma uncollected_lt folders (ids ids' : gmap nat unit) f :
  dom ids ⊆ dom ids' → f ∈ values folders →
  Folder.id f ∉ dom ids → Folder.id f ∈ dom ids' →
  uncollected folders ids' < uncollected folders ids.
Proof.
  intros Hsub Hf Hn Hin. apply (filter_length_lt _ _ _ f); try done; set_solver.
Qed.

Lemma uncollected_le_length folders (ids : gmap nat unit) :
  uncollected folders ids ≤ length (values folders).
Proof. apply length_filter. Qed.

(** The [while (foundNew)] loop ends: a productive pass collects a folder
    that was not collected before, so [fuel] passes are enough as soon as
    [fuel] exceeds the number of folders not yet collected. *)
Lemma whileFoundNew_ends includeRoot folders fuel (ids : gmap nat unit) :
  uncollected folders ids < fuel →
  is_Some (whileFoundNew fuel (collectScanPass includeRoot folders) ids).
Proof.
  revert ids. induction fuel as [|fuel IH]; intros ids Hlt; [lia|].
  simpl. destruct (collectScanPass includeRoot folders ids) as [ids' b'] eqn:Hpass.
  destruct b'; [|done].
  apply (collectScanPass_spec includeRoot (λ _, True)) in Hpass
    as (Hsub & _ & _ & Hnew & _).
  destruct (Hnew eq_refl eq_refl) as (f & Hf & Hn & Hin).
  apply IH. pose proof (uncollected_lt folders ids ids' f Hsub Hf Hn Hin). lia.
Qed.

Lemma whileFoundNew_spec includeRoot folders (C : FolderId → Prop) fuel
    (ids ids' : gmap nat unit) :
  whileFoundNew fuel (collectScanPass includeRoot folders) ids = Some ids' →
  dom ids ⊆ dom ids'
  ∧ (∀ f, f ∈ values folders → ¬ fires includeRoot ids' f)
  ∧ ((∀ x, x ∈ dom ids → C x) →
     (∀ f ids0, f ∈ values folders → (∀ x, x ∈ dom ids0 → C x) →
                fires includeRoot ids0 f → C (Folder.id f)) →
     ∀ x, x ∈ dom ids' → C x).
Proof.
  revert ids. induction fuel as [|fuel IH]; intros ids; [done|].
  simpl. destruct (collectScanPass includeRoot folders ids) as [ids1 b1] eqn:Hpass.
  apply (collectScanPass_spec includeRoot C) in Hpass as (Hsub & _ & Hfalse & _ & Hc).
  destruct b1.
  - intros Hw. apply IH in Hw as (Hsub' & Hclosed & Hc').
    split; [set_solver|]. split; [done|]. intros HC Hstep. apply Hc'; [|done]. by apply Hc.
  - intros [= <-]. destruct (Hfalse eq_refl) as [-> Hclosed]. done.
Qed.

(** With records stored under their own id, the loop collects exactly
    [inClosure]. *)
Lemma whileFoundNew_closure includeRoot folders fuel (seed ids : gmap nat unit) :
  (∀ k f, folders !! k = Some f → Folder.id f = k) →
  whileFoundNew fuel (collectScanPass includeRoot folders) seed = Some ids →
  ∀ x, x ∈ dom ids ↔ inClosure folders includeRoot seed x.
Proof.
  intros Hid Hw.
  apply (whileFoundNew_spec _ _ (inClosure folders includeRoot seed)) in Hw
    as (Hsub & Hclosed & Hsound).
  intros x. split.
  - apply Hsound; [by constructor|].
    intros f ids0 [k Hk]%elem_of_values HC [Hn Hp].
    rewrite (Hid k f Hk). destruct (Folder.parentId f) as [p|] eqn:Hpar.
    + eapply closure_child; eauto.
    + eapply closure_root; eauto.
  - induction 1 as [x Hx | x f Hroot Hf Hp | x f p Hf Hp _ IH].
    + set_solver.
    + destruct (decide (x ∈ dom ids)) as [|Hn]; [done|]. exfalso.
      apply (Hclosed f); [apply elem_of_values; eauto|].
      split; [by rewrite (Hid x f Hf) | by rewrite Hp].
    + destruct (decide (x ∈ dom ids)) as [|Hn]; [done|]. exfalso.
      apply (Hclosed f); [apply elem_of_values; eauto|].
      split; [by rewrite (Hid x f Hf) | by rewrite Hp].
Qed.

(** ** Deleting a folder *)

Lemma lookup_removeAll {V} (ks : list nat) (m : gmap nat V) k :
  removeAll ks m !! k = if decide (k ∈ ks) then None else m !! k.
Proof.
  unfold removeAll. revert m. induction ks as [|a ks IH]; intros m; cbn [foldl].
  - by rewrite decide_False by apply not_elem_of_nil.
  - rewrite IH. destruct (decide (k ∈ ks)) as [Hin|Hn].
    + by rewrite decide_True by (by right).
    + destruct (decide (k = a)) as [->|Hne].
      * rewrite decide_True by (by left). apply lookup_delete_eq.
      * rewrite decide_False by (by intros [?|?]%elem_of_cons). by apply lookup_delete_ne.
Qed.

Lemma run_forEach_filesRemove c ks s :
  (forEach ks (λ k, filesRemove c k) s).1 = Ok tt
  ∧ view (forEach ks (λ k, filesRemove c k) s).2 c
    = mkView (removeAll ks (files_of s c)) (folders_of s c) (tags_of s c)
             (nextFileId_of s c) (nextFolderId_of s c) (nextTagId_of s c).
Proof.
  revert s. induction ks as [|k r IH]; intros s; [done|].
  cbn [forEach]. unfold bind. unfold filesRemove at 1 3.
  destruct (IH (setFiles c (delete k (files_of s c)) s)) as [H1 H2].
  destruct (forEach r _ _) as [res s'] eqn:E. simpl in *. split; [done|].
  rewrite H2. by autorewrite with views.
Qed.

Lemma run_forEach_foldersRemove c ks s :
  (forEach ks (λ k, foldersRemove c k) s).1 = Ok tt
  ∧ view (forEach ks (λ k, foldersRemove c k) s).2 c
    = mkView (files_of s c) (removeAll ks (folders_of s c)) (tags_of s c)
             (nextFileId_of s c) (nextFolderId_of s c) (nextTagId_of s c).
Proof.
  revert s. induction ks as [|k r IH]; intros s; [done|].
  cbn [forEach]. unfold bind. unfold foldersRemove at 1 3.
  destruct (IH (setFolders c (delete k (folders_of s c)) s)) as [H1 H2].
  destruct (forEach r _ _) as [res s'] eqn:E. simpl in *. split; [done|].
  rewrite H2. by autorewrite with views.
Qed.

Lemma inClosure_subtree folders F x :
  inClosure folders false {[F := tt]} x ↔ inSubtree folders F x.
Proof.
  unfold inSubtree. split.
  - induction 1 as [x Hx | x f Hroot Hf Hp | x f p Hf Hp _ IH].
    + left. by apply elem_of_dom, lookup_singleton_is_Some in Hx.
    + done.
    + right. destruct IH as [->|IH]; [by eapply ancestor_parent | by eapply ancestor_step].
  - intros [->|Hanc].
    + apply closure_seed. set_solver.
    + induction Hanc as [d f Hf Hp | d f p Hf Hp _ IH].
      * eapply closure_child; eauto. apply closure_seed. set_solver.
      * eapply closure_child; eauto.
Qed.

Lemma whileFoundNew_ext fuel (p q : gmap nat unit → gmap nat unit * bool) ids :
  (∀ x, p x = q x) → whileFoundNew fuel p ids = whileFoundNew fuel q ids.
Proof.
  intros Hpq. revert ids. induction fuel as [|fuel IH]; intros ids; [done|].
  simpl. rewrite Hpq. destruct (q ids) as [ids' []]; [apply IH | done].
Qed.

(** The passes allowed in [deleteFolder] and [getAllFilesInFolder] are
    enough in every state: the trap that stands for a loop still running
    is never taken. *)
Lemma subtree_loops_finish folders includeRoot (seed : gmap nat unit) :
  is_Some (whileFoundNew (S (length (values folders))) (deleteScanPass folders) seed)
  ∧ is_Some (whileFoundNew (S (length (values folders)))
               (collectScanPass includeRoot folders) seed).
Proof.
  pose proof (uncollected_le_length folders seed).
  split; [rewrite (whileFoundNew_ext _ _ (collectScanPass false folders))
            by apply deleteScanPass_collect|];
    apply whileFoundNew_ends; lia.
Qed.

Lemma view_inj s c fs fo tg a b d :
  view s c = mkView fs fo tg a b d →
  files_of s c = fs ∧ folders_of s c = fo ∧ tags_of s c = tg
  ∧ nextFileId_of s c = a ∧ nextFolderId_of s c = b ∧ nextTagId_of s c = d.
Proof. unfold view. by intros [= -> -> -> -> -> ->]. Qed.

Lemma deleteFolder_run c F f s :
  isAnonymous c = false →
  folders_of s c !! F = Some f →
  (∀ k g, folders_of s c !! k = Some g → Folder.id g = k) →
  (∀ k g, files_of s c !! k = Some g → FileMetadata.id g = k) →
  (deleteFolder c F s).1 = Ok tt
  ∧ ∃ (D : gmap nat unit) fs' fo',
      (∀ x, x ∈ dom D ↔ inSubtree (folders_of s c) F x)
      ∧ view (deleteFolder c F s).2 c
        = mkView fs' fo' (tags_of s c)
                 (nextFileId_of s c) (nextFolderId_of s c) (nextTagId_of s c)
      ∧ (∀ x, fo' !! x = if decide (x ∈ dom D) then None else folders_of s c !! x)
      ∧ (∀ k, fs' !! k = match files_of s c !! k with
                         | Some g => if inDeleteSet D g then None else Some g
                         | None => None
                         end).
Proof.
  intros Hauth Hf Hid Hfid. unfold deleteFolder, bind.
  rewrite run_requireAuth by done. rewrite run_getUserFolders, run_getUserFiles.
  autorewrite with views.
  assert (containsKey (folders_of s c) F = true) as -> by (apply containsKey_true; eauto).
  cbn [fst snd when ret trap negb].
  rewrite (whileFoundNew_ext _ _ (collectScanPass false (folders_of s c)))
    by apply deleteScanPass_collect.
  destruct (whileFoundNew_ends false (folders_of s c) (S (length (values (folders_of s c))))
              {[F := tt]}) as [D HD].
  { pose proof (uncollected_le_length (folders_of s c) {[F := tt]}). lia. }
  rewrite HD.
  pose proof (whileFoundNew_closure _ _ _ _ _ Hid HD) as Hclo.
  set (s1 := setFiles c _ _).
  set (ids := map _ _).
  destruct (run_forEach_filesRemove c ids s1) as [H1 H2].
  destruct (forEach ids (λ k, filesRemove c k) s1) as [r2 s2].
  simpl in H1, H2. subst r2. cbn [fst snd].
  destruct (run_forEach_foldersRemove c (keys D) s2) as [H3 H4].
  split; [exact H3|].
  apply view_inj in H2 as (Hv1 & Hv2 & Hv3 & Hv4 & Hv5 & Hv6).
  rewrite Hv1, Hv2, Hv3, Hv4, Hv5, Hv6 in H4. subst s1. autorewrite with views in H4.
  eexists D, _, _. split; [|split; [exact H4|split]].
  - intros x. by rewrite Hclo, inClosure_subtree.
  - intros x. rewrite lookup_removeAll.
    destruct (decide (x ∈ dom D)) as [Hx|Hx].
    + rewrite decide_True; [done|]. by apply elem_of_keys, elem_of_dom.
    + rewrite decide_False; [done|]. by rewrite elem_of_keys, <- elem_of_dom.
  - intros k. rewrite lookup_removeAll. subst ids.
    destruct (files_of s c !! k) as [g|] eqn:Hk.
    + destruct (inDeleteSet D g) eqn:Hdel.
      * rewrite decide_True; [done|]. apply list_elem_of_fmap. exists g.
        split; [by rewrite (Hfid k g Hk)|].
        apply list_elem_of_filter. split; [done|]. apply elem_of_values. eauto.
      * rewrite decide_False; [done|]. intros (g' & Hg1 & Hg2)%list_elem_of_fmap.
        apply list_elem_of_filter in Hg2 as [Hdel' [k' Hk']%elem_of_values].
        rewrite (Hfid k' g' Hk') in Hg1. subst k'. congruence.
    + by destruct (decide _).
Qed.

(** ** Calls of one principal leave the others alone *)

Definition touchesOnly {A} (c : Principal) (m : M A) : Prop :=
  ∀ s v, v ≠ c → view (m s).2 v = view s v.

Lemma touchesOnly_pure {A} c (m : M A) : pureM m → touchesOnly c m.
Proof. intros Hm s v _. apply Hm. Qed.

Lemma touchesOnly_bind {A B} c (m : M A) (k : A → M B) :
  touchesOnly c m → (∀ a, touchesOnly c (k a)) → touchesOnly c (bind m k).
Proof.
  intros Hm Hk s v Hv. unfold bind. specialize (Hm s v Hv).
  destruct (m s) as [[a|msg] s1]; simpl in *; [|done].
  rewrite <- Hm. by apply Hk.
Qed.

Lemma touchesOnly_forEach {A} c (xs : list A) (body : A → M unit) :
  (∀ x, touchesOnly c (body x)) → touchesOnly c (forEach xs body).
Proof.
  intros Hb. induction xs as [|x r IH]; simpl; [by apply touchesOnly_pure, pureM_ret|].
  apply touchesOnly_bind; [apply Hb | done].
Qed.

Lemma touchesOnly_writes c :
  (∀ k v, touchesOnly c (filesAdd c k v)) ∧ (∀ k, touchesOnly c (filesRemove c k))
  ∧ (∀ k v, touchesOnly c (foldersAdd c k v)) ∧ (∀ k, touchesOnly c (foldersRemove c k))
  ∧ (∀ k v, touchesOnly c (tagsAdd c k v)) ∧ (∀ k, touchesOnly c (tagsRemove c k))
  ∧ touchesOnly c (genFileId c) ∧ touchesOnly c (genFolderId c)
  ∧ touchesOnly c (genTagId c).
Proof.
  repeat split; intros; intros s w Hw;
    rewrite ?run_genFileId, ?run_genFolderId, ?run_genTagId;
    unfold view, filesAdd, filesRemove, foldersAdd, foldersRemove, tagsAdd, tagsRemove;
    simpl; by autorewrite with views.
Qed.

Ltac touch_step :=
  first [ solve [apply touchesOnly_pure; repeat pure_step]
        | match goal with
          | |- touchesOnly _ (bind _ _) => apply touchesOnly_bind; [|intros ?]
          end
        | apply touchesOnly_forEach; intros ?
        | apply (touchesOnly_writes _)
        | match goal with |- touchesOnly _ (if ?b then _ else _) => destruct b end
        | match goal with |- touchesOnly _ (match ?x with _ => _ end) => destruct x end ].

Lemma touchesOnly_exec caller now c : touchesOnly caller (exec caller now c).
Proof.
  destruct c; simpl; unfold discard, createFolder, renameFolder, moveFolder, deleteFolder,
    uploadFile, updateFile, moveFile, deleteFile, createTag, updateTag, deleteTag;
    repeat touch_step.
Qed.

(** ** What a call that returns has written *)

Lemma createFolder_inv c name P now s g :
  (createFolder c name P now s).1 = Ok g →
  g = Folder.mk (nextFolderId_of s c)
                (uniqueFolderNameIn (folders_of s c) P name None) P now now
  ∧ match P with None => True | Some p => is_Some (folders_of s c !! p) end
  ∧ view (createFolder c name P now s).2 c
    = mkView (files_of s c) (<[nextFolderId_of s c := g]> (folders_of s c)) (tags_of s c)
             (nextFileId_of s c) (nextFolderId_of s c + 1) (nextTagId_of s c).
Proof.
  intros Hok. unfold createFolder, bind in *. auth_case c Hok. revert Hok. mrun.
  destruct P as [p|]; mrun.
  - destruct (containsKey (folders_of s c) p) eqn:Hp; [|done]. mrun.
    destruct (String.eqb name ""); [done|]. mrun.
    intros [= <-]. split; [done|]. split; [by apply containsKey_true|]. unfold view. by mrun.
  - destruct (String.eqb name ""); [done|]. mrun.
    intros [= <-]. split; [done|]. split; [done|]. unfold view. by mrun.
Qed.

Lemma renameFolder_inv c id newName now s g :
  (renameFolder c id newName now s).1 = Ok g →
  ∃ f, folders_of s c !! id = Some f
    ∧ g = Folder.mk (Folder.id f)
            (uniqueFolderNameIn (folders_of s c) (Folder.parentId f) newName (Some id))
            (Folder.parentId f) (Folder.createdDate f) now
    ∧ view (renameFolder c id newName now s).2 c
      = mkView (files_of s c) (<[id := g]> (folders_of s c)) (tags_of s c)
               (nextFileId_of s c) (nextFolderId_of s c) (nextTagId_of s c).
Proof.
  intros Hok. unfold renameFolder, bind in *. auth_case c Hok. revert Hok. mrun.
  destruct (String.eqb newName ""); [done|]. mrun.
  destruct (folders_of s c !! id) as [f|] eqn:Hf; [|done]. mrun.
  intros [= <-]. exists f. split; [done|]. split; [done|].
  unfold view. mrun. by rewrite insert_delete_eq.
Qed.

Lemma uploadFile_inv c name description tagIds P size fileType blob now s g :
  (uploadFile c name description tagIds P size fileType blob now s).1 = Ok g →
  g = FileMetadata.mk (nextFileId_of s c)
        (uniqueFileNameIn (files_of s c) P name None) description tagIds P size
        now now fileType blob
  ∧ match P with None => True | Some p => is_Some (folders_of s c !! p) end
  ∧ view (uploadFile c name description tagIds P size fileType blob now s).2 c
    = mkView (<[nextFileId_of s c := g]> (files_of s c)) (folders_of s c) (tags_of s c)
             (nextFileId_of s c + 1) (nextFolderId_of s c) (nextTagId_of s c).
Proof.
  intros Hok. unfold uploadFile, bind in *. auth_case c Hok. revert Hok. mrun.
  destruct P as [p|]; mrun.
  - destruct (containsKey (folders_of s c) p) eqn:Hp; [|done]. mrun.
    destruct (assertTagsExist_loop _ _ _).1; [|done]. mrun.
    destruct (String.eqb name ""); [done|]. mrun.
    intros [= <-]. split; [done|]. split; [by apply containsKey_true|]. unfold view. by mrun.
  - destruct (assertTagsExist_loop _ _ _).1; [|done]. mrun.
    destruct (String.eqb name ""); [done|]. mrun.
    intros [= <-]. split; [done|]. split; [done|]. unfold view. by mrun.
Qed.

Lemma updateFile_inv c id name description tagIds now s g :
  (updateFile c id name description tagIds now s).1 = Ok g →
  ∃ f, files_of s c !! id = Some f
    ∧ FileMetadata.name g
      = uniqueFileNameIn (files_of s c) (FileMetadata.folderId f) name (Some id)
    ∧ FileMetadata.id g = FileMetadata.id f
    ∧ FileMetadata.folderId g = FileMetadata.folderId f
    ∧ view (updateFile c id name description tagIds now s).2 c
      = mkView (<[id := g]> (files_of s c)) (folders_of s c) (tags_of s c)
               (nextFileId_of s c) (nextFolderId_of s c) (nextTagId_of s c).
Proof.
  intros Hok. unfold updateFile, bind in *. auth_case c Hok. revert Hok. mrun.
  destruct (assertTagsExist_loop _ _ _).1; [|done]. mrun.
  destruct (String.eqb name ""); [done|]. mrun.
  destruct (files_of s c !! id) as [f|] eqn:Hf; [|done]. mrun.
  intros [= <-]. exists f. split; [done|]. split; [done|]. split; [done|]. split; [done|].
  unfold view. mrun. by rewrite insert_delete_eq.
Qed.

Lemma moveFile_inv c id P now s g :
  (moveFile c id P now s).1 = Ok g →
  ∃ f, files_of s c !! id = Some f
    ∧ FileMetadata.name g
      = uniqueFileNameIn (files_of s c) P (FileMetadata.name f) (Some id)
    ∧ FileMetadata.id g = FileMetadata.id f
    ∧ FileMetadata.folderId g = P
    ∧ match P with None => True | Some p => is_Some (folders_of s c !! p) end
    ∧ view (moveFile c id P now s).2 c
      = mkView (<[id := g]> (files_of s c)) (folders_of s c) (tags_of s c)
               (nextFileId_of s c) (nextFolderId_of s c) (nextTagId_of s c).
Proof.
  intros Hok. unfold moveFile, bind in *. auth_case c Hok. revert Hok. mrun.
  destruct P as [p|]; mrun.
  - destruct (containsKey (folders_of s c) p) eqn:Hp; [|done]. mrun.
    destruct (files_of s c !! id) as [f|] eqn:Hf; [|done]. mrun.
    intros [= <-]. exists f. repeat (split; [done|]). split; [by apply containsKey_true|].
    unfold view. mrun. by rewrite insert_delete_eq.
  - destruct (files_of s c !! id) as [f|] eqn:Hf; [|done]. mrun.
    intros [= <-]. exists f. repeat (split; [done|]).
    unfold view. mrun. by rewrite insert_delete_eq.
Qed.

Lemma deleteFile_inv c id s :
  (deleteFile c id s).1 = Ok tt →
  view (deleteFile c id s).2 c
  = mkView (delete id (files_of s c)) (folders_of s c) (tags_of s c)
           (nextFileId_of s c) (nextFolderId_of s c) (nextTagId_of s c).
Proof.
  intros Hok. unfold deleteFile, bind in *. auth_case c Hok. revert Hok. mrun.
  destruct (containsKey (files_of s c) id); [|done]. intros _. cbn. unfold view. by mrun.
Qed.

Lemma createTag_inv c name color s g :
  (createTag c name color s).1 = Ok g →
  ∃ tg nt, view (createTag c name color s).2 c
           = mkView (files_of s c) (folders_of s c) tg
                    (nextFileId_of s c) (nextFolderId_of s c) nt.
Proof.
  intros Hok. unfold createTag, bind in *. auth_case c Hok. revert Hok. mrun.
  destruct (String.eqb name ""); [done|]. mrun. intros _. eexists _, _. unfold view. by mrun.
Qed.

Lemma updateTag_inv c id name color s g :
  (updateTag c id name color s).1 = Ok g →
  ∃ tg nt, view (updateTag c id name color s).2 c
           = mkView (files_of s c) (folders_of s c) tg
                    (nextFileId_of s c) (nextFolderId_of s c) nt.
Proof.
  intros Hok. unfold updateTag, bind in *. auth_case c Hok. revert Hok. mrun.
  destruct (String.eqb name ""); [done|]. mrun.
  destruct (tags_of s c !! id); [|done]. mrun. intros _. eexists _, _. unfold view. by mrun.
Qed.

(** ** Deleting a tag *)

Lemma run_forEach_files {A} c (l : list A) (body : A → M unit)
    (step : gmap nat FileMetadata.t → A → gmap nat FileMetadata.t) :
  (∀ x s, (body x s).1 = Ok tt
          ∧ view (body x s).2 c
            = mkView (step (files_of s c) x) (folders_of s c) (tags_of s c)
                     (nextFileId_of s c) (nextFolderId_of s c) (nextTagId_of s c)) →
  ∀ s, (forEach l body s).1 = Ok tt
       ∧ view (forEach l body s).2 c
         = mkView (foldl step (files_of s c) l) (folders_of s c) (tags_of s c)
                  (nextFileId_of s c) (nextFolderId_of s c) (nextTagId_of s c).
Proof.
  intros Hbody. induction l as [|a l IH]; intros s; [done|].
  cbn [forEach foldl]. unfold bind. destruct (Hbody a s) as [H1 H2].
  destruct (body a s) as [r1 s1]. simpl in H1, H2. subst r1.
  destruct (IH s1) as [H3 H4]. split; [done|]. rewrite H4.
  apply view_inj in H2 as (-> & -> & -> & -> & -> & ->). done.
Qed.

Lemma run_deleteTag_body c id file s :
  ((if hasTagId id file
    then bind (filesRemove c (FileMetadata.id file))
              (λ _, filesAdd c (FileMetadata.id file) (withoutTag id file))
    else ret tt) s).1 = Ok tt
  ∧ view ((if hasTagId id file
           then bind (filesRemove c (FileMetadata.id file))
                     (λ _, filesAdd c (FileMetadata.id file) (withoutTag id file))
           else ret tt) s).2 c
    = mkView (deleteTagStep id (files_of s c) file) (folders_of s c) (tags_of s c)
             (nextFileId_of s c) (nextFolderId_of s c) (nextTagId_of s c).
Proof.
  unfold deleteTagStep. destruct (hasTagId id file); [|done].
  split; [done|]. unfold bind, filesRemove, filesAdd, view. cbn [fst snd].
  by autorewrite with views.
Qed.

Lemma withoutTag_id id f : hasTagId id f = false → withoutTag id f = f.
Proof.
  unfold hasTagId, withoutTag. destruct f as [i n d tagIds fo sz u m ft b]; simpl.
  intros Hn. f_equal. induction tagIds as [|t r IH]; [done|].
  simpl in *. apply orb_false_iff in Hn as [Ht Hr]. rewrite Ht. simpl. f_equal. by apply IH.
Qed.

Lemma deleteTagStep_lookup_ne id m f k :
  FileMetadata.id f ≠ k → deleteTagStep id m f !! k = m !! k.
Proof.
  intros Hne. unfold deleteTagStep. destruct (hasTagId id f); [|done].
  rewrite lookup_insert_ne by done. by rewrite lookup_delete_ne.
Qed.

Lemma foldl_deleteTagStep_other id l m k :
  (∀ f, f ∈ l → FileMetadata.id f ≠ k) → foldl (deleteTagStep id) m l !! k = m !! k.
Proof.
  revert m. induction l as [|a l IH]; intros m Hl; [done|].
  cbn [foldl]. rewrite IH by (intros f Hf; apply Hl; by right).
  apply deleteTagStep_lookup_ne, Hl. by left.
Qed.

Lemma foldl_deleteTagStep_stable id l m k f0 (v : FileMetadata.t) :
  (∀ f, f ∈ l → FileMetadata.id f = k → f = f0) →
  (hasTagId id f0 = true → v = withoutTag id f0) →
  m !! k = Some v → foldl (deleteTagStep id) m l !! k = Some v.
Proof.
  revert m. induction l as [|a l IH]; intros m Huniq Hv Hm; [done|].
  cbn [foldl]. apply IH; [intros f Hf; apply Huniq; by right | done |].
  destruct (decide (FileMetadata.id a = k)) as [Hak|Hak].
  - assert (a = f0) as -> by (apply Huniq; [by left|done]).
    unfold deleteTagStep. destruct (hasTagId id f0) eqn:Ht; [|done].
    rewrite Hak, lookup_insert_eq. by rewrite Hv.
  - by rewrite deleteTagStep_lookup_ne.
Qed.

Lemma foldl_deleteTagStep_same id l m k f0 :
  (∀ f, f ∈ l → FileMetadata.id f = k → f = f0) →
  f0 ∈ l → FileMetadata.id f0 = k → m !! k = Some f0 →
  foldl (deleteTagStep id) m l !! k = Some (withoutTag id f0).
Proof.
  intros Huniq Hin Hk Hm. destruct (hasTagId id f0) eqn:Ht.
  - revert m Hm. induction l as [|a l IH]; intros m Hm; [by apply elem_of_nil in Hin|].
    cbn [foldl].
    assert (∀ f, f ∈ l → FileMetadata.id f = k → f = f0) as Huniq'.
    { intros f Hf. apply Huniq. by right. }
    destruct (decide (FileMetadata.id a = k)) as [Hak|Hak].
    + assert (a = f0) as -> by (apply Huniq; [by left|done]).
      apply (foldl_deleteTagStep_stable id l _ k f0); [done | done |].
      unfold deleteTagStep. rewrite Ht, Hk. apply lookup_insert_eq.
    + apply elem_of_cons in Hin as [->|Hin]; [done|].
      apply IH; try done. by rewrite deleteTagStep_lookup_ne.
  - rewrite withoutTag_id by done.
    apply (foldl_deleteTagStep_stable id l m k f0); [done | congruence | done].
Qed.

Lemma foldl_deleteTagStep_values id (files : gmap nat FileMetadata.t) :
  (∀ k f, files !! k = Some f → FileMetadata.id f = k) →
  foldl (deleteTagStep id) files (values files) = withoutTag id <$> files.
Proof.
  intros Hid. apply map_eq. intros k. rewrite lookup_fmap.
  destruct (files !! k) as [f0|] eqn:Hk; simpl.
  - apply foldl_deleteTagStep_same; try done.
    + intros f [k' Hk']%elem_of_values Hfk. rewrite (Hid k' f Hk') in Hfk. subst k'. congruence.
    + apply elem_of_values. eauto.
    + by apply Hid.
  - rewrite foldl_deleteTagStep_other; [done|].
    intros f [k' Hk']%elem_of_values Hfk. rewrite (Hid k' f Hk') in Hfk. subst k'. congruence.
Qed.

Lemma deleteTag_run c id tag s :
  isAnonymous c = false →
  tags_of s c !! id = Some tag →
  (∀ k f, files_of s c !! k = Some f → FileMetadata.id f = k) →
  (deleteTag c id s).1 = Ok tt
  ∧ view (deleteTag c id s).2 c
    = mkView (withoutTag id <$> files_of s c) (folders_of s c) (delete id (tags_of s c))
             (nextFileId_of s c) (nextFolderId_of s c) (nextTagId_of s c).
Proof.
  intros Hauth Ht Hid. unfold deleteTag. unfold bind at 1 2 3 4 7 8 9 10.
  rewrite run_requireAuth by done. rewrite run_getUserTags, run_getUserFiles.
  autorewrite with views.
  assert (containsKey (tags_of s c) id = true) as -> by (apply containsKey_true; eauto).
  cbn [fst snd when ret trap negb].
  set (s1 := setFiles c _ _).
  destruct (run_forEach_files c (values (files_of s c)) _ (deleteTagStep id)
              (run_deleteTag_body c id) s1) as [H1 H2].
  unfold bind at 1 3.
  match goal with |- context [forEach ?l ?b s1] => destruct (forEach l b s1) as [r2 s2] end.
  simpl in H1, H2. subst r2. cbn [fst snd]. split; [done|].
  apply view_inj in H2 as (Hv1 & Hv2 & Hv3 & Hv4 & Hv5 & Hv6).
  unfold tagsRemove, view. cbn [fst snd]. autorewrite with views.
  rewrite Hv1, Hv2, Hv3, Hv4, Hv5, Hv6. subst s1. autorewrite with views.
  by rewrite foldl_deleteTagStep_values.
Qed.

(** ** Well-formedness of reachable states *)

Lemma chainLength_same_parents (m m' : gmap nat Folder.t) cur n :
  (∀ x f, m !! x = Some f → ∃ f', m' !! x = Some f' ∧ Folder.parentId f' = Folder.parentId f) →
  chainLength m cur n → chainLength m' cur n.
Proof.
  intros Hsame. induction 1 as [|x f n Hf _ IH]; [constructor|].
  destruct (Hsame x f Hf) as (f' & Hf' & Hp). econstructor; [done|]. by rewrite Hp.
Qed.

Lemma chainLength_clear_insert (m : gmap nat Folder.t) a g cur n budget :
  chainLength m cur n →
  checkAncestor_from budget m a cur = Ok false →
  chainLength (<[a := g]> m) cur n.
Proof.
  intros Hc. revert budget. induction Hc as [|x f n Hf _ IH]; intros budget; [constructor|].
  destruct budget as [|b]; [done|]. cbn [checkAncestor_from].
  case_bool_decide as Hx; [done|]. rewrite Hf. intros Hrec.
  econstructor; [by rewrite lookup_insert_ne | by eapply IH].
Qed.

Lemma chainLength_reroute (m m' : gmap nat Folder.t) a cur n :
  (∀ x, x ≠ a → m' !! x = m !! x) →
  (∃ k, chainLength m' (Some a) k) →
  chainLength m cur n → ∃ k, chainLength m' cur k.
Proof.
  intros Hsame Ha. induction 1 as [|x f n Hf _ [k IH]]; [eexists; constructor|].
  destruct (decide (x = a)) as [->|Hne]; [done|].
  exists (S k). econstructor; [by rewrite Hsame | done].
Qed.

Lemma chainLength_outside (m m' : gmap nat Folder.t) F cur n :
  (∀ x, ¬ inSubtree m F x → m' !! x = m !! x) →
  chainLength m cur n →
  (∀ x, cur = Some x → ¬ inSubtree m F x) →
  chainLength m' cur n.
Proof.
  intros Hsame. induction 1 as [|x f n Hf _ IH]; intros Hout; [constructor|].
  econstructor; [by rewrite Hsame by eauto|]. apply IH.
  intros p Hp [->|Hanc]; apply (Hout x eq_refl); right.
  - by eapply ancestor_parent.
  - by eapply ancestor_step.
Qed.

Lemma wfView_init u : wfView (view initState u).
Proof.
  split; intros k f; unfold view, files_of, folders_of; simpl;
    rewrite lookup_empty; simpl; by rewrite lookup_empty.
Qed.

Lemma wf_createFolder c name P now s g :
  wfView (view s c) → (createFolder c name P now s).1 = Ok g →
  wfView (view (createFolder c name P now s).2 c).
Proof.
  intros [W1 W2 W3 W4] (Hg & HP & ->)%createFolder_inv. simpl in *.
  assert (Folder.id g = nextFolderId_of s c ∧ Folder.parentId g = P) as [Hgid Hgp]
    by (by rewrite Hg).
  clear Hg.
  assert (folders_of s c !! nextFolderId_of s c = None) as Hfresh.
  { destruct (folders_of s c !! nextFolderId_of s c) as [f|] eqn:Hf; [|done].
    apply W1 in Hf. lia. }
  assert (∀ cur n, chainLength (folders_of s c) cur n →
                   chainLength (<[nextFolderId_of s c := g]> (folders_of s c)) cur n) as Hch.
  { intros cur n. apply chainLength_same_parents. intros x f Hf. exists f. split; [|done].
    rewrite lookup_insert_ne; [done|]. intros <-. congruence. }
  split; simpl.
  - intros k f. rewrite lookup_insert. case_decide as Hk.
    + intros [= <-]. subst k. lia.
    + intros Hf. apply W1 in Hf. lia.
  - done.
  - intros k f. rewrite lookup_insert. case_decide as Hk.
    + intros [= <-]. subst k. destruct P as [p|].
      * destruct HP as [fp Hp]. destruct (W3 p fp Hp) as [n Hn].
        exists (S n). econstructor; [apply lookup_insert_eq|]. rewrite Hgp. by apply Hch.
      * exists 1. econstructor; [apply lookup_insert_eq|]. rewrite Hgp. constructor.
    + intros Hf. destruct (W3 k f Hf) as [n Hn]. exists n. by apply Hch.
  - intros k f d Hf Hd. destruct (W4 k f d Hf Hd) as [fd Hfd].
    exists fd. rewrite lookup_insert_ne; [done|]. intros <-. congruence.
Qed.

Lemma wf_renameFolder c id newName now s g :
  wfView (view s c) → (renameFolder c id newName now s).1 = Ok g →
  wfView (view (renameFolder c id newName now s).2 c).
Proof.
  intros [W1 W2 W3 W4] (f0 & Hf0 & Hg & ->)%renameFolder_inv. simpl in *.
  assert (Folder.id g = Folder.id f0 ∧ Folder.parentId g = Folder.parentId f0) as [Hgid Hgp]
    by (by rewrite Hg).
  clear Hg.
  assert (∀ cur n, chainLength (folders_of s c) cur n →
                   chainLength (<[id := g]> (folders_of s c)) cur n) as Hch.
  { intros cur n. apply chainLength_same_parents. intros x f Hf.
    destruct (decide (x = id)) as [->|Hne].
    - exists g. rewrite lookup_insert_eq. split; [done|]. congruence.
    - exists f. by rewrite lookup_insert_ne. }
  split; simpl.
  - intros k f. rewrite lookup_insert. case_decide as Hk.
    + intros [= <-]. subst k. rewrite Hgid. by apply W1.
    + apply W1.
  - done.
  - intros k f Hf.
    assert (is_Some (folders_of s c !! k)) as [f' Hf'].
    { revert Hf. rewrite lookup_insert. case_decide; [subst; eauto | eauto]. }
    destruct (W3 k f' Hf') as [n Hn]. exists n. by apply Hch.
  - intros k f d Hf Hd. destruct (W4 k f d Hf Hd) as [fd Hfd].
    rewrite lookup_insert. case_decide; eauto.
Qed.

Lemma wf_moveFolder c id P now s g :
  wfView (view s c) → (moveFolder c id P now s).1 = Ok g →
  wfView (view (moveFolder c id P now s).2 c).
Proof.
  intros [W1 W2 W3 W4] (f0 & Hf0 & Hg & HP & ->)%moveFolder_inv. simpl in *.
  assert (Folder.id g = Folder.id f0 ∧ Folder.parentId g = P) as [Hgid Hgp]
    by (by rewrite Hg).
  clear Hg.
  assert (∃ k, chainLength (<[id := g]> (folders_of s c)) (Some id) k) as Hnew.
  { destruct P as [p|].
    - destruct HP as ([fp Hp] & Hne & Hanc). destruct (W3 p fp Hp) as [n Hn].
      exists (S n). econstructor; [apply lookup_insert_eq|]. rewrite Hgp.
      eapply chainLength_clear_insert; [done|]. exact Hanc.
    - exists 1. econstructor; [apply lookup_insert_eq|]. rewrite Hgp. constructor. }
  split; simpl.
  - intros k f. rewrite lookup_insert. case_decide as Hk.
    + intros [= <-]. subst k. rewrite Hgid. by apply W1.
    + apply W1.
  - done.
  - intros k f Hf.
    assert (is_Some (folders_of s c !! k)) as [f' Hf'].
    { revert Hf. rewrite lookup_insert. case_decide; [subst; eauto | eauto]. }
    destruct (W3 k f' Hf') as [n Hn].
    eapply chainLength_reroute; [|exact Hnew|exact Hn].
    intros x Hx. by rewrite lookup_insert_ne.
  - intros k f d Hf Hd. destruct (W4 k f d Hf Hd) as [fd Hfd].
    rewrite lookup_insert. case_decide; eauto.
Qed.

Lemma wf_deleteFolder c F s :
  wfView (view s c) → (deleteFolder c F s).1 = Ok tt →
  wfView (view (deleteFolder c F s).2 c).
Proof.
  intros [W1 W2 W3 W4] Hok. simpl in *.
  assert (isAnonymous c = false ∧ is_Some (folders_of s c !! F)) as [Hauth [f Hf]].
  { unfold deleteFolder, bind in Hok. auth_case c Hok. split; [done|].
    revert Hok. rewrite run_requireAuth by done.
    rewrite run_getUserFolders, run_getUserFiles. autorewrite with views.
    destruct (containsKey (folders_of s c) F) eqn:Hc; [|done]. by apply containsKey_true in Hc. }
  destruct (deleteFolder_run c F f s Hauth Hf) as (_ & D & fs' & fo' & HD & -> & Hfo & Hfs).
  { intros k g Hk. by apply W1. }
  { intros k g Hk. by apply W2. }
  assert (∀ k g, fo' !! k = Some g → folders_of s c !! k = Some g ∧ k ∉ dom D) as Hsubm.
  { intros k g. rewrite Hfo. by case_decide. }
  assert (∀ k g, fs' !! k = Some g →
                 files_of s c !! k = Some g ∧ inDeleteSet D g = false) as Hsubf.
  { intros k g. rewrite Hfs. destruct (files_of s c !! k) as [g'|]; [|done].
    destruct (inDeleteSet D g') eqn:Hdel; [done|]. by intros [= <-]. }
  split; simpl.
  - intros k g [Hk _]%Hsubm. by apply W1.
  - intros k g [Hk _]%Hsubf. by apply W2.
  - intros k g [Hk Hout]%Hsubm. destruct (W3 k g Hk) as [n Hn]. exists n.
    eapply (chainLength_outside _ _ F); [|exact Hn|].
    + intros x Hx. rewrite Hfo. rewrite decide_False; [done|]. by rewrite HD.
    + intros x [= <-]. by rewrite <- HD.
  - intros k g d [Hk Hdel]%Hsubf Hd. destruct (W4 k g d Hk Hd) as [fd Hfd].
    exists fd. rewrite Hfo. rewrite decide_False; [done|].
    unfold inDeleteSet in Hdel. rewrite Hd in Hdel. by apply containsKey_not_dom.
Qed.

Lemma wf_uploadFile c name description tagIds P size fileType blob now s g :
  wfView (view s c) →
  (uploadFile c name description tagIds P size fileType blob now s).1 = Ok g →
  wfView (view (uploadFile c name description tagIds P size fileType blob now s).2 c).
Proof.
  intros [W1 W2 W3 W4] (Hg & HP & ->)%uploadFile_inv. simpl in *.
  assert (FileMetadata.id g = nextFileId_of s c ∧ FileMetadata.folderId g = P) as [Hgid Hgp]
    by (by rewrite Hg).
  clear Hg. split; simpl; try done.
  - intros k f. rewrite lookup_insert. case_decide as Hk.
    + intros [= <-]. subst k. lia.
    + intros Hf. apply W2 in Hf. lia.
  - intros k f d. rewrite lookup_insert. case_decide as Hk.
    + intros [= <-]. rewrite Hgp. by intros ->.
    + apply W4.
Qed.

Lemma wf_updateFile c id name description tagIds now s g :
  wfView (view s c) → (updateFile c id name description tagIds now s).1 = Ok g →
  wfView (view (updateFile c id name description tagIds now s).2 c).
Proof.
  intros [W1 W2 W3 W4] (f0 & Hf0 & _ & Hgid & Hgp & ->)%updateFile_inv. simpl in *.
  split; simpl; try done.
  - intros k f. rewrite lookup_insert. case_decide as Hk.
    + intros [= <-]. subst k. rewrite Hgid. by apply W2.
    + apply W2.
  - intros k f d. rewrite lookup_insert. case_decide as Hk.
    + intros [= <-]. rewrite Hgp. by apply (W4 id f0).
    + apply W4.
Qed.

Lemma wf_moveFile c id P now s g :
  wfView (view s c) → (moveFile c id P now s).1 = Ok g →
  wfView (view (moveFile c id P now s).2 c).
Proof.
  intros [W1 W2 W3 W4] (f0 & Hf0 & _ & Hgid & Hgp & HP & ->)%moveFile_inv. simpl in *.
  split; simpl; try done.
  - intros k f. rewrite lookup_insert. case_decide as Hk.
    + intros [= <-]. subst k. rewrite Hgid. by apply W2.
    + apply W2.
  - intros k f d. rewrite lookup_insert. case_decide as Hk.
    + intros [= <-]. rewrite Hgp. by intros ->.
    + apply W4.
Qed.

Lemma wf_deleteFile c id s :
  wfView (view s c) → (deleteFile c id s).1 = Ok tt →
  wfView (view (deleteFile c id s).2 c).
Proof.
  intros [W1 W2 W3 W4] ->%deleteFile_inv. simpl in *.
  split; simpl; try done.
  - intros k f [_ Hf]%lookup_delete_Some. by apply W2.
  - intros k f d [_ Hf]%lookup_delete_Some. by apply (W4 k f d).
Qed.

Lemma wf_createTag c name color s g :
  wfView (view s c) → (createTag c name color s).1 = Ok g →
  wfView (view (createTag c name color s).2 c).
Proof. intros [W1 W2 W3 W4] (tg & nt & ->)%createTag_inv. by split. Qed.

Lemma wf_updateTag c id name color s g :
  wfView (view s c) → (updateTag c id name color s).1 = Ok g →
  wfView (view (updateTag c id name color s).2 c).
Proof. intros [W1 W2 W3 W4] (tg & nt & ->)%updateTag_inv. by split. Qed.

Lemma wf_deleteTag c id s :
  wfView (view s c) → (deleteTag c id s).1 = Ok tt →
  wfView (view (deleteTag c id s).2 c).
Proof.
  intros [W1 W2 W3 W4] Hok. simpl in *.
  assert (isAnonymous c = false ∧ is_Some (tags_of s c !! id)) as [Hauth [tag Ht]].
  { unfold deleteTag, bind in Hok. auth_case c Hok. split; [done|].
    revert Hok. rewrite run_requireAuth by done.
    rewrite run_getUserTags, run_getUserFiles. autorewrite with views.
    destruct (containsKey (tags_of s c) id) eqn:Hc; [|done]. by apply containsKey_true in Hc. }
  destruct (deleteTag_run c id tag s Hauth Ht) as [_ ->].
  { intros k g Hk. by apply W2. }
  split; simpl; try done.
  - intros k f. rewrite lookup_fmap. destruct (files_of s c !! k) as [f0|] eqn:Hk; [|done].
    simpl. intros [= <-]. simpl. by apply W2.
  - intros k f d. rewrite lookup_fmap. destruct (files_of s c !! k) as [f0|] eqn:Hk; [|done].
    simpl. intros [= <-]. simpl. by apply (W4 k f0).
Qed.

Lemma discard_run {A} (m : M A) s :
  (discard m s).2 = (m s).2
  ∧ ((discard m s).1 = Ok tt ↔ ∃ a, (m s).1 = Ok a)
  ∧ (∀ msg, (discard m s).1 = Trap msg ↔ (m s).1 = Trap msg).
Proof.
  unfold discard, bind. destruct (m s) as [[a|msg] s1]; simpl.
  - split; [done|]. split; [split; eauto|]. intros msg. split; done.
  - split; [done|]. split; [split; [done|by intros [a ?]]|]. intros msg'. split; by intros [= ->].
Qed.

Lemma exec_wf caller now c s :
  (∀ u, wfView (view s u)) → ∀ u, wfView (view (exec caller now c s).2 u).
Proof.
  intros Hwf u. destruct (decide (u = caller)) as [->|Hne].
  2:{ rewrite touchesOnly_exec by done. apply Hwf. }
  destruct (exec caller now c s).1 as [[]|msg] eqn:Hres.
  2:{ rewrite (trapSafe_exec caller now c s msg Hres). apply Hwf. }
  specialize (Hwf caller). destruct c; simpl in *;
    try (destruct (discard_run (createFolder caller name parentId now) s) as (-> & [H _] & _);
         destruct (H Hres) as [g Hg]; by eapply wf_createFolder);
    try (destruct (discard_run (renameFolder caller id newName now) s) as (-> & [H _] & _);
         destruct (H Hres) as [g Hg]; by eapply wf_renameFolder);
    try (destruct (discard_run (moveFolder caller id newParentId now) s) as (-> & [H _] & _);
         destruct (H Hres) as [g Hg]; by eapply wf_moveFolder);
    try (by apply wf_deleteFolder);
    try (destruct (discard_run
           (uploadFile caller name description tagIds folderId size fileType blob now) s)
           as (-> & [H _] & _);
         destruct (H Hres) as [g Hg]; by eapply wf_uploadFile);
    try (destruct (discard_run (updateFile caller id name description tagIds now) s)
           as (-> & [H _] & _);
         destruct (H Hres) as [g Hg]; by eapply wf_updateFile);
    try (destruct (discard_run (moveFile caller id newFolderId now) s) as (-> & [H _] & _);
         destruct (H Hres) as [g Hg]; by eapply wf_moveFile);
    try (by apply wf_deleteFile);
    try (destruct (discard_run (createTag caller name color) s) as (-> & [H _] & _);
         destruct (H Hres) as [g Hg]; by eapply wf_createTag);
    try (destruct (discard_run (updateTag caller id name color) s) as (-> & [H _] & _);
         destruct (H Hres) as [g Hg]; by eapply wf_updateTag);
    try (by apply wf_deleteTag).
Qed.

(** Every reachable state is well formed for every principal. *)
Lemma reachable_wf s : reachable s → ∀ u, wfView (view s u).
Proof.
  induction 1 as [|s caller now c _ IH]; [apply wfView_init | by apply exec_wf].
Qed.

(** ** The cascades *)

(** C4. In a reachable state, for an authenticated caller and a live folder
    [F], [deleteFolder F] returns and afterwards: [F] and every descendant
    folder of [F] no longer resolve; every file located in one of those
    folders no longer resolves; every other folder and every other file
    (root-level files included) is stored unchanged; no file appears; the
    tags and the three counters of the caller, and everything of the other
    principals, are unchanged. *)
Theorem deleteFolder_cascade caller F f s :
  reachable s →
  isAnonymous caller = false →
  folders_of s caller !! F = Some f →
  (deleteFolder caller F s).1 = Ok tt
  ∧ (∀ x, inSubtree (folders_of s caller) F x →
          folders_of (deleteFolder caller F s).2 caller !! x = None)
  ∧ (∀ k file, files_of s caller !! k = Some file →
               fileInSubtree (folders_of s caller) F file →
               files_of (deleteFolder caller F s).2 caller !! k = None)
  ∧ (∀ x, ¬ inSubtree (folders_of s caller) F x →
          folders_of (deleteFolder caller F s).2 caller !! x = folders_of s caller !! x)
  ∧ (∀ k file, files_of s caller !! k = Some file →
               ¬ fileInSubtree (folders_of s caller) F file →
               files_of (deleteFolder caller F s).2 caller !! k = Some file)
  ∧ (∀ k, files_of s caller !! k = None →
          files_of (deleteFolder caller F s).2 caller !! k = None)
  ∧ tags_of (deleteFolder caller F s).2 caller = tags_of s caller
  ∧ nextFileId_of (deleteFolder caller F s).2 caller = nextFileId_of s caller
  ∧ nextFolderId_of (deleteFolder caller F s).2 caller = nextFolderId_of s caller
  ∧ nextTagId_of (deleteFolder caller F s).2 caller = nextTagId_of s caller
  ∧ (∀ v, v ≠ caller → view (deleteFolder caller F s).2 v = view s v).
Proof.
  intros Hreach Hauth Hf.
  destruct (reachable_wf s Hreach caller) as [W1 W2 _ _]. simpl in *.
  destruct (deleteFolder_run caller F f s Hauth Hf)
    as (Hok & D & fs' & fo' & HD & Hview & Hfo & Hfs).
  { intros k g Hk. by apply W1. }
  { intros k g Hk. by apply W2. }
  apply view_inj in Hview as (-> & -> & -> & -> & -> & ->).
  split; [done|].
  split. { intros x Hx. rewrite Hfo. rewrite decide_True; [done|]. by apply HD. }
  split. { intros k file Hk (d & Hd & Hsub). rewrite Hfs, Hk. unfold inDeleteSet.
           rewrite Hd. apply HD, containsKey_dom in Hsub. by rewrite Hsub. }
  split. { intros x Hx. rewrite Hfo. rewrite decide_False; [done|]. by rewrite HD. }
  split. { intros k file Hk Hout. rewrite Hfs, Hk. unfold inDeleteSet.
           destruct (FileMetadata.folderId file) as [d|] eqn:Hd; [|done].
           destruct (containsKey D d) eqn:Hc; [|done]. exfalso. apply Hout.
           exists d. split; [done|]. by apply HD, containsKey_dom. }
  split. { intros k Hk. by rewrite Hfs, Hk. }
  repeat (split; [done|]).
  intros v Hv. exact (touchesOnly_exec caller 0%Z (DeleteFolder F) s v Hv).
Qed.

Lemma deleteFolder_cascade_witness :
  reachable demoState
  ∧ isAnonymous (User 1) = false
  ∧ folders_of demoState (User 1) !! 1 = Some (Folder.mk 1 "docs" None 0%Z 0%Z)
  ∧ (deleteFolder (User 1) 1 demoState).1 = Ok tt
  ∧ (∀ x, inSubtree (folders_of demoState (User 1)) 1 x →
          folders_of (deleteFolder (User 1) 1 demoState).2 (User 1) !! x = None).
Proof.
  split; [apply reachable_runCalls; constructor|].
  split; [reflexivity|]. split; [vm_compute; reflexivity|].
  pose proof (deleteFolder_cascade (User 1) 1 (Folder.mk 1 "docs" None 0%Z 0%Z) demoState)
    as H.
  destruct H as (H1 & H2 & _).
  - apply reachable_runCalls; constructor.
  - reflexivity.
  - vm_compute; reflexivity.
  - split; [exact H1 | exact H2].
Defined.



(** ** Listing all files from the root *)

Lemma List_filter_all {A} (p : A → bool) (l : list A) :
  (∀ x, x ∈ l → p x = true) → List.filter p l = l.
Proof.
  induction l as [|a l IH]; intros Hall; [done|].
  simpl. rewrite Hall by (by left). f_equal. apply IH. intros x Hx. apply Hall. by right.
Qed.

Lemma inClosure_rooted folders seed cur n :
  chainLength folders cur n → ∀ x, cur = Some x → inClosure folders true seed x.
Proof.
  induction 1 as [|x f n Hf Hc IH]; intros y; [done|]. intros [= <-].
  destruct (Folder.parentId f) as [p|] eqn:Hp.
  - eapply closure_child; eauto.
  - by eapply closure_root.
Qed.

(** C10. In a reachable state (where every file is at the root or in a live
    folder, and every folder has an ancestor chain ending at the root),
    [getAllFilesInFolder null] and [getAllFiles] give the same outcome: for
    an authenticated caller both return all the caller's files, in the
    same order. *)
Theorem getAllFilesInFolder_root_is_getAllFiles caller s :
  reachable s →
  (getAllFilesInFolder caller None s).1 = (getAllFiles caller s).1
  ∧ (isAnonymous caller = false →
     (getAllFiles caller s).1 = Ok (values (files_of s caller))).
Proof.
  intros Hreach. destruct (reachable_wf s Hreach caller) as [W1 _ W3 W4]. simpl in *.
  unfold getAllFilesInFolder, getAllFiles, bind.
  destruct (isAnonymous caller) eqn:Hauth.
  { unfold requireAuth. rewrite Hauth. done. }
  rewrite run_requireAuth by done. rewrite run_getUserFolders, run_getUserFiles.
  rewrite run_getUserFiles. autorewrite with views. cbn [fst snd ret].
  split; [|done].
  destruct (whileFoundNew_ends true (folders_of s caller)
              (S (length (values (folders_of s caller)))) ∅) as [D HD].
  { pose proof (uncollected_le_length (folders_of s caller) ∅). lia. }
  rewrite HD. cbn [fst snd ret]. f_equal. apply List_filter_all.
  intros file [k Hk]%elem_of_values. unfold inFolderSet.
  destruct (FileMetadata.folderId file) as [d|] eqn:Hd; [|done].
  destruct (W4 k file d Hk Hd) as [fd Hfd]. destruct (W3 d fd Hfd) as [n Hn].
  apply containsKey_dom.
  eapply (whileFoundNew_closure true (folders_of s caller) _ ∅ D); [|exact HD|].
  - intros k' g Hg. by apply W1.
  - by eapply inClosure_rooted.
Qed.

Lemma getAllFilesInFolder_root_is_getAllFiles_witness :
  reachable demoState
  ∧ (getAllFilesInFolder (User 1) None demoState).1 = (getAllFiles (User 1) demoState).1
  ∧ (isAnonymous (User 1) = false →
     (getAllFiles (User 1) demoState).1 = Ok (values (files_of demoState (User 1)))).
Proof.
  split; [apply reachable_runCalls; constructor|].
  apply (getAllFilesInFolder_root_is_getAllFiles (User 1) demoState).
  apply reachable_runCalls; constructor.
Defined.

(** ** Texts as character arrays *)

Lemma toArray_append (a b : Text) : toArray (a ++ b) = (toArray a ++ toArray b)%list.
Proof. induction a as [|c a IH]; [done|]. rewrite append_cons. simpl. by rewrite IH. Qed.

Lemma toArray_inj (a b : Text) : toArray a = toArray b → a = b.
Proof.
  intros H. rewrite <- (string_of_list_ascii_of_string a), <- (string_of_list_ascii_of_string b).
  unfold toArray in H. by rewrite H.
Qed.

Lemma toArray_of_list l : toArray (string_of_list_ascii l) = l.
Proof. apply list_ascii_of_string_of_list_ascii. Qed.

Lemma toArray_toLower t : toArray (toLower t) = map charToLower (toArray t).
Proof. induction t as [|c t IH]; [done|]. simpl. by rewrite <- IH. Qed.

Lemma toLower_of_list l :
  toLower (string_of_list_ascii l) = string_of_list_ascii (map charToLower l).
Proof. induction l as [|c l IH]; [done|]. simpl. by rewrite IH. Qed.

Lemma textFromRange_loop_spec chars i n result :
  textFromRange_loop chars i n result
  = result ++ string_of_list_ascii (take n (drop i chars)).
Proof.
  revert i result. induction n as [|n IH]; intros i result; simpl.
  - apply toArray_inj. rewrite toArray_append. simpl. by rewrite app_nil_r.
  - destruct (chars !! i) as [c|] eqn:Hc.
    + rewrite IH. rewrite (drop_S _ _ _ Hc). simpl.
      apply toArray_inj. rewrite !toArray_append. simpl. by rewrite <- app_assoc.
    + rewrite drop_ge by (by apply lookup_ge_None). simpl.
      apply toArray_inj. rewrite toArray_append. simpl. by rewrite app_nil_r.
Qed.

Lemma textFromRange_spec chars start endExclusive :
  textFromRange chars start endExclusive
  = string_of_list_ascii (take (endExclusive - start) (drop start chars)).
Proof. unfold textFromRange. by rewrite textFromRange_loop_spec. Qed.

Lemma charToLower_paren_open c : Ascii.eqb (charToLower c) "(" = Ascii.eqb c "(".
Proof. by destruct c as [[] [] [] [] [] [] [] []]. Qed.
Lemma charToLower_paren_close c : Ascii.eqb (charToLower c) ")" = Ascii.eqb c ")".
Proof. by destruct c as [[] [] [] [] [] [] [] []]. Qed.
Lemma charToLower_space c : Ascii.eqb (charToLower c) " " = Ascii.eqb c " ".
Proof. by destruct c as [[] [] [] [] [] [] [] []]. Qed.
Lemma charToLower_dot c : Ascii.eqb (charToLower c) "." = Ascii.eqb c ".".
Proof. by destruct c as [[] [] [] [] [] [] [] []]. Qed.
Lemma charToLower_digit c :
  isDigit (charToLower c) = isDigit c
  ∧ (isDigit c = true → charToLower c = c).
Proof. by destruct c as [[] [] [] [] [] [] [] []]. Qed.

Lemma charAt_lower chars i :
  charAt (map charToLower chars) i = charToLower (charAt chars i).
Proof.
  unfold charAt. revert i. induction chars as [|c r IH]; intros [|i]; simpl; try done.
Qed.

Lemma findOpenParen_lower chars pos :
  findOpenParen (map charToLower chars) pos = findOpenParen chars pos.
Proof.
  induction pos as [|p IH]; [done|]. simpl.
  by rewrite charAt_lower, charToLower_paren_open, IH.
Qed.

Lemma parseDigits_lower chars j n num :
  parseDigits (map charToLower chars) j n num = parseDigits chars j n num.
Proof.
  revert j num. induction n as [|n IH]; intros j num; [done|]. simpl.
  rewrite charAt_lower. destruct (charToLower_digit (charAt chars j)) as [-> Hd].
  destruct (isDigit (charAt chars j)) eqn:Hdig; [|done]. by rewrite Hd, IH.
Qed.

Lemma findLastDot_lower chars i lastDot :
  findLastDot (map charToLower chars) i lastDot = findLastDot chars i lastDot.
Proof.
  revert i lastDot. induction chars as [|c r IH]; intros i lastDot; [done|].
  simpl. by rewrite charToLower_dot, IH.
Qed.

Lemma textFromRange_lower chars start endExclusive :
  textFromRange (map charToLower chars) start endExclusive
  = toLower (textFromRange chars start endExclusive).
Proof.
  rewrite !textFromRange_spec, toLower_of_list.
  change (map charToLower) with (fmap (M:=list) charToLower).
  by rewrite fmap_take, fmap_drop.
Qed.

Lemma parseNameSuffix_lower name :
  parseNameSuffix (toLower name)
  = (toLower (parseNameSuffix name).1, (parseNameSuffix name).2).
Proof.
  unfold parseNameSuffix. rewrite toArray_toLower, length_map.
  rewrite !charAt_lower, charToLower_paren_close, findOpenParen_lower.
  destruct (_ || _); [done|].
  destruct (findOpenParen _ _) as [pStart|]; [|done].
  rewrite charAt_lower, charToLower_space.
  destruct (_ || _); [done|].
  destruct (_ <=? _); [done|].
  rewrite parseDigits_lower. destruct (parseDigits _ _ _ _); [|done].
  by rewrite textFromRange_lower.
Qed.

Lemma parseFileNameSuffix_lower name :
  parseFileNameSuffix (toLower name)
  = (toLower (parseFileNameSuffix name).1.1, toLower (parseFileNameSuffix name).1.2,
     (parseFileNameSuffix name).2).
Proof.
  unfold parseFileNameSuffix. rewrite toArray_toLower, length_map, findLastDot_lower.
  destruct (findLastDot _ _ _) as [dotPos|].
  - destruct (dotPos =? 0).
    + rewrite parseNameSuffix_lower. by destruct (parseNameSuffix name).
    + rewrite !textFromRange_lower, parseNameSuffix_lower.
      by destruct (parseNameSuffix _).
  - rewrite parseNameSuffix_lower. by destruct (parseNameSuffix name).
Qed.

(** ** Generated names parse back *)

Lemma charAt_app_l (l1 l2 : list ascii) i :
  i < length l1 → charAt (l1 ++ l2)%list i = charAt l1 i.
Proof. intros Hi. unfold charAt. by apply app_nth1. Qed.

Lemma charAt_app_r (l1 l2 : list ascii) i :
  length l1 ≤ i → charAt (l1 ++ l2)%list i = charAt l2 (i - length l1).
Proof. intros Hi. unfold charAt. by apply app_nth2. Qed.

Lemma charAt_middle (l1 l2 : list ascii) c :
  charAt (l1 ++ c :: l2)%list (length l1) = c.
Proof. unfold charAt. apply nth_middle. Qed.

Lemma parseDigits_digitsFold (pre ds post : list ascii) num :
  parseDigits (pre ++ ds ++ post)%list (length pre) (length ds) num = digitsFold ds num.
Proof.
  revert pre num. induction ds as [|c r IH]; intros pre num; [done|].
  cbn [length parseDigits digitsFold app]. rewrite charAt_middle.
  destruct (isDigit c); [|done].
  replace (pre ++ c :: r ++ post)%list with ((pre ++ [c]) ++ r ++ post)%list
    by (by rewrite <- app_assoc).
  replace (S (length pre)) with (length (pre ++ [c])%list)
    by (rewrite length_app; simpl; lia).
  apply IH.
Qed.

Lemma digitsFold_uint d num :
  digitsFold (toArray (NilEmpty.string_of_uint d)) num = Some (Nat.of_uint_acc d num).
Proof.
  revert num. induction d as [|d IH|d IH|d IH|d IH|d IH|d IH|d IH|d IH|d IH|d IH];
    intros num; [done|..];
    cbn [NilEmpty.string_of_uint toArray list_ascii_of_string digitsFold Nat.of_uint_acc];
    change (list_ascii_of_string ?s) with (toArray s);
    rewrite Nat.tail_mul_spec;
    match goal with |- context [isDigit ?c] => change (isDigit c) with true end;
    cbn [digitsFold]; cbv iota; rewrite IH; f_equal; f_equal;
    match goal with |- context [nat_of_ascii ?c] =>
      let v := eval vm_compute in (nat_of_ascii c - 48) in
      change (nat_of_ascii c - 48) with v end; lia.
Qed.

Lemma digitsFold_natToText n : digitsFold (toArray (natToText n)) 0 = Some n.
Proof.
  unfold natToText. rewrite digitsFold_uint. f_equal. apply Unsigned.of_to.
Qed.

Lemma digitsFold_all ds num n :
  digitsFold ds num = Some n → Forall (λ c, isDigit c = true) ds.
Proof.
  revert num. induction ds as [|c r IH]; intros num; [constructor|]. simpl.
  destruct (isDigit c) eqn:Hc; [|done]. intros H. constructor; [done|]. by eapply IH.
Qed.

Lemma digitsFold_ge ds num n : digitsFold ds num = Some n → num ≤ n.
Proof.
  revert num. induction ds as [|c r IH]; intros num; simpl; [intros [= <-]; lia|].
  destruct (isDigit c); [|done]. intros H%IH. lia.
Qed.

Lemma natToText_length n :
  1 ≤ length (toArray (natToText n)) ∧ (10 ≤ n → 2 ≤ length (toArray (natToText n))).
Proof.
  pose proof (digitsFold_natToText n) as H.
  destruct (toArray (natToText n)) as [|c [|c' r]] eqn:E; simpl in *.
  - injection H as <-. unfold natToText in E. done.
  - split; [lia|]. intros Hn. unfold isDigit in H.
    destruct (_ && _) eqn:Hd; [|done]. injection H as <-.
    apply andb_true_iff in Hd as [_ Hd%Nat.leb_le]. lia.
  - split; [lia|]. lia.
Qed.

Lemma isDigit_not_paren c : isDigit c = true → Ascii.eqb c "(" = false.
Proof. by destruct c as [[] [] [] [] [] [] [] []]. Qed.

Lemma findOpenParen_skip (pre ds post : list ascii) j :
  1 ≤ length pre → j ≤ length ds →
  Forall (λ c, isDigit c = true) ds →
  findOpenParen (pre ++ "("%char :: ds ++ post)%list (length pre + j) = Some (length pre).
Proof.
  intros Hpre Hj Hds. induction j as [|j IH].
  - rewrite Nat.add_0_r. destruct (length pre) as [|p] eqn:Hp; [lia|].
    cbn [findOpenParen]. rewrite <- Hp, charAt_middle. done.
  - rewrite Nat.add_succ_r. cbn [findOpenParen].
    rewrite charAt_app_r by lia.
    replace (S (length pre + j) - length pre) with (S j) by lia.
    unfold charAt at 1. cbn [nth].
    fold (charAt (ds ++ post)%list j). rewrite charAt_app_l by lia.
    assert (isDigit (charAt ds j) = true) as Hd.
    { destruct (ds !! j) as [c|] eqn:Hc.
      - unfold charAt. rewrite (nth_lookup_Some _ _ _ _ Hc).
        by eapply Forall_lookup_1 in Hds.
      - apply lookup_ge_None in Hc. lia. }
    rewrite (isDigit_not_paren _ Hd). apply IH. lia.
Qed.

Lemma parseNameSuffix_generated (base : Text) n :
  base ≠ "" ∨ 10 ≤ n →
  parseNameSuffix (base ++ " (" ++ natToText n ++ ")") = (base, n).
Proof.
  intros Hlen. unfold parseNameSuffix.
  pose proof (digitsFold_natToText n) as Hdig.
  pose proof (natToText_length n) as [Hl1 Hl2].
  assert (toArray (base ++ " (" ++ natToText n ++ ")")
          = ((toArray base ++ [" "%char]) ++ "("%char :: toArray (natToText n) ++ [")"%char])%list)
    as ->.
  { rewrite !toArray_append. simpl. by rewrite <- app_assoc. }
  set (pre := (toArray base ++ [" "%char])%list).
  set (ds := toArray (natToText n)) in *.
  set (chars := (pre ++ "("%char :: ds ++ [")"%char])%list).
  set (p := length (toArray base) + 1).
  assert (length pre = p) as Hpre by (subst pre p; rewrite length_app; simpl; lia).
  assert (1 ≤ length (toArray base) ∨ 2 ≤ length ds) as Hlen'.
  { destruct Hlen as [Hb|Hn]; [left|right; by apply Hl2].
    destruct base; [done|simpl; lia]. }
  assert (length chars = p + length ds + 2) as Hlen2.
  { subst chars. rewrite length_app. simpl. rewrite length_app. simpl. lia. }
  assert ((length chars <? 5) = false) as H2 by (apply Nat.ltb_ge; lia).
  assert (charAt chars (length chars - 1) = ")"%char) as H3.
  { subst chars. replace (pre ++ "("%char :: ds ++ [")"%char])%list
      with ((pre ++ "("%char :: ds) ++ [")"%char])%list by (by rewrite <- app_assoc).
    replace (length ((pre ++ "("%char :: ds) ++ [")"%char])%list - 1)
      with (length (pre ++ "("%char :: ds)%list)
      by (rewrite !length_app; simpl; lia).
    apply charAt_middle. }
  assert (findOpenParen chars (length chars - 2) = Some p) as H4.
  { replace (length chars - 2) with (length pre + length ds) by lia.
    rewrite <- Hpre. subst chars.
    apply findOpenParen_skip; [lia | lia | by eapply digitsFold_all]. }
  assert ((p =? 0) = false) as H5 by (apply Nat.eqb_neq; lia).
  assert (charAt chars (p - 1) = " "%char) as H6.
  { subst chars pre. rewrite <- app_assoc.
    replace (p - 1) with (length (toArray base)) by lia. apply charAt_middle. }
  assert ((length chars - 1 <=? p + 1) = false) as H7 by (apply Nat.leb_gt; lia).
  assert (parseDigits chars (p + 1) (length chars - 1 - (p + 1)) 0 = Some n) as H8.
  { replace (length chars - 1 - (p + 1)) with (length ds) by lia.
    subst chars. replace (pre ++ "("%char :: ds ++ [")"%char])%list
      with ((pre ++ ["("%char]) ++ ds ++ [")"%char])%list by (by rewrite <- app_assoc).
    replace (p + 1) with (length (pre ++ ["("%char])%list)
      by (rewrite length_app; simpl; lia).
    by rewrite parseDigits_digitsFold. }
  assert (textFromRange chars 0 (p - 1) = base) as H9.
  { rewrite textFromRange_spec. apply toArray_inj. rewrite toArray_of_list.
    subst chars pre. rewrite drop_0, <- app_assoc.
    replace (p - 1 - 0) with (length (toArray base)) by lia.
    by rewrite take_app_length. }
  rewrite H2, H3, H4. cbv beta iota zeta.
  replace (false || negb (Ascii.eqb ")" ")")) with false by done.
  cbv iota. rewrite H5, H6.
  replace (false || negb (Ascii.eqb " " " ")) with false by done.
  cbv iota. rewrite H7, H8. cbv iota. by rewrite H9.
Qed.

(** ** Resolution of file names *)

Lemma findLastDot_spec chars i lastDot p :
  findLastDot chars i lastDot = Some p →
  lastDot = Some p ∨ (i ≤ p ∧ chars !! (p - i) = Some "."%char).
Proof.
  revert i lastDot. induction chars as [|c r IH]; intros i lastDot; simpl; [by left|].
  intros [Hacc|[Hle Hp]]%IH.
  - destruct (Ascii.eqb_spec c ".") as [->|Hc]; [|by left].
    injection Hacc as <-. right. split; [lia|]. by rewrite Nat.sub_diag.
  - right. split; [lia|]. by replace (p - i) with (S (p - S i)) by lia.
Qed.

Lemma parseFileNameSuffix_cases name B E k :
  parseFileNameSuffix name = (B, E, k) →
  (E = "" ∧ parseNameSuffix name = (B, k))
  ∨ (∃ bws, parseNameSuffix bws = (B, k) ∧ name = bws ++ "." ++ E).
Proof.
  unfold parseFileNameSuffix.
  destruct (findLastDot (toArray name) 0 None) as [dotPos|] eqn:Hdot.
  2:{ destruct (parseNameSuffix name) as [b k']. intros [= <- <- <-]. by left. }
  destruct (dotPos =? 0) eqn:Hz.
  { destruct (parseNameSuffix name) as [b k']. intros [= <- <- <-]. by left. }
  destruct (parseNameSuffix (textFromRange (toArray name) 0 dotPos)) as [b k'] eqn:Hp.
  intros [= <- <- <-]. right. eexists. split; [exact Hp|].
  apply findLastDot_spec in Hdot as [?|[_ Hc]]; [done|]. rewrite Nat.sub_0_r in Hc.
  apply toArray_inj. rewrite !toArray_append, !textFromRange_spec, !toArray_of_list.
  rewrite drop_0, Nat.sub_0_r. simpl.
  rewrite (take_ge (drop (dotPos + 1) (toArray name))) by (rewrite length_drop; lia).
  replace (dotPos + 1) with (S dotPos) by lia. by rewrite take_drop_middle.
Qed.

Lemma generated_ne_parsed name B k n :
  parseNameSuffix name = (B, k) → k < n →
  B ++ " (" ++ natToText n ++ ")" ≠ name.
Proof.
  intros Hp Hlt Heq. destruct (decide (B = "")) as [->|HB].
  - destruct (decide (10 ≤ n)) as [Hn|Hn].
    + rewrite <- Heq, parseNameSuffix_generated in Hp by (by right).
      injection Hp as <-. lia.
    + subst name. do 10 (destruct n as [|n]; [by vm_compute in Hp|]). lia.
  - rewrite <- Heq, parseNameSuffix_generated in Hp by (by left).
    injection Hp as <-. lia.
Qed.

Lemma generated_ne_desired desiredName B E k n :
  parseFileNameSuffix desiredName = (B, E, k) → k < n →
  (if String.eqb E "" then B ++ " (" ++ natToText n ++ ")"
   else B ++ " (" ++ natToText n ++ ")." ++ E) ≠ desiredName.
Proof.
  intros [[-> Hp]|(bws & Hp & ->)]%parseFileNameSuffix_cases Hlt.
  - simpl. by eapply generated_ne_parsed.
  - destruct (String.eqb_spec E "") as [->|HE].
    + intros Heq%(f_equal toArray).
      assert (toArray (B ++ " (" ++ natToText n ++ ")")
              = (toArray (B ++ " (" ++ natToText n) ++ [")"%char])%list) as Hl.
      { rewrite !toArray_append. simpl. by rewrite <- !app_assoc. }
      assert (toArray (bws ++ "." ++ "") = (toArray bws ++ ["."%char])%list) as Hr.
      { by rewrite toArray_append. }
      rewrite Hl, Hr in Heq. apply app_inj_tail in Heq as [_ Hc]. discriminate Hc.
    + intros Heq%(f_equal toArray).
      assert (toArray (B ++ " (" ++ natToText n ++ ")." ++ E)
              = (toArray (B ++ " (" ++ natToText n ++ ")") ++ toArray ("." ++ E))%list) as Hl.
      { rewrite !toArray_append.
        change (toArray ").") with (toArray ")" ++ toArray ".")%list.
        by rewrite <- !app_assoc. }
      rewrite Hl, (toArray_append bws) in Heq. apply app_inv_tail in Heq.
      apply toArray_inj in Heq. by eapply generated_ne_parsed.
Qed.

Lemma fileSuffixStep_mono folderId excludeId B E m f :
  m ≤ fileSuffixStep folderId excludeId B E m f.
Proof.
  unfold fileSuffixStep. destruct (_ && _); [|lia].
  destruct (parseFileNameSuffix (FileMetadata.name f)) as [[eb ee] es].
  destruct (_ && _ && (m <=? es)) eqn:Hc.
  - apply andb_true_iff in Hc as [_ Hle%Nat.leb_le].
    replace (es + 1 =? 0) with false by (symmetry; apply Nat.eqb_neq; lia).
    rewrite andb_false_r. lia.
  - destruct (_ && (m =? 0)) eqn:Hz; [|lia].
    apply andb_true_iff in Hz as [_ Hz%Nat.eqb_eq]. lia.
Qed.

Lemma fileSuffixStep_gt folderId excludeId B E m f eb ee es :
  isFileSibling folderId excludeId f = true →
  parseFileNameSuffix (FileMetadata.name f) = (eb, ee, es) →
  namesEqual eb B = true → namesEqual ee E = true →
  es < fileSuffixStep folderId excludeId B E m f.
Proof.
  intros Hsib Hp Hb He. unfold fileSuffixStep. unfold isFileSibling in Hsib.
  rewrite Hsib, Hp, Hb, He. cbn [andb].
  destruct (Nat.leb_spec m es) as [Hle|Hgt].
  - replace (es + 1 =? 0) with false by (symmetry; apply Nat.eqb_neq; lia).
    rewrite andb_false_r. lia.
  - replace (m =? 0) with false by (symmetry; apply Nat.eqb_neq; lia).
    rewrite andb_false_r. lia.
Qed.

Lemma foldl_fileSuffixStep_mono folderId excludeId B E l m :
  m ≤ foldl (fileSuffixStep folderId excludeId B E) m l.
Proof.
  revert m. induction l as [|f l IH]; intros m; [done|]. cbn [foldl].
  etrans; [|apply IH]. apply fileSuffixStep_mono.
Qed.

Lemma foldl_fileSuffixStep_gt folderId excludeId B E l m f eb ee es :
  f ∈ l →
  isFileSibling folderId excludeId f = true →
  parseFileNameSuffix (FileMetadata.name f) = (eb, ee, es) →
  namesEqual eb B = true → namesEqual ee E = true →
  es < foldl (fileSuffixStep folderId excludeId B E) m l.
Proof.
  intros Hin Hsib Hp Hb He. revert m. induction l as [|a l IH]; intros m;
    [by apply elem_of_nil in Hin|].
  cbn [foldl]. apply elem_of_cons in Hin as [<-|Hin]; [|by apply IH].
  eapply Nat.lt_le_trans; [|apply foldl_fileSuffixStep_mono].
  by eapply fileSuffixStep_gt.
Qed.

Lemma fileSiblingNames_spec folderId excludeId files x :
  x ∈ fileSiblingNames folderId excludeId files ↔
  ∃ f, f ∈ values files ∧ isFileSibling folderId excludeId f = true
       ∧ toLower (FileMetadata.name f) = x.
Proof.
  unfold fileSiblingNames.
  assert (∀ l (acc : gset string),
            x ∈ foldl (λ existingNames file,
                         if negb (shouldExclude excludeId (FileMetadata.id file))
                            && optEq (FileMetadata.folderId file) folderId
                         then {[ toLower (FileMetadata.name file) ]} ∪ existingNames
                         else existingNames) acc l
            ↔ x ∈ acc ∨ ∃ f, f ∈ l ∧ isFileSibling folderId excludeId f = true
                             ∧ toLower (FileMetadata.name f) = x) as Hgen.
  { induction l as [|a l IH]; intros acc; cbn [foldl].
    - split; [by left|]. intros [?|(f & Hf & _)]; [done|]. by apply elem_of_nil in Hf.
    - rewrite IH. fold (isFileSibling folderId excludeId a).
      destruct (isFileSibling folderId excludeId a) eqn:Ha.
      + rewrite elem_of_union, elem_of_singleton. split.
        * intros [[->|?]|(f & Hf & ?)]; [right; exists a; split; [by left|done] | by left |].
          right. exists f. split; [by right|done].
        * intros [?|(f & [->|Hf]%elem_of_cons & Hs & Hx)]; [by left; right | by left; left |].
          right. by exists f.
      + split.
        * intros [?|(f & Hf & ?)]; [by left|]. right. exists f. split; [by right|done].
        * intros [?|(f & [->|Hf]%elem_of_cons & Hs & Hx)]; [by left | congruence |].
          right. by exists f. }
  rewrite Hgen. split; [intros [?|?]; [set_solver|done] | by right].
Qed.

Lemma isFileSibling_spec folderId excludeId f :
  isFileSibling folderId excludeId f = true
  ↔ FileMetadata.folderId f = folderId ∧ excludeId ≠ Some (FileMetadata.id f).
Proof.
  unfold isFileSibling, shouldExclude, optEq.
  rewrite andb_true_iff, negb_true_iff, bool_decide_eq_true.
  destruct excludeId as [eid|].
  - rewrite bool_decide_eq_false. split; intros [H1 H2]; split; congruence.
  - split; intros [H1 H2]; done.
Qed.

Lemma lower_eq_parse a b :
  toLower a = toLower b →
  namesEqual (parseFileNameSuffix a).1.1 (parseFileNameSuffix b).1.1 = true
  ∧ namesEqual (parseFileNameSuffix a).1.2 (parseFileNameSuffix b).1.2 = true
  ∧ (parseFileNameSuffix a).2 = (parseFileNameSuffix b).2.
Proof.
  unfold namesEqual. intros Hab.
  pose proof (parseFileNameSuffix_lower a) as Ha.
  pose proof (parseFileNameSuffix_lower b) as Hb.
  rewrite Hab, Hb in Ha. injection Ha as H1 H2 H3.
  rewrite H1, H2, H3, !String.eqb_refl. done.
Qed.

Lemma collides_parse a b :
  collides a b →
  equalIgnoringCase (parseFileNameSuffix a).1.1 (parseFileNameSuffix b).1.1 = true
  ∧ equalIgnoringCase (parseFileNameSuffix a).1.2 (parseFileNameSuffix b).1.2 = true
  ∧ (parseFileNameSuffix a).2 = (parseFileNameSuffix b).2.
Proof.
  unfold collides. intros Hab%equalIgnoringCase_spec.
  destruct (lower_eq_parse a b Hab) as (H1 & H2 & H3).
  by rewrite <- !namesEqual_spec.
Qed.

Lemma fileCollision_spec files folderId excludeId desiredName :
  fileCollision files folderId excludeId desiredName
  ↔ toLower desiredName ∈ fileSiblingNames folderId excludeId files.
Proof.
  unfold fileCollision, collides. rewrite fileSiblingNames_spec. split.
  - intros (k & f & Hk & Hfo & Hex & Hcol%equalIgnoringCase_spec).
    exists f. split; [apply elem_of_values; eauto|].
    split; [by apply isFileSibling_spec | done].
  - intros (f & [k Hk]%elem_of_values & [Hfo Hex]%isFileSibling_spec & Hlow).
    exists k, f. split; [done|]. split; [done|]. split; [done|].
    by apply equalIgnoringCase_spec.
Qed.

Lemma uniqueFileNameIn_spec files folderId desiredName excludeId :
  uniqueFileNameIn files folderId desiredName excludeId = desiredName
  ↔ ¬ fileCollision files folderId excludeId desiredName.
Proof.
  rewrite fileCollision_spec. unfold uniqueFileNameIn.
  destruct (bool_decide (toLower desiredName ∈ fileSiblingNames folderId excludeId files))
    eqn:Hin; cbn [negb].
  - apply bool_decide_eq_true in Hin. split; [|done]. intros Heq. exfalso. revert Heq.
    apply fileSiblingNames_spec in Hin as (f & Hf & Hsib & Hlow).
    destruct (parseFileNameSuffix desiredName) as [[B E] kd] eqn:Hp.
    destruct (lower_eq_parse (FileMetadata.name f) desiredName Hlow) as (Hb & He & Hs).
    destruct (parseFileNameSuffix (FileMetadata.name f)) as [[eb ee] es] eqn:Hpf.
    rewrite Hp in Hb, He, Hs. simpl in Hb, He, Hs. subst es.
    apply (generated_ne_desired desiredName B E kd); [done|].
    eapply foldl_fileSuffixStep_gt; eauto.
  - apply bool_decide_eq_false in Hin. done.
Qed.

(** C8. [getUniqueFileName] returns the desired name unchanged exactly when
    no sibling collides with it: no stored file located in the target
    folder, other than the excluded file, has a name equal to it ignoring
    case.  Names that collide have the same suffix-parsed base and the same
    extension, both ignoring case.  [uploadFile], [updateFile] and
    [moveFile] store the name resolved this way: [uploadFile] excludes no
    file, [updateFile] and [moveFile] exclude the file they are applied
    to, and the stored name is the requested one exactly when it has no
    collision. *)
Theorem getUniqueFileName_unchanged_iff user folderId desiredName excludeId s :
  (∃ r, (getUniqueFileName user folderId desiredName excludeId s).1 = Ok r
        ∧ (r = desiredName
           ↔ ¬ fileCollision (files_of s user) folderId excludeId desiredName))
  ∧ (∀ a b, collides a b →
            equalIgnoringCase (parseFileNameSuffix a).1.1 (parseFileNameSuffix b).1.1 = true
            ∧ equalIgnoringCase (parseFileNameSuffix a).1.2 (parseFileNameSuffix b).1.2 = true)
  ∧ (∀ name description tagIds size fileType blob now g,
       (uploadFile user name description tagIds folderId size fileType blob now s).1 = Ok g →
       FileMetadata.name g = uniqueFileNameIn (files_of s user) folderId name None
       ∧ (FileMetadata.name g = name
          ↔ ¬ fileCollision (files_of s user) folderId None name))
  ∧ (∀ id name description tagIds now g,
       (updateFile user id name description tagIds now s).1 = Ok g →
       ∃ f, files_of s user !! id = Some f
            ∧ FileMetadata.name g
              = uniqueFileNameIn (files_of s user) (FileMetadata.folderId f) name (Some id)
            ∧ (FileMetadata.name g = name
               ↔ ¬ fileCollision (files_of s user) (FileMetadata.folderId f) (Some id) name))
  ∧ (∀ id now g,
       (moveFile user id folderId now s).1 = Ok g →
       ∃ f, files_of s user !! id = Some f
            ∧ FileMetadata.name g
              = uniqueFileNameIn (files_of s user) folderId (FileMetadata.name f) (Some id)
            ∧ (FileMetadata.name g = FileMetadata.name f
               ↔ ¬ fileCollision (files_of s user) folderId (Some id) (FileMetadata.name f))).
Proof.
  split.
  { rewrite run_getUniqueFileName. eexists. split; [done|]. apply uniqueFileNameIn_spec. }
  split.
  { intros a b Hab. destruct (collides_parse a b Hab) as (? & ? & _). done. }
  split.
  { intros name description tagIds size fileType blob now g (-> & _)%uploadFile_inv.
    split; [done|]. apply uniqueFileNameIn_spec. }
  split.
  { intros id name description tagIds now g (f & Hf & Hn & _)%updateFile_inv.
    exists f. split; [done|]. split; [done|]. rewrite Hn. apply uniqueFileNameIn_spec. }
  intros id now g (f & Hf & Hn & _)%moveFile_inv.
  exists f. split; [done|]. split; [done|]. rewrite Hn. apply uniqueFileNameIn_spec.
Qed.

(** *** The suffix chosen on a collision *)

Lemma fileSuffixStep_le folderId excludeId B E n m f :
  m ≤ n + 1 →
  (isFileSibling folderId excludeId f = true →
   namesEqual (parseFileNameSuffix (FileMetadata.name f)).1.1 B = true →
   namesEqual (parseFileNameSuffix (FileMetadata.name f)).1.2 E = true →
   (parseFileNameSuffix (FileMetadata.name f)).2 ≤ n) →
  fileSuffixStep folderId excludeId B E m f ≤ n + 1.
Proof.
  intros Hm Hf. unfold fileSuffixStep. fold (isFileSibling folderId excludeId f).
  destruct (isFileSibling folderId excludeId f); [|done].
  destruct (parseFileNameSuffix (FileMetadata.name f)) as [[eb ee] es]. simpl in Hf.
  destruct (namesEqual eb B && namesEqual ee E && (m <=? es)) eqn:Hc.
  - apply andb_true_iff in Hc as [[Hb He]%andb_true_iff _].
    pose proof (Hf eq_refl Hb He).
    replace (es + 1 =? 0) with false by (symmetry; apply Nat.eqb_neq; lia).
    rewrite andb_false_r. lia.
  - destruct (_ && (m =? 0)); lia.
Qed.

Lemma foldl_fileSuffixStep_le folderId excludeId B E n l m :
  m ≤ n + 1 →
  (∀ f, f ∈ l → isFileSibling folderId excludeId f = true →
        namesEqual (parseFileNameSuffix (FileMetadata.name f)).1.1 B = true →
        namesEqual (parseFileNameSuffix (FileMetadata.name f)).1.2 E = true →
        (parseFileNameSuffix (FileMetadata.name f)).2 ≤ n) →
  foldl (fileSuffixStep folderId excludeId B E) m l ≤ n + 1.
Proof.
  revert m. induction l as [|a l IH]; intros m Hm Hall; [done|]. cbn [foldl].
  apply IH.
  - apply fileSuffixStep_le; [done|]. apply Hall. by left.
  - intros f Hf. apply Hall. by right.
Qed.

(** On a collision the name returned carries the greatest suffix found
    among the siblings with the same base and extension, plus one. *)
Lemma uniqueFileNameIn_collision files folderId excludeId desiredName B E k n :
  parseFileNameSuffix desiredName = (B, E, k) →
  fileCollision files folderId excludeId desiredName →
  siblingSuffix files folderId excludeId B E n →
  (∀ m, siblingSuffix files folderId excludeId B E m → m ≤ n) →
  uniqueFileNameIn files folderId desiredName excludeId
  = if String.eqb E "" then B ++ " (" ++ natToText (n + 1) ++ ")"
    else B ++ " (" ++ natToText (n + 1) ++ ")." ++ E.
Proof.
  intros Hp Hcol%fileCollision_spec (k0 & f0 & Hk0 & Hfo & Hex & Hb0 & He0 & Hs0) Hmax.
  unfold uniqueFileNameIn.
  rewrite (bool_decide_eq_true_2 _ Hcol). cbn [negb]. rewrite Hp.
  assert (foldl (fileSuffixStep folderId excludeId B E) 0 (values files) = n + 1) as ->;
    [|done].
  apply Nat.le_antisymm.
  - apply foldl_fileSuffixStep_le; [lia|].
    intros f [kf Hkf]%elem_of_values [Hfo' Hex']%isFileSibling_spec Hb%namesEqual_spec
      He%namesEqual_spec.
    apply Hmax. by exists kf, f.
  - assert (n < foldl (fileSuffixStep folderId excludeId B E) 0 (values files)); [|lia].
    destruct (parseFileNameSuffix (FileMetadata.name f0)) as [[eb ee] es] eqn:Hpf.
    simpl in Hb0, He0, Hs0. subst es.
    eapply foldl_fileSuffixStep_gt; [apply elem_of_values; eauto| |exact Hpf| |].
    + by apply isFileSibling_spec.
    + by apply namesEqual_spec.
    + by apply namesEqual_spec.
Qed.

Lemma assertTagsExist_loop_run (m : gmap nat Tag.t) tagIds s :
  (∀ t, t ∈ tagIds → is_Some (m !! t)) → (assertTagsExist_loop m tagIds s).1 = Ok tt.
Proof.
  induction tagIds as [|a r IH]; intros Hall; [done|]. simpl.
  assert (containsKey m a = true) as -> by (apply containsKey_true, Hall; by left).
  simpl. apply IH. intros t Ht. apply Hall. by right.
Qed.

(** [updateFile] on an existing file, with a name that is not empty and
    tags that exist, returns the record with the resolved name. *)
Lemma updateFile_run c id name description tagIds now s f :
  isAnonymous c = false →
  (∀ t, t ∈ tagIds → is_Some (tags_of s c !! t)) →
  name ≠ "" →
  files_of s c !! id = Some f →
  FileMetadata.name <$> (updateFile c id name description tagIds now s).1
  = Ok (uniqueFileNameIn (files_of s c) (FileMetadata.folderId f) name (Some id)).
Proof.
  intros Hauth Htags Hname Hf. unfold updateFile, bind. mrun.
  rewrite (assertTagsExist_loop_run _ _ _ Htags). mrun.
  destruct (String.eqb_spec name ""); [done|]. mrun. rewrite Hf. by mrun.
Qed.

(** C7. For an authenticated caller renaming an existing file with
    [updateFile] (tags that exist):
    - to "photo.jpg", when another file of the same folder has that name
      (up to case) and no other file of the folder whose name parses to
      base "photo" and extension "jpg" has a suffix above 0, the stored
      name is "photo (1).jpg";
    - to "photo (1).jpg", when another file of the same folder has that
      name (up to case) and no other file of the folder whose name parses to
      base "photo" and extension "jpg" has a suffix above 1 (so the folder
      may hold "photo.jpg" as well), the stored name is "photo (2).jpg". *)
Theorem rename_photo_collisions caller id f description tagIds now s :
  isAnonymous caller = false →
  files_of s caller !! id = Some f →
  (∀ t, t ∈ tagIds → is_Some (tags_of s caller !! t)) →
  (fileCollision (files_of s caller) (FileMetadata.folderId f) (Some id) "photo.jpg" →
   (∀ n, siblingSuffix (files_of s caller) (FileMetadata.folderId f) (Some id)
                       "photo" "jpg" n → n ≤ 0) →
   FileMetadata.name <$> (updateFile caller id "photo.jpg" description tagIds now s).1
   = Ok "photo (1).jpg")
  ∧ (fileCollision (files_of s caller) (FileMetadata.folderId f) (Some id) "photo (1).jpg" →
     (∀ n, siblingSuffix (files_of s caller) (FileMetadata.folderId f) (Some id)
                         "photo" "jpg" n → n ≤ 1) →
     FileMetadata.name <$> (updateFile caller id "photo (1).jpg" description tagIds now s).1
     = Ok "photo (2).jpg").
Proof.
  intros Hauth Hf Htags. split; intros Hcol Hmax;
    rewrite (updateFile_run _ _ _ _ _ _ _ f) by done; f_equal.
  - rewrite (uniqueFileNameIn_collision _ _ _ _ "photo" "jpg" 0 0); [done|done|done| |done].
    destruct Hcol as (k & g & Hk & Hfo & Hex & Hc). exists k, g.
    destruct (collides_parse _ _ Hc) as (Hb & He & Hs). done.
  - rewrite (uniqueFileNameIn_collision _ _ _ _ "photo" "jpg" 1 1); [done|done|done| |done].
    destruct Hcol as (k & g & Hk & Hfo & Hex & Hc). exists k, g.
    destruct (collides_parse _ _ Hc) as (Hb & He & Hs). done.
Qed.

(** A bound on the sibling suffixes, checked by running over the files. *)
Lemma siblingSuffix_bounded files folderId excludeId B E bound :
  forallb (λ file,
             negb (isFileSibling folderId excludeId file
                   && equalIgnoringCase (parseFileNameSuffix (FileMetadata.name file)).1.1 B
                   && equalIgnoringCase (parseFileNameSuffix (FileMetadata.name file)).1.2 E)
             || ((parseFileNameSuffix (FileMetadata.name file)).2 <=? bound))
          (values files) = true →
  ∀ n, siblingSuffix files folderId excludeId B E n → n ≤ bound.
Proof.
  intros Hall n (k & f & Hk & Hfo & Hex & Hb & He & <-).
  rewrite forallb_forall in Hall.
  assert (In f (values files)) as Hin by (apply list_elem_of_In, elem_of_values; eauto).
  apply Hall in Hin.
  assert (isFileSibling folderId excludeId f = true) as Hsib by (by apply isFileSibling_spec).
  rewrite Hsib, Hb, He in Hin. simpl in Hin. by apply Nat.leb_le.
Qed.

Lemma rename_photo_collisions_witness :
  isAnonymous (User 1) = false
  ∧ FileMetadata.name <$> (updateFile (User 1) 2 "photo.jpg" "" [] 1%Z photoAlbum).1
    = Ok "photo (1).jpg"
  ∧ FileMetadata.name <$> (updateFile (User 1) 3 "photo (1).jpg" "" [] 1%Z photoAlbumTwo).1
    = Ok "photo (2).jpg".
Proof.
  split; [reflexivity|]. split.
  - refine (proj1 (rename_photo_collisions (User 1) 2
              (FileMetadata.mk 2 "scan.jpg" "" [] (Some 1) 0%N 0%Z 0%Z "image/jpeg" [])
              "" [] 1%Z photoAlbum eq_refl _ _) _ _).
    + vm_compute; reflexivity.
    + intros t Ht. by apply elem_of_nil in Ht.
    + exists 1, (FileMetadata.mk 1 "photo.jpg" "" [] (Some 1) 0%N 0%Z 0%Z "image/jpeg" []).
      split; [vm_compute; reflexivity|]. split; [reflexivity|]. split; [discriminate|].
      vm_compute; reflexivity.
    + apply siblingSuffix_bounded. vm_compute; reflexivity.
  - refine (proj2 (rename_photo_collisions (User 1) 3
              (FileMetadata.mk 3 "scan.jpg" "" [] (Some 1) 0%N 0%Z 0%Z "image/jpeg" [])
              "" [] 1%Z photoAlbumTwo eq_refl _ _) _ _).
    + vm_compute; reflexivity.
    + intros t Ht. by apply elem_of_nil in Ht.
    + exists 2, (FileMetadata.mk 2 "photo (1).jpg" "" [] (Some 1) 0%N 0%Z 0%Z "image/jpeg" []).
      split; [vm_compute; reflexivity|]. split; [reflexivity|]. split; [discriminate|].
      vm_compute; reflexivity.
    + apply siblingSuffix_bounded. vm_compute; reflexivity.
Defined.

(** C7 as stated fails: the album that holds "photo.jpg" (file 1),
    "photo (5).jpg" (file 2) and "scan.jpg" (file 3) is built by four calls,
    and renaming file 3 to "photo.jpg" there gives "photo (6).jpg", not
    "photo (1).jpg": the suffix is one above the greatest suffix found
    among the siblings with base "photo" and extension "jpg". *)
Lemma rename_photo_higher_suffix :
  reachable photoAlbumFive
  ∧ FileMetadata.name <$> values (files_of photoAlbumFive (User 1))
    = ["photo.jpg"; "photo (5).jpg"; "scan.jpg"]
  ∧ FileMetadata.folderId <$> values (files_of photoAlbumFive (User 1))
    = [Some 1; Some 1; Some 1]
  ∧ FileMetadata.name <$> (updateFile (User 1) 3 "photo.jpg" "" [] 1%Z photoAlbumFive).1
    = Ok "photo (6).jpg".
Proof.
  split; [apply reachable_runCalls; constructor|].
  split; [vm_compute; reflexivity|]. split; vm_compute; reflexivity.
Qed.

(** A name that differs from a stored one by the case of an accented
    letter collides with it: after "A grave.txt", the upload of
    "a grave.txt" is stored with the suffix 1. *)
Example accented_upload_collides :
  FileMetadata.name <$>
    (uploadFile (User 1) (String (ascii_of_nat 224) ".txt") "" [] None 0%N "" [] 0%Z
       (runCalls (User 1) 0%Z
          [UploadFile (String (ascii_of_nat 192) ".txt") "" [] None 0%N "" []] initState)).1
  = Ok (String (ascii_of_nat 224) " (1).txt").
Proof. vm_compute. reflexivity. Qed.

(** The search example of the specification on the demonstration tenant:
    "report" matches "Quarterly Report.pdf" by name and the two files
    tagged "reports" by tag name. *)
Example search_report :
  FileMetadata.name <$> default [] (match (searchFilesWithTags (User 1) "report" [] demoState).1
                                    with Ok l => Some l | Trap _ => None end)
  = ["Quarterly Report.pdf"; "notes.txt"; "root.txt"].
Proof. vm_compute. reflexivity. Qed.

Example search_ignores_case :
  FileMetadata.name <$> default [] (match (searchFilesWithTags (User 1) "REPORT" [] demoState).1
                                    with Ok l => Some l | Trap _ => None end)
  = ["Quarterly Report.pdf"; "notes.txt"; "root.txt"].
Proof. vm_compute. reflexivity. Qed.

(** * Further properties of the actor *)

(** ** Authentication and isolation *)

(** X1. An anonymous caller gets "Not authenticated" from every update
    and every query method, and the state is left exactly as it was. *)
Theorem anonymous_caller_rejected caller now c q s :
  isAnonymous caller = true →
  exec caller now c s = (Trap "Not authenticated", s)
  ∧ query caller q s = (Trap "Not authenticated", s).
Proof.
  intros Hanon. split.
  - destruct c; simpl;
      unfold discard, createFolder, renameFolder, moveFolder, deleteFolder, uploadFile,
        updateFile, moveFile, deleteFile, createTag, updateTag, deleteTag, bind, requireAuth;
      by rewrite Hanon.
  - destruct q; simpl;
      unfold discard, getAllFolders, getFolderContents, getFolderPath, getAllFiles,
        searchFilesWithTags, getAllTags, getTag, getAllFilesInFolder, bind, requireAuth;
      by rewrite Hanon.
Qed.

Lemma anonymous_caller_rejected_witness :
  isAnonymous Anonymous = true
  ∧ exec Anonymous 0%Z (CreateFolder "docs" None) demoState
    = (Trap "Not authenticated", demoState)
  ∧ query Anonymous GetAllFiles demoState = (Trap "Not authenticated", demoState).
Proof.
  split; [reflexivity|].
  apply (anonymous_caller_rejected Anonymous 0%Z (CreateFolder "docs" None) GetAllFiles
           demoState).
  reflexivity.
Defined.

(** X2. An update call, whether it returns or traps, leaves the
    collections and counters of every principal other than the caller as
    they were. *)
Theorem update_touches_only_caller caller now c s v :
  v ≠ caller → view (exec caller now c s).2 v = view s v.
Proof. apply touchesOnly_exec. Qed.

Lemma update_touches_only_caller_witness :
  User 2 ≠ User 1
  ∧ view (exec (User 1) 0%Z (DeleteFolder 1) demoState).2 (User 2) = view demoState (User 2).
Proof.
  split; [discriminate|].
  apply (update_touches_only_caller (User 1) 0%Z (DeleteFolder 1) demoState (User 2)).
  discriminate.
Defined.

Lemma pureM_discard {A} (m : M A) : pureM m → pureM (discard m).
Proof. intros Hm. unfold discard. apply pureM_bind; [done|]. intros a. apply pureM_ret. Qed.

(** X3. No query method changes a collection or a counter of any
    principal, whatever its outcome. *)
Theorem queries_write_nothing caller q s : sameViews s (query caller q s).2.
Proof.
  revert s. change (pureM (query caller q)).
  destruct q; simpl; apply pureM_discard;
    unfold getAllFolders, getFolderContents, getFolderPath, getAllFiles,
      searchFilesWithTags, getAllTags, getTag, getAllFilesInFolder;
    repeat pure_step.
Qed.

(** ** Identifiers *)

Lemma countersGrow_pure {A} (m : M A) : pureM m → countersGrow m.
Proof.
  intros Hm s u. specialize (Hm s u). apply view_inj in Hm as (_ & _ & _ & -> & -> & ->).
  done.
Qed.

Lemma countersGrow_bind {A B} (m : M A) (k : A → M B) :
  countersGrow m → (∀ a, countersGrow (k a)) → countersGrow (bind m k).
Proof.
  intros Hm Hk s u. unfold bind. specialize (Hm s u).
  destruct (m s) as [[a|msg] s1]; simpl in *; [|done].
  specialize (Hk a s1 u). lia.
Qed.

Lemma countersGrow_forEach {A} (xs : list A) (body : A → M unit) :
  (∀ x, countersGrow (body x)) → countersGrow (forEach xs body).
Proof.
  intros Hb. induction xs as [|x r IH]; simpl; [by apply countersGrow_pure, pureM_ret|].
  apply countersGrow_bind; [apply Hb | done].
Qed.

Lemma countersGrow_writes c :
  (∀ k v, countersGrow (filesAdd c k v)) ∧ (∀ k, countersGrow (filesRemove c k))
  ∧ (∀ k v, countersGrow (foldersAdd c k v)) ∧ (∀ k, countersGrow (foldersRemove c k))
  ∧ (∀ k v, countersGrow (tagsAdd c k v)) ∧ (∀ k, countersGrow (tagsRemove c k))
  ∧ countersGrow (genFileId c) ∧ countersGrow (genFolderId c)
  ∧ countersGrow (genTagId c).
Proof.
  split_and!; intros; intros s0 u0;
    rewrite ?run_genFileId, ?run_genFolderId, ?run_genTagId;
    unfold filesAdd, filesRemove, foldersAdd, foldersRemove, tagsAdd, tagsRemove;
    cbn [fst snd]; destruct (decide (c = u0)) as [<-|Hne];
    autorewrite with views; lia.
Qed.

Ltac grow_step :=
  first [ solve [apply countersGrow_pure; repeat pure_step]
        | match goal with
          | |- countersGrow (bind _ _) => apply countersGrow_bind; [|intros ?]
          end
        | apply countersGrow_forEach; intros ?
        | apply (countersGrow_writes _)
        | match goal with |- countersGrow (if ?b then _ else _) => destruct b end
        | match goal with |- countersGrow (match ?x with _ => _ end) => destruct x end ].

Lemma countersGrow_exec caller now c : countersGrow (exec caller now c).
Proof.
  destruct c; simpl; unfold discard, createFolder, renameFolder, moveFolder, deleteFolder,
    uploadFile, updateFile, moveFile, deleteFile, createTag, updateTag, deleteTag;
    repeat grow_step.
Qed.

Lemma countersGrow_runAll cs s u :
  nextFileId_of s u ≤ nextFileId_of (runAll cs s) u
  ∧ nextFolderId_of s u ≤ nextFolderId_of (runAll cs s) u
  ∧ nextTagId_of s u ≤ nextTagId_of (runAll cs s) u.
Proof.
  revert s. induction cs as [|[[caller now] c] r IH]; intros s; [done|].
  cbn [runAll foldl]. fold (runAll r (exec caller now c s).2).
  specialize (IH (exec caller now c s).2).
  pose proof (countersGrow_exec caller now c s u). lia.
Qed.

Lemma createTag_inv_full c name color s g :
  (createTag c name color s).1 = Ok g →
  g = Tag.mk (nextTagId_of s c) name color
  ∧ name ≠ ""
  ∧ view (createTag c name color s).2 c
    = mkView (files_of s c) (folders_of s c) (<[nextTagId_of s c := g]> (tags_of s c))
             (nextFileId_of s c) (nextFolderId_of s c) (nextTagId_of s c + 1).
Proof.
  intros Hok. unfold createTag, bind in *. auth_case c Hok. revert Hok. mrun.
  destruct (String.eqb_spec name ""); [done|]. mrun. intros [= <-].
  split; [done|]. split; [done|]. unfold view. by mrun.
Qed.

(** X4. Ids are never handed out twice: a folder, file or tag created by
    a call that returns gets an id strictly smaller than the id given to
    any folder, file or tag that the same principal creates later,
    whatever calls (deletions included, by any principal) run in between. *)
Theorem ids_never_reused caller s cs :
  (∀ name parentId now name' parentId' now' g g',
     (createFolder caller name parentId now s).1 = Ok g →
     (createFolder caller name' parentId' now'
        (runAll cs (createFolder caller name parentId now s).2)).1 = Ok g' →
     Folder.id g < Folder.id g')
  ∧ (∀ name d tagIds folderId size ty blob now name' d' tagIds' folderId' size' ty' blob'
       now' g g',
     (uploadFile caller name d tagIds folderId size ty blob now s).1 = Ok g →
     (uploadFile caller name' d' tagIds' folderId' size' ty' blob' now'
        (runAll cs (uploadFile caller name d tagIds folderId size ty blob now s).2)).1
     = Ok g' →
     FileMetadata.id g < FileMetadata.id g')
  ∧ (∀ name color name' color' g g',
     (createTag caller name color s).1 = Ok g →
     (createTag caller name' color'
        (runAll cs (createTag caller name color s).2)).1 = Ok g' →
     Tag.id g < Tag.id g').
Proof.
  split; [|split].
  - intros name parentId now name' parentId' now' g g'
      (-> & _ & Hv)%createFolder_inv (-> & _)%createFolder_inv. simpl.
    apply view_inj in Hv as (_ & _ & _ & _ & Hn & _).
    pose proof (countersGrow_runAll cs (createFolder caller name parentId now s).2 caller).
    lia.
  - intros name d tagIds folderId size ty blob now name' d' tagIds' folderId' size' ty' blob'
      now' g g' (-> & _ & Hv)%uploadFile_inv (-> & _)%uploadFile_inv. simpl.
    apply view_inj in Hv as (_ & _ & _ & Hn & _ & _).
    pose proof (countersGrow_runAll cs
      (uploadFile caller name d tagIds folderId size ty blob now s).2 caller).
    lia.
  - intros name color name' color' g g'
      (-> & _ & Hv)%createTag_inv_full (-> & _)%createTag_inv_full. simpl.
    apply view_inj in Hv as (_ & _ & _ & _ & _ & Hn).
    pose proof (countersGrow_runAll cs (createTag caller name color s).2 caller).
    lia.
Qed.

(** ** Invariants of reachable states *)

Lemma chainLength_parent_live folders k f p n :
  chainLength folders (Some k) n → folders !! k = Some f →
  Folder.parentId f = Some p → is_Some (folders !! p).
Proof.
  intros Hc Hf Hp. inversion Hc as [|id f' n' Hf' Hc']; subst.
  rewrite Hf in Hf'. injection Hf' as <-. rewrite Hp in Hc'.
  inversion Hc'; subst; eauto.
Qed.

(** X5. In every reachable state, for every principal: each folder and
    file is stored under its own id; the parent of a folder is a live
    folder or none; the folder of a file is a live folder or none. *)
Theorem references_resolve s u :
  reachable s →
  (∀ k f, folders_of s u !! k = Some f → Folder.id f = k)
  ∧ (∀ k f, files_of s u !! k = Some f → FileMetadata.id f = k)
  ∧ (∀ k f p, folders_of s u !! k = Some f → Folder.parentId f = Some p →
              is_Some (folders_of s u !! p))
  ∧ (∀ k f d, files_of s u !! k = Some f → FileMetadata.folderId f = Some d →
              is_Some (folders_of s u !! d)).
Proof.
  intros Hreach. destruct (reachable_wf s Hreach u) as [W1 W2 W3 W4]. simpl in *.
  split; [intros k f Hf; by apply W1|]. split; [intros k f Hf; by apply W2|].
  split; [|done]. intros k f p Hf Hp. destruct (W3 k f Hf) as [n Hn].
  by eapply chainLength_parent_live.
Qed.

Lemma references_resolve_witness :
  reachable demoState
  ∧ (∀ k f p, folders_of demoState (User 1) !! k = Some f → Folder.parentId f = Some p →
              is_Some (folders_of demoState (User 1) !! p)).
Proof.
  split; [apply reachable_runCalls; constructor|].
  apply (references_resolve demoState (User 1)). apply reachable_runCalls; constructor.
Defined.

Lemma ancestor_chain_shorter folders a d n :
  ancestorOf folders a d → chainLength folders (Some d) n →
  ∃ n', chainLength folders (Some a) n' ∧ n' < n.
Proof.
  intros Hanc. revert n. induction Hanc as [d f Hf Hp | d f p Hf Hp _ IH]; intros n Hc;
    inversion Hc as [|id f' n' Hf' Hc']; subst; rewrite Hf in Hf'; injection Hf' as <-;
    rewrite Hp in Hc'.
  - exists n'. split; [done|lia].
  - destruct (IH n' Hc') as (k & Hk & Hlt). exists k. split; [done|lia].
Qed.

Lemma ancestorOf_live folders a d : ancestorOf folders a d → is_Some (folders !! d).
Proof. destruct 1; eauto. Qed.

(** X6. In every reachable state the folder graph of every principal is
    acyclic: no folder is its own ancestor. *)
Theorem folders_acyclic s u :
  reachable s → ¬ hasCycle (folders_of s u).
Proof.
  intros Hreach [x Hx]. destruct (reachable_wf s Hreach u) as [_ _ W3 _]. simpl in *.
  destruct (ancestorOf_live _ _ _ Hx) as [f Hf]. destruct (W3 x f Hf) as [n Hn].
  destruct (ancestor_chain_shorter _ _ _ _ Hx Hn) as (n' & Hn' & Hlt).
  pose proof (chainLength_functional _ _ _ _ Hn Hn'). lia.
Qed.

Lemma folders_acyclic_witness :
  reachable demoState ∧ ¬ hasCycle (folders_of demoState (User 1)).
Proof.
  split; [apply reachable_runCalls; constructor|].
  apply (folders_acyclic demoState (User 1)). apply reachable_runCalls; constructor.
Defined.

(** *** Tag references *)

Lemma assertTagsExist_loop_ok (m : gmap nat Tag.t) tagIds s :
  (assertTagsExist_loop m tagIds s).1 = Ok tt → ∀ t, t ∈ tagIds → is_Some (m !! t).
Proof.
  induction tagIds as [|a r IH]; simpl; [intros _ t Ht; by apply elem_of_nil in Ht|].
  destruct (containsKey m a) eqn:Ha; simpl; [|done].
  intros Hok t [->|Ht]%elem_of_cons; [by apply containsKey_true | by apply IH].
Qed.

Lemma uploadFile_tags_live c name description tagIds P size fileType blob now s g :
  (uploadFile c name description tagIds P size fileType blob now s).1 = Ok g →
  ∀ t, t ∈ tagIds → is_Some (tags_of s c !! t).
Proof.
  intros Hok. unfold uploadFile, bind in *. auth_case c Hok. revert Hok. mrun.
  destruct P as [p|]; mrun.
  - destruct (containsKey (folders_of s c) p); [|done]. mrun.
    destruct (assertTagsExist_loop _ _ _).1 as [[]|] eqn:Hl; [|done].
    intros _. by eapply assertTagsExist_loop_ok.
  - destruct (assertTagsExist_loop _ _ _).1 as [[]|] eqn:Hl; [|done].
    intros _. by eapply assertTagsExist_loop_ok.
Qed.

Lemma updateFile_tags_live c id name description tagIds now s g :
  (updateFile c id name description tagIds now s).1 = Ok g →
  FileMetadata.tagIds g = tagIds ∧ ∀ t, t ∈ tagIds → is_Some (tags_of s c !! t).
Proof.
  intros Hok. unfold updateFile, bind in *. auth_case c Hok. revert Hok. mrun.
  destruct (assertTagsExist_loop _ _ _).1 as [[]|] eqn:Hl; [|done]. mrun.
  destruct (String.eqb name ""); [done|]. mrun.
  destruct (files_of s c !! id) as [f|]; [|done]. mrun.
  intros [= <-]. split; [done|]. by eapply assertTagsExist_loop_ok.
Qed.

Lemma moveFile_frame c id P now s g :
  (moveFile c id P now s).1 = Ok g →
  ∃ f, files_of s c !! id = Some f
    ∧ g = FileMetadata.mk (FileMetadata.id f)
            (uniqueFileNameIn (files_of s c) P (FileMetadata.name f) (Some id))
            (FileMetadata.description f) (FileMetadata.tagIds f) P (FileMetadata.size f)
            (FileMetadata.uploadDate f) now (FileMetadata.fileType f) (FileMetadata.blob f).
Proof.
  intros Hok. unfold moveFile, bind in *. auth_case c Hok. revert Hok. mrun.
  destruct P as [p|]; mrun.
  - destruct (containsKey (folders_of s c) p); [|done]. mrun.
    destruct (files_of s c !! id) as [f|] eqn:Hf; [|done]. mrun.
    intros [= <-]. by exists f.
  - destruct (files_of s c !! id) as [f|] eqn:Hf; [|done]. mrun.
    intros [= <-]. by exists f.
Qed.

Lemma updateTag_inv_full c id name color s g :
  (updateTag c id name color s).1 = Ok g →
  g = Tag.mk id name color
  ∧ is_Some (tags_of s c !! id)
  ∧ name ≠ ""
  ∧ view (updateTag c id name color s).2 c
    = mkView (files_of s c) (folders_of s c) (<[id := g]> (tags_of s c))
             (nextFileId_of s c) (nextFolderId_of s c) (nextTagId_of s c).
Proof.
  intros Hok. unfold updateTag, bind in *. auth_case c Hok. revert Hok. mrun.
  destruct (String.eqb_spec name ""); [done|]. mrun.
  destruct (tags_of s c !! id) as [t|] eqn:Ht; [|done]. mrun. intros [= <-].
  split; [done|]. split; [eauto|]. split; [done|]. unfold view. mrun.
  by rewrite insert_delete_eq.
Qed.

Lemma wfTags_init u : wfTags (view initState u).
Proof.
  split; intros k f; unfold view, files_of, tags_of; simpl;
    rewrite lookup_empty; simpl; by rewrite lookup_empty.
Qed.

Lemma wfTags_same_files_tags (w w' : View) :
  vFiles w' = vFiles w → vTags w' = vTags w → vNextTagId w' = vNextTagId w →
  wfTags w → wfTags w'.
Proof. intros Hf Ht Hn [T1 T2]. split; rewrite ?Hf, ?Ht, ?Hn; done. Qed.

Lemma exec_wfTags caller now c s :
  (∀ u, wfView (view s u)) → (∀ u, wfTags (view s u)) →
  ∀ u, wfTags (view (exec caller now c s).2 u).
Proof.
  intros Hwf Hwt u. destruct (decide (u = caller)) as [->|Hne].
  2:{ rewrite touchesOnly_exec by done. apply Hwt. }
  destruct (exec caller now c s).1 as [[]|msg] eqn:Hres.
  2:{ rewrite (trapSafe_exec caller now c s msg Hres). apply Hwt. }
  specialize (Hwf caller). specialize (Hwt caller).
  destruct Hwt as [T1 T2]. simpl in T1, T2.
  destruct c; simpl in *.
  - destruct (discard_run (createFolder caller name parentId now) s) as (-> & [H _] & _).
    destruct (H Hres) as [g (_ & _ & ->)%createFolder_inv]. by split.
  - destruct (discard_run (renameFolder caller id newName now) s) as (-> & [H _] & _).
    destruct (H Hres) as [g (f & _ & _ & ->)%renameFolder_inv]. by split.
  - destruct (discard_run (moveFolder caller id newParentId now) s) as (-> & [H _] & _).
    destruct (H Hres) as [g (f & _ & _ & _ & ->)%moveFolder_inv]. by split.
  - assert (isAnonymous caller = false ∧ is_Some (folders_of s caller !! id))
      as [Hauth [f Hf]].
    { unfold deleteFolder, bind in Hres. auth_case caller Hres. split; [done|].
      revert Hres. rewrite run_requireAuth by done.
      rewrite run_getUserFolders, run_getUserFiles. autorewrite with views.
      destruct (containsKey (folders_of s caller) id) eqn:Hc; [|done].
      by apply containsKey_true in Hc. }
    destruct Hwf as [W1 W2 _ _]. simpl in *.
    destruct (deleteFolder_run caller id f s Hauth Hf)
      as (_ & D & fs' & fo' & _ & -> & _ & Hfs).
    { intros k g Hk. by apply W1. }
    { intros k g Hk. by apply W2. }
    split; simpl; [done|]. intros k g t. rewrite Hfs.
    destruct (files_of s caller !! k) as [g'|] eqn:Hk; [|done].
    destruct (inDeleteSet D g'); [done|]. intros [= <-]. by apply (T2 k).
  - destruct (discard_run
      (uploadFile caller name description tagIds folderId size fileType blob now) s)
      as (-> & [H _] & _).
    destruct (H Hres) as [g Hg]. pose proof (uploadFile_tags_live _ _ _ _ _ _ _ _ _ _ _ Hg).
    apply uploadFile_inv in Hg as (Hg & _ & ->). split; simpl; [done|].
    intros k f t. rewrite lookup_insert. case_decide.
    + intros [= <-]. rewrite Hg. simpl. auto.
    + apply T2.
  - destruct (discard_run (updateFile caller id name description tagIds now) s)
      as (-> & [H _] & _).
    destruct (H Hres) as [g Hg].
    destruct (updateFile_tags_live _ _ _ _ _ _ _ _ Hg) as [Ht Hlive].
    apply updateFile_inv in Hg as (f & _ & _ & _ & _ & ->). split; simpl; [done|].
    intros k f' t. rewrite lookup_insert. case_decide.
    + intros [= <-]. rewrite Ht. auto.
    + apply T2.
  - destruct (discard_run (moveFile caller id newFolderId now) s) as (-> & [H _] & _).
    destruct (H Hres) as [g Hg].
    destruct (moveFile_frame _ _ _ _ _ _ Hg) as (f0 & Hf0 & Hgeq).
    apply moveFile_inv in Hg as (f & _ & _ & _ & _ & _ & ->). split; simpl; [done|].
    intros k f' t. rewrite lookup_insert. case_decide.
    + intros [= <-]. rewrite Hgeq. simpl. by apply (T2 id).
    + apply T2.
  - rewrite (deleteFile_inv _ _ _ Hres). split; simpl; [done|].
    intros k f t [_ Hf]%lookup_delete_Some. by apply (T2 k).
  - destruct (discard_run (createTag caller name color) s) as (-> & [H _] & _).
    destruct (H Hres) as [g (Hg & _ & ->)%createTag_inv_full]. split; simpl.
    + intros k t. rewrite lookup_insert. case_decide.
      * intros [= <-]. subst k. rewrite Hg. simpl. lia.
      * intros Ht. apply T1 in Ht. lia.
    + intros k f t Hf Ht. destruct (T2 k f t Hf Ht) as [x Hx].
      rewrite lookup_insert. case_decide; eauto.
  - destruct (discard_run (updateTag caller id name color) s) as (-> & [H _] & _).
    destruct (H Hres) as [g (Hg & [t0 Ht0] & _ & ->)%updateTag_inv_full]. split; simpl.
    + intros k t. rewrite lookup_insert. case_decide.
      * intros [= <-]. subst k. rewrite Hg. simpl. by apply T1 in Ht0 as [_ ?].
      * apply T1.
    + intros k f t Hf Ht. destruct (T2 k f t Hf Ht) as [x Hx].
      rewrite lookup_insert. case_decide; eauto.
  - assert (isAnonymous caller = false ∧ is_Some (tags_of s caller !! id))
      as [Hauth [tag Htag]].
    { unfold deleteTag, bind in Hres. auth_case caller Hres. split; [done|].
      revert Hres. rewrite run_requireAuth by done.
      rewrite run_getUserTags, run_getUserFiles. autorewrite with views.
      destruct (containsKey (tags_of s caller) id) eqn:Hc; [|done].
      by apply containsKey_true in Hc. }
    destruct Hwf as [_ W2 _ _]. simpl in *.
    destruct (deleteTag_run caller id tag s Hauth Htag) as [_ ->].
    { intros k g Hk. by apply W2. }
    split; simpl.
    + intros k t [_ Ht]%lookup_delete_Some. by apply T1.
    + intros k f t. rewrite lookup_fmap.
      destruct (files_of s caller !! k) as [f0|] eqn:Hk; [|done]. simpl.
      intros [= <-]. simpl. rewrite list_elem_of_In, filter_In, <- list_elem_of_In.
      intros [Ht Hne%negb_true_iff%bool_decide_eq_false].
      destruct (T2 k f0 t Hk Ht) as [x Hx]. exists x. by rewrite lookup_delete_ne.
Qed.

Lemma reachable_wfTags s : reachable s → ∀ u, wfTags (view s u).
Proof.
  induction 1 as [|s caller now c Hr IH]; [apply wfTags_init|].
  apply exec_wfTags; [by apply reachable_wf | done].
Qed.



(** ** Folder paths *)

#[local] Instance keyLe_trans {V} : Transitive (@keyLe V).
Proof. intros a b c. unfold keyLe. lia. Qed.

#[local] Instance keyLe_total {V} : Total (@keyLe V).
Proof. intros a b. unfold keyLe. lia. Qed.

(** The iteration order of a map is the only key-sorted listing of its
    entries. *)
Lemma entries_unique {V} (m : gmap nat V) l :
  l ≡ₚ map_to_list m → StronglySorted keyLe l → entries m = l.
Proof.
  intros Hperm Hsorted. unfold entries.
  apply (StronglySorted_unique_strong keyLe).
  - intros [k1 x1] [k2 x2] H1 H2 Hle1 Hle2. unfold keyLe in *. simpl in *.
    assert (k1 = k2) as -> by lia. f_equal.
    rewrite merge_sort_Permutation in H1. rewrite Hperm in H2.
    apply elem_of_map_to_list in H1, H2. congruence.
  - apply StronglySorted_merge_sort; apply _.
  - done.
  - by rewrite merge_sort_Permutation.
Qed.

Lemma map_seq_to_list {V} (l : list V) i :
  map_to_list (map_seq i l : gmap nat V) ≡ₚ zip (seq i (length l)) l.
Proof.
  revert i. induction l as [|x l IH]; intros i; simpl.
  - by rewrite map_to_list_empty.
  - rewrite map_to_list_insert by apply map_seq_cons_disjoint. by rewrite IH.
Qed.

Lemma zip_seq_sorted {V} (l : list V) i : StronglySorted keyLe (zip (seq i (length l)) l).
Proof.
  revert i. induction l as [|x l IH]; intros i; simpl; constructor; [apply IH|].
  apply Forall_forall. intros [k y] Hin. apply elem_of_zip_l in Hin.
  apply elem_of_seq in Hin. unfold keyLe. simpl. lia.
Qed.

Lemma values_map_seq {V} (l : list V) : values (map_seq 0 l : gmap nat V) = l.
Proof.
  unfold values. rewrite (entries_unique _ (zip (seq 0 (length l)) l)).
  - apply snd_zip. by rewrite length_seq.
  - symmetry. apply map_seq_to_list.
  - apply zip_seq_sorted.
Qed.

(** [buildFolderPath_from] on the remaining budget is the recursion of the
    source on [index]. *)
Lemma buildFolderPath_unfold folders pathMap currentId index :
  buildFolderPath folders pathMap currentId index
  = if decide (maxFolderDepth ≤ index) then Trap deepMsg
    else match currentId with
         | None => Ok pathMap
         | Some id =>
             match folders !! id with
             | None => Ok pathMap
             | Some folder =>
                 buildFolderPath folders (<[index := folder]> pathMap)
                                 (Folder.parentId folder) (index + 1)
             end
         end.
Proof.
  unfold buildFolderPath. case_decide as Hle.
  - by replace (maxFolderDepth - index) with 0 by lia.
  - replace (maxFolderDepth - index) with (S (maxFolderDepth - (index + 1))) by lia.
    done.
Qed.

Lemma buildFolderPath_from_path folders cur l :
  folderPath folders cur l →
  ∀ budget pre,
    buildFolderPath_from budget folders (map_seq 0 pre) cur (length pre)
    = if decide (length l < budget) then Ok (map_seq 0 (pre ++ l)%list) else Trap deepMsg.
Proof.
  induction 1 as [|id f l Hf _ IH]; intros [|budget] pre; cbn [buildFolderPath_from length].
  - by rewrite decide_False by lia.
  - rewrite decide_True by lia. by rewrite app_nil_r.
  - by rewrite decide_False by lia.
  - rewrite Hf.
    replace (<[length pre := f]> (map_seq 0 pre : gmap nat Folder.t))
      with (map_seq 0 (pre ++ [f])%list : gmap nat Folder.t)
      by (by rewrite map_seq_snoc).
    replace (length pre + 1) with (length (pre ++ [f])%list)
      by (rewrite length_app; simpl; lia).
    rewrite IH. rewrite <- app_assoc. simpl.
    destruct (decide (length l < budget)).
    + by rewrite decide_True by lia.
    + by rewrite decide_False by lia.
Qed.

Lemma chainLength_folderPath folders cur n :
  chainLength folders cur n → ∃ l, folderPath folders cur l ∧ length l = n.
Proof.
  induction 1 as [|id f n Hf _ (l & Hl & Hlen)].
  - exists []. split; [constructor | done].
  - exists (f :: l). split; [by econstructor | by rewrite <- Hlen].
Qed.

(** X8. For an authenticated caller, [getFolderPath id] returns the empty
    list when [id] is not a folder of the caller.  When following the
    parents from [id] to the root meets the folders [l], the starting
    folder first, it returns exactly [l] if [l] has fewer than 100 folders
    and traps otherwise.  In a reachable state every folder of the caller
    has such a list. *)
Theorem getFolderPath_spec caller id s :
  isAnonymous caller = false →
  (folders_of s caller !! id = None → (getFolderPath caller id s).1 = Ok [])
  ∧ (∀ l, folderPath (folders_of s caller) (Some id) l →
          (getFolderPath caller id s).1
          = if decide (length l < maxFolderDepth) then Ok l else Trap deepMsg)
  ∧ (reachable s → is_Some (folders_of s caller !! id) →
     ∃ l, folderPath (folders_of s caller) (Some id) l).
Proof.
  intros Hauth. unfold getFolderPath, bind.
  rewrite run_requireAuth by done. rewrite run_getUserFolders. autorewrite with views.
  cbn [fst snd]. unfold liftRes. split; [|split].
  - intros Hnone. rewrite buildFolderPath_unfold, Hnone.
    rewrite decide_False by (unfold maxFolderDepth; lia). done.
  - intros l Hl. unfold buildFolderPath. rewrite Nat.sub_0_r.
    pose proof (buildFolderPath_from_path _ _ _ Hl maxFolderDepth []) as Hrun.
    change (map_seq 0 [] : gmap nat Folder.t) with (∅ : gmap nat Folder.t) in Hrun.
    change (length (@nil Folder.t)) with 0 in Hrun.
    rewrite Hrun, app_nil_l.
    case_decide; [|done]. cbn [fst snd ret]. by rewrite values_map_seq.
  - intros Hreach [f Hf]. destruct (reachable_wf s Hreach caller) as [_ _ W3 _].
    simpl in W3. destruct (W3 id f Hf) as [n Hn].
    destruct (chainLength_folderPath _ _ _ Hn) as (l & Hl & _). eauto.
Qed.

Lemma getFolderPath_spec_witness :
  isAnonymous (User 1) = false
  ∧ (getFolderPath (User 1) 2 demoState).1
    = Ok [Folder.mk 2 "sub" (Some 1) 0%Z 0%Z; Folder.mk 1 "docs" None 0%Z 0%Z].
Proof.
  split; [reflexivity|].
  destruct (getFolderPath_spec (User 1) 2 demoState eq_refl) as (_ & H & _).
  apply (H [Folder.mk 2 "sub" (Some 1) 0%Z 0%Z; Folder.mk 1 "docs" None 0%Z 0%Z]).
  eapply folderPath_step; [vm_compute; reflexivity|].
  eapply folderPath_step; [vm_compute; reflexivity|]. constructor.
Defined.

(** ** Files of a subtree *)

Lemma getAllFilesInFolder_some c F s :
  isAnonymous c = false →
  (∀ k f, folders_of s c !! k = Some f → Folder.id f = k) →
  ∃ D : gmap nat unit,
    (∀ x, x ∈ dom D ↔ inSubtree (folders_of s c) F x)
    ∧ (getAllFilesInFolder c (Some F) s).1
      = Ok (List.filter (inFolderSet false D) (values (files_of s c))).
Proof.
  intros Hauth Hid. unfold getAllFilesInFolder, bind.
  rewrite run_requireAuth by done. rewrite run_getUserFolders, run_getUserFiles.
  autorewrite with views. cbn [fst snd].
  destruct (whileFoundNew_ends false (folders_of s c)
              (S (length (values (folders_of s c)))) {[F := tt]}) as [D HD].
  { pose proof (uncollected_le_length (folders_of s c) {[F := tt]}). lia. }
  rewrite HD. exists D. split; [|done]. intros x.
  rewrite (whileFoundNew_closure false (folders_of s c) _ _ D Hid HD).
  apply inClosure_subtree.
Qed.

(** X9. In a reachable state, for an authenticated caller,
    [getAllFilesInFolder (?F)] returns, in the order of [getAllFiles],
    exactly the caller's files whose folder is [F] or a descendant of
    [F]. *)
Theorem getAllFilesInFolder_lists_subtree caller F s :
  reachable s → isAnonymous caller = false →
  ∃ l, (getAllFilesInFolder caller (Some F) s).1 = Ok l
       ∧ sublist l (values (files_of s caller))
       ∧ ∀ file, file ∈ l ↔ file ∈ values (files_of s caller)
                             ∧ fileInSubtree (folders_of s caller) F file.
Proof.
  intros Hreach Hauth. destruct (reachable_wf s Hreach caller) as [W1 _ _ _]. simpl in W1.
  destruct (getAllFilesInFolder_some caller F s Hauth) as (D & HD & ->).
  { intros k f Hf. by apply W1. }
  eexists. split; [done|]. split; [apply sublist_List_filter|].
  intros file. rewrite elem_of_List_filter. unfold inFolderSet, fileInSubtree.
  split.
  - intros [Hin Hset]. split; [done|].
    destruct (FileMetadata.folderId file) as [d|]; [|done].
    exists d. split; [done|]. by apply HD, containsKey_dom.
  - intros [Hin (d & -> & Hd)]. split; [done|]. by apply containsKey_dom, HD.
Qed.

Lemma getAllFilesInFolder_lists_subtree_witness :
  reachable demoState ∧ isAnonymous (User 1) = false
  ∧ ∃ l, (getAllFilesInFolder (User 1) (Some 1) demoState).1 = Ok l
         ∧ sublist l (values (files_of demoState (User 1)))
         ∧ ∀ file, file ∈ l ↔ file ∈ values (files_of demoState (User 1))
                               ∧ fileInSubtree (folders_of demoState (User 1)) 1 file.
Proof.
  split; [apply reachable_runCalls; constructor|]. split; [reflexivity|].
  apply (getAllFilesInFolder_lists_subtree (User 1) 1 demoState);
    [apply reachable_runCalls; constructor | reflexivity].
Defined.

(** ** Creating and deleting *)

Lemma fresh_folder_unreferenced w :
  wfView w →
  vFolders w !! vNextFolderId w = None
  ∧ (∀ k f, vFolders w !! k = Some f → Folder.parentId f ≠ Some (vNextFolderId w))
  ∧ (∀ k f, vFiles w !! k = Some f → FileMetadata.folderId f ≠ Some (vNextFolderId w)).
Proof.
  intros [W1 W2 W3 W4].
  assert (vFolders w !! vNextFolderId w = None) as Hfresh.
  { destruct (vFolders w !! vNextFolderId w) as [f|] eqn:Hf; [|done].
    apply W1 in Hf as [_ ?]. lia. }
  split; [done|]. split.
  - intros k f Hf Hp. destruct (W3 k f Hf) as [n Hn].
    destruct (chainLength_parent_live _ _ _ _ _ Hn Hf Hp) as [x Hx]. congruence.
  - intros k f Hf Hd. destruct (W4 k f _ Hf Hd) as [x Hx]. congruence.
Qed.

Lemma ancestorOf_has_child folders a d :
  ancestorOf folders a d → ∃ k f, folders !! k = Some f ∧ Folder.parentId f = Some a.
Proof. induction 1 as [d f Hf Hp | d f p Hf Hp _ IH]; eauto. Qed.

Lemma List_filter_none {A} (p : A → bool) (l : list A) :
  (∀ x, x ∈ l → p x = false) → List.filter p l = [].
Proof.
  induction l as [|a l IH]; intros Hall; [done|].
  simpl. rewrite Hall by (by left). apply IH. intros x Hx. apply Hall. by right.
Qed.

Lemma run_getFolderContents c P s :
  isAnonymous c = false →
  (getFolderContents c P s).1
  = Ok (FolderContents.mk
          (List.filter (λ f, optEq (Folder.parentId f) P) (values (folders_of s c)))
          (List.filter (λ f, optEq (FileMetadata.folderId f) P) (values (files_of s c)))).
Proof. intros Hauth. unfold getFolderContents, bind. by mrun. Qed.

Lemma createFolder_auth c name P now s g :
  (createFolder c name P now s).1 = Ok g → isAnonymous c = false.
Proof. intros Hok. unfold createFolder, bind in Hok. by auth_case c Hok. Qed.

(** What [createFolder] leaves: the new folder under a fresh id that
    nothing refers to. *)
Lemma createFolder_fresh c name P now s g :
  reachable s →
  (createFolder c name P now s).1 = Ok g →
  let s' := (createFolder c name P now s).2 in
  Folder.id g = nextFolderId_of s c
  ∧ folders_of s c !! Folder.id g = None
  ∧ folders_of s' c = <[Folder.id g := g]> (folders_of s c)
  ∧ files_of s' c = files_of s c
  ∧ tags_of s' c = tags_of s c
  ∧ (∀ k f, folders_of s' c !! k = Some f → Folder.parentId f ≠ Some (Folder.id g))
  ∧ (∀ k f, files_of s' c !! k = Some f → FileMetadata.folderId f ≠ Some (Folder.id g)).
Proof.
  intros Hreach Hok s'. subst s'.
  destruct (fresh_folder_unreferenced _ (reachable_wf s Hreach c)) as (Hfresh & Hpar & Hfil).
  simpl in Hfresh, Hpar, Hfil.
  destruct (createFolder_inv _ _ _ _ _ _ Hok) as (Hg & HP & Hview).
  apply view_inj in Hview as (Hfs & Hfo & Htg & _).
  assert (Folder.id g = nextFolderId_of s c) as Hid by (by rewrite Hg).
  rewrite Hid, Hfs, Hfo, Htg. split; [done|]. split; [done|]. split; [done|].
  split; [done|]. split; [done|]. split; [|done].
  intros k f. rewrite lookup_insert. case_decide.
  - intros [= <-]. rewrite Hg. simpl. destruct P as [p|]; [|done].
    destruct HP as [x Hx]. intros [= ->]. congruence.
  - by apply Hpar.
Qed.

Lemma createFolder_reachable c name P now s :
  reachable s → reachable (createFolder c name P now s).2.
Proof.
  intros Hreach.
  replace (createFolder c name P now s).2 with (exec c now (CreateFolder name P) s).2.
  - by constructor.
  - simpl. by destruct (discard_run (createFolder c name P now) s) as [-> _].
Qed.

(** X10. In a reachable state, a folder just created by [createFolder] is
    listed by [getFolderContents] among the folders of its parent and is
    itself empty: [getFolderContents] of the new folder lists no folder
    and no file, and [getAllFilesInFolder] of it lists no file. *)
Theorem new_folder_is_empty caller name P now s g :
  reachable s →
  (createFolder caller name P now s).1 = Ok g →
  let s' := (createFolder caller name P now s).2 in
  (getFolderContents caller (Some (Folder.id g)) s').1 = Ok (FolderContents.mk [] [])
  ∧ (∃ c, (getFolderContents caller P s').1 = Ok c ∧ g ∈ FolderContents.folders c)
  ∧ (getAllFilesInFolder caller (Some (Folder.id g)) s').1 = Ok [].
Proof.
  intros Hreach Hok s'.
  pose proof (createFolder_auth _ _ _ _ _ _ Hok) as Hauth.
  destruct (createFolder_fresh _ _ _ _ _ _ Hreach Hok)
    as (Hid & Hfresh & Hfo & Hfs & Htg & Hpar & Hfil).
  fold s' in Hfo, Hfs, Htg, Hpar, Hfil.
  split; [|split].
  - rewrite run_getFolderContents by done. f_equal. f_equal.
    + apply List_filter_none. intros f [k Hk]%elem_of_values.
      apply bool_decide_eq_false. by eapply Hpar.
    + apply List_filter_none. intros f [k Hk]%elem_of_values.
      apply bool_decide_eq_false. by eapply Hfil.
  - rewrite run_getFolderContents by done. eexists. split; [done|]. simpl.
    apply elem_of_List_filter. split.
    + apply elem_of_values. exists (Folder.id g). rewrite Hfo. apply lookup_insert_eq.
    + apply bool_decide_eq_true. destruct (createFolder_inv _ _ _ _ _ _ Hok) as (-> & _). done.
  - pose proof (createFolder_reachable caller name P now s Hreach) as Hreach'. fold s' in Hreach'.
    destruct (reachable_wf s' Hreach' caller) as [W1 _ _ _]. simpl in W1.
    destruct (getAllFilesInFolder_some caller (Folder.id g) s' Hauth) as (D & HD & ->).
    { intros k f Hf. by apply W1. }
    f_equal. apply List_filter_none. intros f [k Hk]%elem_of_values.
    unfold inFolderSet. destruct (FileMetadata.folderId f) as [d|] eqn:Hd; [|done].
    apply containsKey_not_dom. rewrite HD. intros [->|Hanc].
    + by eapply Hfil.
    + apply ancestorOf_has_child in Hanc as (k' & f' & Hk' & Hp'). by eapply Hpar.
Qed.

Lemma new_folder_is_empty_witness :
  reachable demoState
  ∧ (getFolderContents (User 1) (Some 4)
       (createFolder (User 1) "new" (Some 1) 0%Z demoState).2).1
    = Ok (FolderContents.mk [] []).
Proof.
  split; [apply reachable_runCalls; constructor|].
  refine (proj1 (new_folder_is_empty (User 1) "new" (Some 1) 0%Z demoState
                   (Folder.mk 4 "new" (Some 1) 0%Z 0%Z) _ _)).
  - apply reachable_runCalls; constructor.
  - vm_compute; reflexivity.
Defined.

(** X11. In a reachable state, deleting a folder just created by
    [createFolder] succeeds and gives back the folders, files and tags the
    caller had before the creation. *)
Theorem createFolder_deleteFolder caller name P now s g :
  reachable s →
  (createFolder caller name P now s).1 = Ok g →
  let s' := (createFolder caller name P now s).2 in
  (deleteFolder caller (Folder.id g) s').1 = Ok tt
  ∧ folders_of (deleteFolder caller (Folder.id g) s').2 caller = folders_of s caller
  ∧ files_of (deleteFolder caller (Folder.id g) s').2 caller = files_of s caller
  ∧ tags_of (deleteFolder caller (Folder.id g) s').2 caller = tags_of s caller.
Proof.
  intros Hreach Hok s'.
  pose proof (createFolder_auth _ _ _ _ _ _ Hok) as Hauth.
  destruct (createFolder_fresh _ _ _ _ _ _ Hreach Hok)
    as (Hid & Hfresh & Hfo & Hfs & Htg & Hpar & Hfil).
  fold s' in Hfo, Hfs, Htg, Hpar, Hfil.
  pose proof (createFolder_reachable caller name P now s Hreach) as Hreach'. fold s' in Hreach'.
  destruct (reachable_wf s' Hreach' caller) as [W1 W2 _ _]. simpl in W1, W2.
  destruct (deleteFolder_run caller (Folder.id g) g s' Hauth)
    as (Hres & D & fs' & fo' & HD & Hview & Hfo' & Hfs').
  { rewrite Hfo. apply lookup_insert_eq. }
  { intros k f Hf. by apply W1. }
  { intros k f Hf. by apply W2. }
  apply view_inj in Hview as (-> & -> & -> & _).
  assert (∀ x, x ∈ dom D ↔ x = Folder.id g) as HD'.
  { intros x. rewrite HD. split; [|by left]. intros [->|Hanc]; [done|].
    apply ancestorOf_has_child in Hanc as (k' & f' & Hk' & Hp'). exfalso. by eapply Hpar. }
  split; [done|]. split; [|split; [|by rewrite Htg]].
  - apply map_eq. intros x. rewrite Hfo', Hfo. case_decide as Hx.
    + apply HD' in Hx as ->. done.
    + rewrite lookup_insert_ne; [done|]. intros <-. by apply Hx, HD'.
  - apply map_eq. intros k. rewrite Hfs', Hfs.
    destruct (files_of s caller !! k) as [f|] eqn:Hk; [|done].
    unfold inDeleteSet. destruct (FileMetadata.folderId f) as [d|] eqn:Hd; [|done].
    assert (containsKey D d = false) as ->; [|done].
    apply containsKey_not_dom. rewrite HD'. intros ->.
    eapply (Hfil k f); [by rewrite Hfs | done].
Qed.

Lemma createFolder_deleteFolder_witness :
  reachable demoState
  ∧ folders_of (deleteFolder (User 1) 4 (createFolder (User 1) "new" (Some 1) 0%Z demoState).2).2
               (User 1)
    = folders_of demoState (User 1).
Proof.
  split; [apply reachable_runCalls; constructor|].
  refine (proj1 (proj2 (createFolder_deleteFolder (User 1) "new" (Some 1) 0%Z demoState
                          (Folder.mk 4 "new" (Some 1) 0%Z 0%Z) _ _))).
  - apply reachable_runCalls; constructor.
  - vm_compute; reflexivity.
Defined.

Lemma deleteFile_run c id s :
  isAnonymous c = false → is_Some (files_of s c !! id) →
  (deleteFile c id s).1 = Ok tt.
Proof.
  intros Hauth Hf. unfold deleteFile, bind. mrun.
  assert (containsKey (files_of s c) id = true) as -> by (by apply containsKey_true).
  by mrun.
Qed.

(** X12. In a reachable state, deleting a file just stored by
    [uploadFile] succeeds and gives back the files, folders and tags the
    caller had before the upload. *)
Theorem uploadFile_deleteFile caller name description tagIds P size fileType blob now s g :
  reachable s →
  (uploadFile caller name description tagIds P size fileType blob now s).1 = Ok g →
  let s' := (uploadFile caller name description tagIds P size fileType blob now s).2 in
  (deleteFile caller (FileMetadata.id g) s').1 = Ok tt
  ∧ files_of (deleteFile caller (FileMetadata.id g) s').2 caller = files_of s caller
  ∧ folders_of (deleteFile caller (FileMetadata.id g) s').2 caller = folders_of s caller
  ∧ tags_of (deleteFile caller (FileMetadata.id g) s').2 caller = tags_of s caller.
Proof.
  intros Hreach Hok s'.
  assert (isAnonymous caller = false) as Hauth.
  { pose proof Hok as Hok'. unfold uploadFile, bind in Hok'. by auth_case caller Hok'. }
  destruct (reachable_wf s Hreach caller) as [_ W2 _ _]. simpl in W2.
  destruct (uploadFile_inv _ _ _ _ _ _ _ _ _ _ _ Hok) as (Hg & _ & Hview).
  fold s' in Hview. apply view_inj in Hview as (Hfs & Hfo & Htg & _).
  assert (FileMetadata.id g = nextFileId_of s caller) as Hid by (by rewrite Hg).
  assert (files_of s caller !! nextFileId_of s caller = None) as Hfresh.
  { destruct (files_of s caller !! nextFileId_of s caller) as [f|] eqn:Hf; [|done].
    apply W2 in Hf as [_ ?]. lia. }
  assert ((deleteFile caller (FileMetadata.id g) s').1 = Ok tt) as Hdel.
  { apply deleteFile_run; [done|]. rewrite Hfs, Hid. rewrite lookup_insert_eq. eauto. }
  split; [done|].
  apply deleteFile_inv, view_inj in Hdel as (-> & -> & -> & _).
  rewrite Hfs, Hfo, Htg, Hid. split; [|done]. rewrite delete_insert_eq. by apply delete_id.
Qed.

Lemma uploadFile_deleteFile_witness :
  reachable demoState
  ∧ files_of (deleteFile (User 1) 4
                (uploadFile (User 1) "new.txt" "" [1] (Some 2) 3%N "text/plain" [] 0%Z
                   demoState).2).2 (User 1)
    = files_of demoState (User 1).
Proof.
  split; [apply reachable_runCalls; constructor|].
  refine (proj1 (proj2 (uploadFile_deleteFile (User 1) "new.txt" "" [1] (Some 2) 3%N
                          "text/plain" [] 0%Z demoState
                          (FileMetadata.mk 4 "new.txt" "" [1] (Some 2) 3%N 0%Z 0%Z
                             "text/plain" []) _ _))).
  - apply reachable_runCalls; constructor.
  - vm_compute; reflexivity.
Defined.

(** X13. In a reachable state, deleting a tag just created by [createTag]
    succeeds and gives back the tags and the files the caller had before:
    no file carried the new id, so the cascade of [deleteTag] rewrites
    every file to itself. *)
Theorem createTag_deleteTag caller name color s g :
  reachable s →
  (createTag caller name color s).1 = Ok g →
  let s' := (createTag caller name color s).2 in
  (deleteTag caller (Tag.id g) s').1 = Ok tt
  ∧ tags_of (deleteTag caller (Tag.id g) s').2 caller = tags_of s caller
  ∧ files_of (deleteTag caller (Tag.id g) s').2 caller = files_of s caller
  ∧ folders_of (deleteTag caller (Tag.id g) s').2 caller = folders_of s caller.
Proof.
  intros Hreach Hok s'.
  assert (isAnonymous caller = false) as Hauth.
  { pose proof Hok as Hok'. unfold createTag, bind in Hok'. by auth_case caller Hok'. }
  destruct (reachable_wf s Hreach caller) as [_ W2 _ _]. simpl in W2.
  destruct (reachable_wfTags s Hreach caller) as [T1 T2]. simpl in T1, T2.
  destruct (createTag_inv_full _ _ _ _ _ Hok) as (Hg & _ & Hview).
  fold s' in Hview. apply view_inj in Hview as (Hfs & Hfo & Htg & _).
  assert (Tag.id g = nextTagId_of s caller) as Hid by (by rewrite Hg).
  assert (tags_of s caller !! nextTagId_of s caller = None) as Hfresh.
  { destruct (tags_of s caller !! nextTagId_of s caller) as [t|] eqn:Ht; [|done].
    apply T1 in Ht as [_ ?]. lia. }
  destruct (deleteTag_run caller (Tag.id g) g s' Hauth) as [Hres Hview].
  { rewrite Htg, Hid. apply lookup_insert_eq. }
  { intros k f. rewrite Hfs. apply W2. }
  split; [done|]. apply view_inj in Hview as (-> & -> & -> & _).
  rewrite Hfs, Hfo, Htg, Hid. split; [|split; [|done]].
  - rewrite delete_insert_eq. by apply delete_id.
  - apply map_eq. intros k. rewrite lookup_fmap.
    destruct (files_of s caller !! k) as [f|] eqn:Hk; [|done]. simpl. f_equal.
    apply withoutTag_id. unfold hasTagId. apply not_true_iff_false.
    intros (t & Ht & Heq)%existsb_elem_of. apply bool_decide_eq_true in Heq. subst t.
    destruct (T2 k f _ Hk Ht) as [x Hx]. congruence.
Qed.

Lemma createTag_deleteTag_witness :
  reachable demoState
  ∧ files_of (deleteTag (User 1) 3 (createTag (User 1) "new" "green" demoState).2).2 (User 1)
    = files_of demoState (User 1).
Proof.
  split; [apply reachable_runCalls; constructor|].
  refine (proj1 (proj2 (proj2 (createTag_deleteTag (User 1) "new" "green" demoState
                                 (Tag.mk 3 "new" "green") _ _)))).
  - apply reachable_runCalls; constructor.
  - vm_compute; reflexivity.
Defined.

(** ** Resolution of folder names *)

Lemma isFolderSibling_spec parentId excludeId f :
  isFolderSibling parentId excludeId f = true
  ↔ Folder.parentId f = parentId ∧ excludeId ≠ Some (Folder.id f).
Proof.
  unfold isFolderSibling, shouldExclude, optEq.
  rewrite andb_true_iff, negb_true_iff, bool_decide_eq_true.
  destruct excludeId as [eid|].
  - rewrite bool_decide_eq_false. split; intros [H1 H2]; split; congruence.
  - split; intros [H1 H2]; done.
Qed.

Lemma folderSiblingNames_spec parentId excludeId folders x :
  x ∈ folderSiblingNames parentId excludeId folders ↔
  ∃ f, f ∈ values folders ∧ isFolderSibling parentId excludeId f = true
       ∧ toLower (Folder.name f) = x.
Proof.
  unfold folderSiblingNames.
  assert (∀ l (acc : gset string),
            x ∈ foldl (λ existingNames folder,
                         if negb (shouldExclude excludeId (Folder.id folder))
                            && optEq (Folder.parentId folder) parentId
                         then {[ toLower (Folder.name folder) ]} ∪ existingNames
                         else existingNames) acc l
            ↔ x ∈ acc ∨ ∃ f, f ∈ l ∧ isFolderSibling parentId excludeId f = true
                             ∧ toLower (Folder.name f) = x) as Hgen.
  { induction l as [|a l IH]; intros acc; cbn [foldl].
    - split; [by left|]. intros [?|(f & Hf & _)]; [done|]. by apply elem_of_nil in Hf.
    - rewrite IH. fold (isFolderSibling parentId excludeId a).
      destruct (isFolderSibling parentId excludeId a) eqn:Ha.
      + rewrite elem_of_union, elem_of_singleton. split.
        * intros [[->|?]|(f & Hf & ?)]; [right; exists a; split; [by left|done] | by left |].
          right. exists f. split; [by right|done].
        * intros [?|(f & [->|Hf]%elem_of_cons & Hs & Hx)]; [by left; right | by left; left |].
          right. by exists f.
      + split.
        * intros [?|(f & Hf & ?)]; [by left|]. right. exists f. split; [by right|done].
        * intros [?|(f & [->|Hf]%elem_of_cons & Hs & Hx)]; [by left | congruence |].
          right. by exists f. }
  rewrite Hgen. split; [intros [?|?]; [set_solver|done] | by right].
Qed.

Lemma folderCollision_spec folders parentId excludeId desiredName :
  folderCollision folders parentId excludeId desiredName
  ↔ toLower desiredName ∈ folderSiblingNames parentId excludeId folders.
Proof.
  unfold folderCollision, collides. rewrite folderSiblingNames_spec. split.
  - intros (k & f & Hk & Hfo & Hex & Hcol%equalIgnoringCase_spec).
    exists f. split; [apply elem_of_values; eauto|].
    split; [by apply isFolderSibling_spec | done].
  - intros (f & [k Hk]%elem_of_values & [Hfo Hex]%isFolderSibling_spec & Hlow).
    exists k, f. split; [done|]. split; [done|]. split; [done|].
    by apply equalIgnoringCase_spec.
Qed.

Lemma folderSuffixStep_mono parentId excludeId B m f :
  m ≤ folderSuffixStep parentId excludeId B m f.
Proof.
  unfold folderSuffixStep. destruct (_ && _); [|lia].
  destruct (parseNameSuffix (Folder.name f)) as [eb es].
  destruct (_ && (m <=? es)) eqn:Hc.
  - apply andb_true_iff in Hc as [_ Hle%Nat.leb_le].
    replace (es + 1 =? 0) with false by (symmetry; apply Nat.eqb_neq; lia).
    rewrite andb_false_r. lia.
  - destruct (_ && (m =? 0)) eqn:Hz; [|lia].
    apply andb_true_iff in Hz as [_ Hz%Nat.eqb_eq]. lia.
Qed.

Lemma folderSuffixStep_gt parentId excludeId B m f eb es :
  isFolderSibling parentId excludeId f = true →
  parseNameSuffix (Folder.name f) = (eb, es) →
  namesEqual eb B = true →
  es < folderSuffixStep parentId excludeId B m f.
Proof.
  intros Hsib Hp Hb. unfold folderSuffixStep. unfold isFolderSibling in Hsib.
  rewrite Hsib, Hp, Hb. cbn [andb].
  destruct (Nat.leb_spec m es) as [Hle|Hgt].
  - replace (es + 1 =? 0) with false by (symmetry; apply Nat.eqb_neq; lia).
    rewrite andb_false_r. lia.
  - replace (m =? 0) with false by (symmetry; apply Nat.eqb_neq; lia).
    rewrite andb_false_r. lia.
Qed.

Lemma foldl_folderSuffixStep_mono parentId excludeId B l m :
  m ≤ foldl (folderSuffixStep parentId excludeId B) m l.
Proof.
  revert m. induction l as [|f l IH]; intros m; [done|]. cbn [foldl].
  etrans; [|apply IH]. apply folderSuffixStep_mono.
Qed.

Lemma foldl_folderSuffixStep_gt parentId excludeId B l m f eb es :
  f ∈ l →
  isFolderSibling parentId excludeId f = true →
  parseNameSuffix (Folder.name f) = (eb, es) →
  namesEqual eb B = true →
  es < foldl (folderSuffixStep parentId excludeId B) m l.
Proof.
  intros Hin Hsib Hp Hb. revert m. induction l as [|a l IH]; intros m;
    [by apply elem_of_nil in Hin|].
  cbn [foldl]. apply elem_of_cons in Hin as [<-|Hin]; [|by apply IH].
  eapply Nat.lt_le_trans; [|apply foldl_folderSuffixStep_mono].
  by eapply folderSuffixStep_gt.
Qed.

Lemma lower_eq_parseName a b :
  toLower a = toLower b →
  namesEqual (parseNameSuffix a).1 (parseNameSuffix b).1 = true
  ∧ (parseNameSuffix a).2 = (parseNameSuffix b).2.
Proof.
  unfold namesEqual. intros Hab.
  pose proof (parseNameSuffix_lower a) as Ha.
  pose proof (parseNameSuffix_lower b) as Hb.
  rewrite Hab, Hb in Ha. injection Ha as H1 H2.
  rewrite H1, H2, String.eqb_refl. done.
Qed.

Lemma toLower_digits l :
  Forall (λ c, isDigit c = true) l →
  toLower (string_of_list_ascii l) = string_of_list_ascii l.
Proof.
  induction 1 as [|c l Hc _ IH]; [done|]. simpl. rewrite IH.
  by destruct (charToLower_digit c) as [_ ->].
Qed.

Lemma toLower_natToText n : toLower (natToText n) = natToText n.
Proof.
  rewrite <- (string_of_list_ascii_of_string (natToText n)).
  apply toLower_digits. eapply digitsFold_all. apply digitsFold_natToText.
Qed.

Lemma toLower_generated B n :
  toLower (B ++ " (" ++ natToText n ++ ")") = toLower B ++ " (" ++ natToText n ++ ")".
Proof. by rewrite !toLower_app, toLower_natToText. Qed.

Lemma uniqueFolderNameIn_spec folders parentId desiredName excludeId :
  uniqueFolderNameIn folders parentId desiredName excludeId = desiredName
  ↔ ¬ folderCollision folders parentId excludeId desiredName.
Proof.
  rewrite folderCollision_spec. unfold uniqueFolderNameIn.
  destruct (bool_decide (toLower desiredName ∈ folderSiblingNames parentId excludeId folders))
    eqn:Hin; cbn [negb].
  - apply bool_decide_eq_true in Hin. split; [|done]. intros Heq. exfalso. revert Heq.
    apply folderSiblingNames_spec in Hin as (f & Hf & Hsib & Hlow).
    destruct (parseNameSuffix desiredName) as [B kd] eqn:Hp.
    destruct (lower_eq_parseName (Folder.name f) desiredName Hlow) as (Hb & Hs).
    destruct (parseNameSuffix (Folder.name f)) as [eb es] eqn:Hpf.
    rewrite Hp in Hb, Hs. simpl in Hb, Hs. subst es.
    apply (generated_ne_parsed desiredName B kd); [done|].
    eapply foldl_folderSuffixStep_gt; eauto.
  - apply bool_decide_eq_false in Hin. done.
Qed.

(** The name returned is free among the siblings, provided the parsed base
    of the desired name is not empty. *)
Lemma uniqueFolderNameIn_free folders parentId desiredName excludeId :
  (parseNameSuffix desiredName).1 ≠ "" →
  ¬ folderCollision folders parentId excludeId
      (uniqueFolderNameIn folders parentId desiredName excludeId).
Proof.
  intros Hbase.
  destruct (bool_decide (toLower desiredName ∈ folderSiblingNames parentId excludeId folders))
    eqn:Hin.
  2:{ apply bool_decide_eq_false in Hin.
      assert (uniqueFolderNameIn folders parentId desiredName excludeId = desiredName) as ->.
      { apply uniqueFolderNameIn_spec. by rewrite folderCollision_spec. }
      by rewrite folderCollision_spec. }
  unfold uniqueFolderNameIn. rewrite Hin. cbn [negb].
  destruct (parseNameSuffix desiredName) as [B kd] eqn:Hp. simpl in Hbase.
  set (m := foldl (folderSuffixStep parentId excludeId B) 0 (values folders)).
  intros (k & f & Hk & Hpar & Hex & Hcol%equalIgnoringCase_spec).
  rewrite toLower_generated in Hcol.
  pose proof (parseNameSuffix_lower (Folder.name f)) as Hlow.
  rewrite Hcol, parseNameSuffix_generated in Hlow.
  2:{ left. destruct B; [done|]. simpl. done. }
  destruct (parseNameSuffix (Folder.name f)) as [eb es] eqn:Hpf. simpl in Hlow.
  injection Hlow as Hb Hs.
  assert (es < m); [|lia].
  eapply foldl_folderSuffixStep_gt; [apply elem_of_values; eauto| |exact Hpf|].
  - by apply isFolderSibling_spec.
  - unfold namesEqual. rewrite Hb. apply String.eqb_refl.
Qed.

(** X14. [getUniqueFolderName] returns the desired name unchanged exactly
    when no sibling collides with it (no stored folder with the target
    parent, other than the excluded folder, has a name equal to it
    ignoring case); and whenever the parsed base of the desired name is not
    empty, the name it returns collides with no sibling. *)
Theorem getUniqueFolderName_resolves user parentId desiredName excludeId s :
  ∃ r, (getUniqueFolderName user parentId desiredName excludeId s).1 = Ok r
       ∧ (r = desiredName
          ↔ ¬ folderCollision (folders_of s user) parentId excludeId desiredName)
       ∧ ((parseNameSuffix desiredName).1 ≠ "" →
          ¬ folderCollision (folders_of s user) parentId excludeId r).
Proof.
  rewrite run_getUniqueFolderName. eexists. split; [done|].
  split; [apply uniqueFolderNameIn_spec | apply uniqueFolderNameIn_free].
Qed.

(** *** Uniqueness of sibling names *)

Lemma namesEqual_sym a b : namesEqual a b = namesEqual b a.
Proof. unfold namesEqual. apply String.eqb_sym. Qed.

Lemma uniqueFolderNames_insert folders i g :
  uniqueFolderNames folders →
  (∀ j f, folders !! j = Some f → j ≠ i → Folder.parentId f = Folder.parentId g →
          namesEqual (Folder.name f) (Folder.name g) = false) →
  uniqueFolderNames (<[i := g]> folders).
Proof.
  intros Hu Hg a b fa fb Ha Hb Hne Hpar.
  destruct (decide (a = i)) as [->|Hai]; destruct (decide (b = i)) as [->|Hbi].
  - done.
  - rewrite lookup_insert_eq in Ha. rewrite lookup_insert_ne in Hb by congruence.
    injection Ha as <-. rewrite namesEqual_sym. eapply Hg; eauto.
  - rewrite lookup_insert_ne in Ha by congruence. rewrite lookup_insert_eq in Hb.
    injection Hb as <-. eapply Hg; eauto.
  - rewrite lookup_insert_ne in Ha by congruence.
    rewrite lookup_insert_ne in Hb by congruence. eapply Hu; eauto.
Qed.

Lemma free_among_siblings folders parentId excludeId r j f :
  ¬ folderCollision folders parentId excludeId r →
  folders !! j = Some f → Folder.parentId f = parentId → excludeId ≠ Some (Folder.id f) →
  namesEqual (Folder.name f) r = false.
Proof.
  intros Hfree Hj Hpar Hex. apply not_true_iff_false. intros Heq%namesEqual_spec.
  apply Hfree. by exists j, f.
Qed.

(** X15. In a reachable state where no two sibling folders of the caller
    have names equal up to case, an update call leaves the caller's folders
    in such a state again, provided the folder name it asks to resolve has
    a parsed base that is not empty. *)
Theorem folder_names_stay_unique caller now c s :
  reachable s →
  uniqueFolderNames (folders_of s caller) →
  requestsPlainName (folders_of s caller) c →
  uniqueFolderNames (folders_of (exec caller now c s).2 caller).
Proof.
  intros Hreach Hu Hplain.
  destruct (exec caller now c s).1 as [[]|msg] eqn:Hres.
  2:{ pose proof (trapSafe_exec caller now c s msg Hres caller) as Hv.
      apply (f_equal vFolders) in Hv. simpl in Hv. by rewrite Hv. }
  destruct (reachable_wf s Hreach caller) as [W1 W2 _ _]. simpl in W1, W2.
  destruct c; simpl in *.
  - destruct (discard_run (createFolder caller name parentId now) s) as (-> & [H _] & _).
    destruct (H Hres) as [g Hg].
    destruct (createFolder_inv _ _ _ _ _ _ Hg) as (Hgeq & _ & (_ & -> & _)%view_inj).
    apply uniqueFolderNames_insert; [done|]. intros j f Hj Hne Hpar.
    rewrite Hgeq in Hpar |- *. simpl in *.
    eapply free_among_siblings; [by apply uniqueFolderNameIn_free|done..].
  - destruct (discard_run (renameFolder caller id newName now) s) as (-> & [H _] & _).
    destruct (H Hres) as [g Hg].
    destruct (renameFolder_inv _ _ _ _ _ _ Hg) as (f0 & Hf0 & Hgeq & (_ & -> & _)%view_inj).
    apply uniqueFolderNames_insert; [done|]. intros j f Hj Hne Hpar.
    rewrite Hgeq in Hpar |- *. simpl in *.
    eapply free_among_siblings; [by apply uniqueFolderNameIn_free|done..|].
    destruct (W1 j f Hj) as [-> _]. congruence.
  - destruct (discard_run (moveFolder caller id newParentId now) s) as (-> & [H _] & _).
    destruct (H Hres) as [g Hg].
    destruct (moveFolder_inv _ _ _ _ _ _ Hg) as (f0 & Hf0 & Hgeq & _ & (_ & -> & _)%view_inj).
    apply uniqueFolderNames_insert; [done|]. intros j f Hj Hne Hpar.
    rewrite Hgeq in Hpar |- *. simpl in *.
    eapply free_among_siblings; [apply uniqueFolderNameIn_free; by apply Hplain|done..|].
    destruct (W1 j f Hj) as [-> _]. congruence.
  - assert (isAnonymous caller = false ∧ is_Some (folders_of s caller !! id))
      as [Hauth [f Hf]].
    { unfold deleteFolder, bind in Hres. auth_case caller Hres. split; [done|].
      revert Hres. rewrite run_requireAuth by done.
      rewrite run_getUserFolders, run_getUserFiles. autorewrite with views.
      destruct (containsKey (folders_of s caller) id) eqn:Hc; [|done].
      by apply containsKey_true in Hc. }
    destruct (deleteFolder_run caller id f s Hauth Hf)
      as (_ & D & fs' & fo' & _ & (_ & -> & _)%view_inj & Hfo & _).
    { intros k g Hk. by apply W1. }
    { intros k g Hk. by apply W2. }
    intros a b fa fb. rewrite !Hfo. repeat case_decide; try done. by apply Hu.
  - destruct (discard_run
      (uploadFile caller name description tagIds folderId size fileType blob now) s)
      as (-> & [H _] & _).
    destruct (H Hres) as [g Hg].
    by destruct (uploadFile_inv _ _ _ _ _ _ _ _ _ _ _ Hg) as (_ & _ & (_ & -> & _)%view_inj).
  - destruct (discard_run (updateFile caller id name description tagIds now) s)
      as (-> & [H _] & _).
    destruct (H Hres) as [g Hg].
    by destruct (updateFile_inv _ _ _ _ _ _ _ _ Hg)
      as (f & _ & _ & _ & _ & (_ & -> & _)%view_inj).
  - destruct (discard_run (moveFile caller id newFolderId now) s) as (-> & [H _] & _).
    destruct (H Hres) as [g Hg].
    by destruct (moveFile_inv _ _ _ _ _ _ Hg)
      as (f & _ & _ & _ & _ & _ & (_ & -> & _)%view_inj).
  - by apply deleteFile_inv, view_inj in Hres as (_ & -> & _).
  - destruct (discard_run (createTag caller name color) s) as (-> & [H _] & _).
    destruct (H Hres) as [g Hg].
    by destruct (createTag_inv_full _ _ _ _ _ Hg) as (_ & _ & (_ & -> & _)%view_inj).
  - destruct (discard_run (updateTag caller id name color) s) as (-> & [H _] & _).
    destruct (H Hres) as [g Hg].
    by destruct (updateTag_inv_full _ _ _ _ _ _ Hg) as (_ & _ & _ & (_ & -> & _)%view_inj).
  - assert (isAnonymous caller = false ∧ is_Some (tags_of s caller !! id))
      as [Hauth [tag Htag]].
    { unfold deleteTag, bind in Hres. auth_case caller Hres. split; [done|].
      revert Hres. rewrite run_requireAuth by done.
      rewrite run_getUserTags, run_getUserFiles. autorewrite with views.
      destruct (containsKey (tags_of s caller) id) eqn:Hc; [|done].
      by apply containsKey_true in Hc. }
    destruct (deleteTag_run caller id tag s Hauth Htag) as [_ (_ & -> & _)%view_inj]; [|done].
    intros k g Hk. by apply W2.
Qed.

(** Uniqueness of sibling names, checked by running over the folders. *)
Lemma uniqueFolderNames_checked folders :
  forallb (λ a, forallb (λ b, bool_decide (a.1 = b.1)
                              || negb (optEq (Folder.parentId a.2) (Folder.parentId b.2))
                              || negb (namesEqual (Folder.name a.2) (Folder.name b.2)))
                        (entries folders))
          (entries folders) = true →
  uniqueFolderNames folders.
Proof.
  intros Hall i j f g Hi Hj Hne Hpar. rewrite forallb_forall in Hall.
  apply elem_of_entries, list_elem_of_In in Hi, Hj.
  specialize (Hall _ Hi). rewrite forallb_forall in Hall. specialize (Hall _ Hj).
  simpl in Hall. rewrite bool_decide_eq_false_2 in Hall by done.
  unfold optEq in Hall. rewrite bool_decide_eq_true_2 in Hall by done.
  simpl in Hall. by apply negb_true_iff in Hall.
Qed.

Lemma folder_names_stay_unique_witness :
  reachable demoState
  ∧ Folder.name <$> values (folders_of (exec (User 1) 0%Z (CreateFolder "Docs" None)
                                          demoState).2 (User 1))
    = ["docs"; "sub"; "other"; "Docs (1)"]
  ∧ uniqueFolderNames (folders_of (exec (User 1) 0%Z (CreateFolder "Docs" None) demoState).2
                                  (User 1)).
Proof.
  split; [apply reachable_runCalls; constructor|]. split; [vm_compute; reflexivity|].
  apply (folder_names_stay_unique (User 1) 0%Z (CreateFolder "Docs" None) demoState).
  - apply reachable_runCalls; constructor.
  - apply uniqueFolderNames_checked. vm_compute; reflexivity.
  - vm_compute. discriminate.
Defined.

(** ** Names are never empty *)

Lemma generated_nonempty (B rest : Text) : B ++ " (" ++ rest ≠ "".
Proof.
  intros H%(f_equal toArray). rewrite !toArray_append in H.
  destruct (toArray B); discriminate H.
Qed.

Lemma uniqueFolderNameIn_nonempty folders parentId desiredName excludeId :
  desiredName ≠ "" → uniqueFolderNameIn folders parentId desiredName excludeId ≠ "".
Proof.
  intros Hne. unfold uniqueFolderNameIn. destruct (negb _); [done|].
  destruct (parseNameSuffix desiredName) as [B k]. apply generated_nonempty.
Qed.

Lemma uniqueFileNameIn_nonempty files folderId desiredName excludeId :
  desiredName ≠ "" → uniqueFileNameIn files folderId desiredName excludeId ≠ "".
Proof.
  intros Hne. unfold uniqueFileNameIn. destruct (negb _); [done|].
  destruct (parseFileNameSuffix desiredName) as [[B E] k].
  destruct (String.eqb E ""); apply generated_nonempty.
Qed.

Lemma createFolder_named c name P now s g :
  (createFolder c name P now s).1 = Ok g → name ≠ "".
Proof.
  intros Hok. unfold createFolder, bind in *. auth_case c Hok. revert Hok. mrun.
  destruct P as [p|]; mrun.
  - destruct (containsKey (folders_of s c) p); [|done]. mrun.
    by destruct (String.eqb_spec name "").
  - by destruct (String.eqb_spec name "").
Qed.

Lemma renameFolder_named c id newName now s g :
  (renameFolder c id newName now s).1 = Ok g → newName ≠ "".
Proof.
  intros Hok. unfold renameFolder, bind in *. auth_case c Hok. revert Hok. mrun.
  by destruct (String.eqb_spec newName "").
Qed.

Lemma uploadFile_named c name description tagIds P size fileType blob now s g :
  (uploadFile c name description tagIds P size fileType blob now s).1 = Ok g → name ≠ "".
Proof.
  intros Hok. unfold uploadFile, bind in *. auth_case c Hok. revert Hok. mrun.
  destruct P as [p|]; mrun.
  - destruct (containsKey (folders_of s c) p); [|done]. mrun.
    destruct (assertTagsExist_loop _ _ _).1; [|done]. mrun.
    by destruct (String.eqb_spec name "").
  - destruct (assertTagsExist_loop _ _ _).1; [|done]. mrun.
    by destruct (String.eqb_spec name "").
Qed.

Lemma updateFile_named c id name description tagIds now s g :
  (updateFile c id name description tagIds now s).1 = Ok g → name ≠ "".
Proof.
  intros Hok. unfold updateFile, bind in *. auth_case c Hok. revert Hok. mrun.
  destruct (assertTagsExist_loop _ _ _).1; [|done]. mrun.
  by destruct (String.eqb_spec name "").
Qed.

Lemma deleteFolder_ok c F s :
  (deleteFolder c F s).1 = Ok tt →
  isAnonymous c = false ∧ is_Some (folders_of s c !! F).
Proof.
  intros Hres. unfold deleteFolder, bind in Hres. auth_case c Hres. split; [done|].
  revert Hres. rewrite run_requireAuth by done.
  rewrite run_getUserFolders, run_getUserFiles. autorewrite with views.
  destruct (containsKey (folders_of s c) F) eqn:Hc; [|done].
  by apply containsKey_true in Hc.
Qed.

Lemma deleteTag_ok c T s :
  (deleteTag c T s).1 = Ok tt →
  isAnonymous c = false ∧ is_Some (tags_of s c !! T).
Proof.
  intros Hres. unfold deleteTag, bind in Hres. auth_case c Hres. split; [done|].
  revert Hres. rewrite run_requireAuth by done.
  rewrite run_getUserTags, run_getUserFiles. autorewrite with views.
  destruct (containsKey (tags_of s c) T) eqn:Hc; [|done].
  by apply containsKey_true in Hc.
Qed.

Lemma namedView_init u : namedView (view initState u).
Proof.
  split; intros k f; unfold view, files_of, folders_of, tags_of; simpl;
    rewrite lookup_empty; simpl; by rewrite lookup_empty.
Qed.

Lemma exec_named caller now c s :
  (∀ u, wfView (view s u)) → (∀ u, namedView (view s u)) →
  ∀ u, namedView (view (exec caller now c s).2 u).
Proof.
  intros Hwf Hnamed u. destruct (decide (u = caller)) as [->|Hne].
  2:{ rewrite touchesOnly_exec by done. apply Hnamed. }
  destruct (exec caller now c s).1 as [[]|msg] eqn:Hres.
  2:{ rewrite (trapSafe_exec caller now c s msg Hres). apply Hnamed. }
  destruct (Hwf caller) as [W1 W2 _ _]. destruct (Hnamed caller) as [N1 N2 N3].
  simpl in W1, W2, N1, N2, N3.
  destruct c; simpl in *.
  - destruct (discard_run (createFolder caller name parentId now) s) as (-> & [H _] & _).
    destruct (H Hres) as [g Hg]. pose proof (createFolder_named _ _ _ _ _ _ Hg) as Hname.
    destruct (createFolder_inv _ _ _ _ _ _ Hg) as (Hgeq & _ & ->).
    split; simpl; [|done|done]. intros k f. rewrite lookup_insert. case_decide; [|apply N1].
    intros [= <-]. rewrite Hgeq. simpl. by apply uniqueFolderNameIn_nonempty.
  - destruct (discard_run (renameFolder caller id newName now) s) as (-> & [H _] & _).
    destruct (H Hres) as [g Hg]. pose proof (renameFolder_named _ _ _ _ _ _ Hg) as Hname.
    destruct (renameFolder_inv _ _ _ _ _ _ Hg) as (f0 & Hf0 & Hgeq & ->).
    split; simpl; [|done|done]. intros k f. rewrite lookup_insert. case_decide; [|apply N1].
    intros [= <-]. rewrite Hgeq. simpl. by apply uniqueFolderNameIn_nonempty.
  - destruct (discard_run (moveFolder caller id newParentId now) s) as (-> & [H _] & _).
    destruct (H Hres) as [g Hg].
    destruct (moveFolder_inv _ _ _ _ _ _ Hg) as (f0 & Hf0 & Hgeq & _ & ->).
    split; simpl; [|done|done]. intros k f. rewrite lookup_insert. case_decide; [|apply N1].
    intros [= <-]. rewrite Hgeq. simpl. apply uniqueFolderNameIn_nonempty. by eapply N1.
  - destruct (deleteFolder_ok _ _ _ Hres) as [Hauth [f Hf]].
    destruct (deleteFolder_run caller id f s Hauth Hf)
      as (_ & D & fs' & fo' & _ & -> & Hfo & Hfs).
    { intros k g Hk. by apply W1. }
    { intros k g Hk. by apply W2. }
    split; simpl; [| |done].
    + intros k g. rewrite Hfo. case_decide; [done|]. apply N1.
    + intros k g. rewrite Hfs. destruct (files_of s caller !! k) as [g'|] eqn:Hk; [|done].
      destruct (inDeleteSet D g'); [done|]. intros [= <-]. by eapply N2.
  - destruct (discard_run
      (uploadFile caller name description tagIds folderId size fileType blob now) s)
      as (-> & [H _] & _).
    destruct (H Hres) as [g Hg]. pose proof (uploadFile_named _ _ _ _ _ _ _ _ _ _ _ Hg) as Hname.
    destruct (uploadFile_inv _ _ _ _ _ _ _ _ _ _ _ Hg) as (Hgeq & _ & ->).
    split; simpl; [done| |done]. intros k f. rewrite lookup_insert. case_decide; [|apply N2].
    intros [= <-]. rewrite Hgeq. simpl. by apply uniqueFileNameIn_nonempty.
  - destruct (discard_run (updateFile caller id name description tagIds now) s)
      as (-> & [H _] & _).
    destruct (H Hres) as [g Hg]. pose proof (updateFile_named _ _ _ _ _ _ _ _ Hg) as Hname.
    destruct (updateFile_inv _ _ _ _ _ _ _ _ Hg) as (f0 & Hf0 & Hn & _ & _ & ->).
    split; simpl; [done| |done]. intros k f. rewrite lookup_insert. case_decide; [|apply N2].
    intros [= <-]. rewrite Hn. by apply uniqueFileNameIn_nonempty.
  - destruct (discard_run (moveFile caller id newFolderId now) s) as (-> & [H _] & _).
    destruct (H Hres) as [g Hg].
    destruct (moveFile_inv _ _ _ _ _ _ Hg) as (f0 & Hf0 & Hn & _ & _ & _ & ->).
    split; simpl; [done| |done]. intros k f. rewrite lookup_insert. case_decide; [|apply N2].
    intros [= <-]. rewrite Hn. apply uniqueFileNameIn_nonempty. by eapply N2.
  - rewrite (deleteFile_inv _ _ _ Hres). split; simpl; [done| |done].
    intros k f [_ Hf]%lookup_delete_Some. by eapply N2.
  - destruct (discard_run (createTag caller name color) s) as (-> & [H _] & _).
    destruct (H Hres) as [g (Hg & Hname & ->)%createTag_inv_full].
    split; simpl; [done|done|]. intros k t. rewrite lookup_insert. case_decide; [|apply N3].
    intros [= <-]. by rewrite Hg.
  - destruct (discard_run (updateTag caller id name color) s) as (-> & [H _] & _).
    destruct (H Hres) as [g (Hg & _ & Hname & ->)%updateTag_inv_full].
    split; simpl; [done|done|]. intros k t. rewrite lookup_insert. case_decide; [|apply N3].
    intros [= <-]. by rewrite Hg.
  - destruct (deleteTag_ok _ _ _ Hres) as [Hauth [tag Htag]].
    destruct (deleteTag_run caller id tag s Hauth Htag) as [_ ->].
    { intros k g Hk. by apply W2. }
    split; simpl; [done| |].
    + intros k f. rewrite lookup_fmap.
      destruct (files_of s caller !! k) as [f0|] eqn:Hk; [|done]. simpl.
      intros [= <-]. simpl. by eapply N2.
    + intros k t [_ Ht]%lookup_delete_Some. by eapply N3.
Qed.

Lemma reachable_named s : reachable s → ∀ u, namedView (view s u).
Proof.
  induction 1 as [|s caller now c Hr IH]; [apply namedView_init|].
  apply exec_named; [by apply reachable_wf | done].
Qed.

(** X16. In every state reachable by calls, every folder, file and tag of
    every principal has a name that is not empty: the methods that take a
    name refuse the empty one, and a name made up by the resolution of
    collisions is never empty. *)
Theorem names_never_empty s u :
  reachable s →
  (∀ k f, folders_of s u !! k = Some f → Folder.name f ≠ "")
  ∧ (∀ k f, files_of s u !! k = Some f → FileMetadata.name f ≠ "")
  ∧ (∀ k t, tags_of s u !! k = Some t → Tag.name t ≠ "").
Proof. intros Hreach. by destruct (reachable_named s Hreach u). Qed.

Lemma names_never_empty_witness :
  reachable demoState
  ∧ (∀ k f, folders_of demoState (User 1) !! k = Some f → Folder.name f ≠ "").
Proof.
  split; [apply reachable_runCalls; constructor|].
  apply (names_never_empty demoState (User 1)). apply reachable_runCalls; constructor.
Defined.

(** ** Generated names parse back *)





(** ** Search after a tag is deleted *)



